(** * lazyclaw: the acquisition core of the gateway monitor

    A shallow embedding of [internal/gateway/cli.go] (the CLI adapter:
    command construction, status cache, log following, log line parsing)
    and of the log-following part of [internal/ui/app.go] (the instance
    switch and the commands it dispatches), with the properties of the
    design document stated over them.

    Go strings are byte strings; they are modelled by [string], whose
    characters are the bytes.  Go's [int] is modelled by [Z].  An [error]
    is modelled by its message. *)

From Stdlib Require Import String Ascii List ZArith Lia Bool DecimalString.
Import ListNotations.
Open Scope string_scope.

(** ** Go's [strings] package, on byte strings *)

Module GoStrings.

Definition byte (n : nat) : ascii := ascii_of_nat n.

Fixpoint bytes (l : list nat) : string :=
  match l with
  | [] => EmptyString
  | n :: l' => String (byte n) (bytes l')
  end.

(** The double quote, written by its code. *)
Definition dquote : string := bytes [34].

Definition is_upper (c : ascii) : bool :=
  let n := nat_of_ascii c in (65 <=? n)%nat && (n <=? 90)%nat.

Definition lower_byte (c : ascii) : ascii :=
  if is_upper c then ascii_of_nat (nat_of_ascii c + 32) else c.

(** [strings.ToLower].  Exact on ASCII text, where Go lowers the letters
    A to Z and nothing else; bytes from 128 on are left as they are
    (Go maps the runes they encode through the Unicode tables). *)
Fixpoint ToLower (s : string) : string :=
  match s with
  | EmptyString => EmptyString
  | String c s' => String (lower_byte c) (ToLower s')
  end.

(** The [asciiSpace] table: tab, newline, vertical tab, form feed,
    carriage return, space. *)
Definition asciiSpace (c : ascii) : bool :=
  let n := nat_of_ascii c in
  ((9 <=? n)%nat && (n <=? 13)%nat) || (n =? 32)%nat.

(** The white space of [unicode.IsSpace] beyond ASCII, by UTF-8
    encoding: U+0085 and U+00A0 take two bytes, U+1680, U+2000 to
    U+200A, U+2028, U+2029, U+202F, U+205F and U+3000 take three. *)
Definition space2 (b1 b2 : ascii) : bool :=
  let n1 := nat_of_ascii b1 in
  let n2 := nat_of_ascii b2 in
  (n1 =? 194)%nat && ((n2 =? 133)%nat || (n2 =? 160)%nat).

Definition space3 (b1 b2 b3 : ascii) : bool :=
  let n1 := nat_of_ascii b1 in
  let n2 := nat_of_ascii b2 in
  let n3 := nat_of_ascii b3 in
  ((n1 =? 225)%nat && (n2 =? 154)%nat && (n3 =? 128)%nat)
  || ((n1 =? 226)%nat && (n2 =? 128)%nat &&
      (((128 <=? n3)%nat && (n3 <=? 138)%nat)
       || (n3 =? 168)%nat || (n3 =? 169)%nat || (n3 =? 175)%nat))
  || ((n1 =? 226)%nat && (n2 =? 129)%nat && (n3 =? 159)%nat)
  || ((n1 =? 227)%nat && (n2 =? 128)%nat && (n3 =? 128)%nat).

(** Trimming leading runes: [p1], [p2] and [p3] recognise the runes of
    one, two and three bytes to remove; the rest starts at the first
    byte that begins none of them. *)
Section TrimRunes.

Variable p1 : ascii -> bool.
Variable p2 : ascii -> ascii -> bool.
Variable p3 : ascii -> ascii -> ascii -> bool.

Fixpoint trim_runes (s : string) : string :=
  match s with
  | EmptyString => EmptyString
  | String b1 s1 =>
      if p1 b1 then trim_runes s1
      else
        match s1 with
        | EmptyString => s
        | String b2 s2 =>
            if p2 b1 b2 then trim_runes s2
            else
              match s2 with
              | EmptyString => s
              | String b3 s3 =>
                  if p3 b1 b2 b3 then trim_runes s3 else s
              end
        end
  end.

(** The strings made of one such rune, and of any number of them. *)
Inductive rune : string -> Prop :=
| rune1 b : p1 b = true -> rune (String b "")
| rune2 b1 b2 : p2 b1 b2 = true -> rune (String b1 (String b2 ""))
| rune3 b1 b2 b3 :
    p3 b1 b2 b3 = true -> rune (String b1 (String b2 (String b3 ""))).

Inductive runes : string -> Prop :=
| runes_nil : runes ""
| runes_cons r s : rune r -> runes s -> runes (r ++ s).

End TrimRunes.

(** [strings.TrimLeftFunc s unicode.IsSpace]: leading white-space runes
    are removed one by one. *)
Definition TrimLeftSpace (s : string) : string :=
  trim_runes asciiSpace space2 space3 s.

Fixpoint rev_append (s acc : string) : string :=
  match s with
  | EmptyString => acc
  | String c s' => rev_append s' (String c acc)
  end.

Definition rev (s : string) : string := rev_append s EmptyString.

(** The same on a reversed string, where the last byte of a rune comes
    first. *)
Definition trim_left_rev (s : string) : string :=
  trim_runes asciiSpace (fun b1 b2 => space2 b2 b1)
    (fun b1 b2 b3 => space3 b3 b2 b1) s.

(** [strings.TrimRightFunc s unicode.IsSpace]: the last rune is decoded
    backwards from the end of the string. *)
Definition TrimRightSpace (s : string) : string :=
  rev (trim_left_rev (rev s)).

(** [strings.TrimSpace]. *)
Definition TrimSpace (s : string) : string :=
  TrimRightSpace (TrimLeftSpace s).

(** A byte of plain text: ASCII, and not white space. *)
Definition plain (c : ascii) : bool :=
  (nat_of_ascii c <? 128)%nat && negb (asciiSpace c).

(** Whether a string begins, and ends, with a byte of plain text. *)
Definition starts_plain (s : string) : bool :=
  match s with
  | EmptyString => false
  | String c _ => plain c
  end.

Definition ends_plain (s : string) : bool := starts_plain (rev s).

(** The runes of white space, read forwards and backwards. *)
Abbreviation space_rune := (rune asciiSpace space2 space3).
Abbreviation spaces := (runes asciiSpace space2 space3).
Abbreviation space_rune_rev :=
  (rune asciiSpace (fun b1 b2 => space2 b2 b1) (fun b1 b2 b3 => space3 b3 b2 b1)).
Abbreviation spaces_rev :=
  (runes asciiSpace (fun b1 b2 => space2 b2 b1) (fun b1 b2 b3 => space3 b3 b2 b1)).

(** [strings.Index s sep] for a one-byte separator; [None] is Go's -1. *)
Fixpoint IndexByte (s : string) (c : ascii) : option nat :=
  match s with
  | EmptyString => None
  | String a s' =>
      if Ascii.eqb a c then Some 0%nat
      else match IndexByte s' c with
           | Some i => Some (S i)
           | None => None
           end
  end.

(** [strings.Contains s sep] for a one-byte separator. *)
Definition ContainsByte (s : string) (c : ascii) : bool :=
  match IndexByte s c with Some _ => true | None => false end.

(** The slice expressions [s[lo:hi]] and [s[lo:]]. *)
Definition slice (s : string) (lo hi : nat) : string :=
  substring lo (hi - lo) s.

Definition slice_from (s : string) (lo : nat) : string :=
  substring lo (String.length s - lo) s.

(** [strings.ReplaceAll s old new] for a one-byte [old]. *)
Fixpoint ReplaceAllByte (s : string) (old : ascii) (new : string) : string :=
  match s with
  | EmptyString => EmptyString
  | String a s' =>
      if Ascii.eqb a old then new ++ ReplaceAllByte s' old new
      else String a (ReplaceAllByte s' old new)
  end.

(** [strings.Repeat]. *)
Fixpoint Repeat (s : string) (count : nat) : string :=
  match count with
  | O => EmptyString
  | S n => s ++ Repeat s n
  end.

(** [fmt.Sprintf("%d", n)]. *)
Definition itoa (n : Z) : string := NilZero.string_of_int (Z.to_int n).

End GoStrings.
Import GoStrings.

(** ** [models]: the data of the acquisition core *)

(** [time.Time], as an instant on some fixed scale. *)
Definition Time : Type := Z.

(** [models.LogEvent]. *)
Record LogEvent : Type := mkLogEvent {
  Timestamp : Time;
  Level : string;   (* debug, info, warn, error *)
  Source : string;
  Message : string;
  Raw : string
}.

Definition set_Timestamp (t : Time) (e : LogEvent) : LogEvent :=
  mkLogEvent t (Level e) (Source e) (Message e) (Raw e).
Definition set_Level (l : string) (e : LogEvent) : LogEvent :=
  mkLogEvent (Timestamp e) l (Source e) (Message e) (Raw e).
Definition set_Message (m : string) (e : LogEvent) : LogEvent :=
  mkLogEvent (Timestamp e) (Level e) (Source e) m (Raw e).

(** The anonymous struct [jsonLog] that [parseLogLine] decodes into. *)
Record JsonLog : Type := mkJsonLog {
  jTime : string;     (* `json:"time"` *)
  jLevel : string;    (* `json:"level"` *)
  jMsg : string;      (* `json:"msg"` *)
  jMessage : string   (* `json:"message"` *)
}.

(** ** The log line parser *)

Section LogLineParser.

(** [json.Unmarshal([]byte(line), &jsonLog)]: the decoded struct, or
    [None] when the call returns an error.  The decoder is the standard
    library's and is taken as given. *)
Variable json_unmarshal : string -> option JsonLog.

(** [time.Parse(time.RFC3339, s)], [None] when it returns an error. *)
Variable time_parse_rfc3339 : string -> option Time.

(** The [switch level] of the bracketed format; [None] is the absence
    of a matching case. *)
Definition bracket_level (level : string) : option string :=
  if (level =? "debug") || (level =? "dbg") then Some "debug"
  else if (level =? "info") || (level =? "inf") then Some "info"
  else if (level =? "warn") || (level =? "warning") || (level =? "wrn")
  then Some "warn"
  else if (level =? "error") || (level =? "err") then Some "error"
  else None.

(** The JSON branch of [parseLogLine], from the decoded struct. *)
Definition fill_from_json (jsonLog : JsonLog) (event : LogEvent) : LogEvent :=
  let event :=
    if negb (jLevel jsonLog =? "")
    then set_Level (ToLower (jLevel jsonLog)) event else event in
  let event :=
    if negb (jMsg jsonLog =? "") then set_Message (jMsg jsonLog) event
    else if negb (jMessage jsonLog =? "")
         then set_Message (jMessage jsonLog) event
         else event in
  if negb (jTime jsonLog =? "") then
    match time_parse_rfc3339 (jTime jsonLog) with
    | Some t => set_Timestamp t event
    | None => event
    end
  else event.

(** [parseLogLine]; [now] is the reading of [time.Now()] at the call,
    the receipt time of the line. *)
Definition parseLogLine (now : Time) (line : string) : LogEvent :=
  let event := mkLogEvent now "info" "" "" line in
  match json_unmarshal line with
  | Some jsonLog => fill_from_json jsonLog event
  | None =>
      let line := TrimSpace line in
      let fallback := set_Message line event in
      match IndexByte line "["%char with
      | Some idx =>
          match IndexByte (slice_from line idx) "]"%char with
          | Some endIdx =>
              let level := ToLower (slice line (idx + 1) (idx + endIdx)) in
              let event :=
                match bracket_level level with
                | Some l => set_Level l event
                | None => event
                end in
              set_Message (TrimSpace (slice_from line (idx + endIdx + 1))) event
          | None => fallback
          end
      | None => fallback
      end
  end.

End LogLineParser.

(** The bracketed-tag convention, on the line as it comes: [line] reads
    [pre[tag]rest], the bracket shown being the first opening bracket of
    the line and the closing one the first after it. *)
Definition first_bracket_token (line pre tag rest : string) : Prop :=
  line = pre ++ "[" ++ tag ++ "]" ++ rest
  /\ IndexByte pre "["%char = None /\ IndexByte tag "]"%char = None.

(** Whether a line has such a token at all. *)
Definition has_bracket_token (line : string) : bool :=
  match IndexByte line "["%char with
  | Some idx =>
      match IndexByte (slice_from line idx) "]"%char with
      | Some _ => true
      | None => false
      end
  | None => false
  end.


(** ** Decoders for the sample lines

    The parser is stated over any decoder.  To run it on concrete lines,
    this module gives a decoder for the objects log lines are made of: one
    JSON object whose member values are strings (or [null]), with ASCII
    keys and the two-character escapes.  Such an object decodes as
    [encoding/json] decodes it into [jsonLog]: keys match the field tags
    without regard to case, unknown keys are skipped, a repeated key keeps
    its last value, [null] leaves a field as it is.  Any other text is
    rejected, which is what [encoding/json] does with text that is not
    JSON; JSON outside the shape above is out of this decoder's scope. *)

Module Samples.

Definition json_ws (c : ascii) : bool :=
  match nat_of_ascii c with
  | 9 | 10 | 13 | 32 => true
  | _ => false
  end.

Fixpoint skip_ws (s : string) : string :=
  match s with
  | EmptyString => EmptyString
  | String c s' => if json_ws c then skip_ws s' else s
  end.

Definition unescape (c : ascii) : option ascii :=
  match nat_of_ascii c with
  | 34 => Some (byte 34)     (* quote *)
  | 92 => Some (byte 92)     (* backslash *)
  | 47 => Some (byte 47)     (* slash *)
  | 98 => Some (byte 8)      (* b *)
  | 102 => Some (byte 12)    (* f *)
  | 110 => Some (byte 10)    (* n *)
  | 114 => Some (byte 13)    (* r *)
  | 116 => Some (byte 9)     (* t *)
  | _ => None
  end.

(** The text of a string literal after its opening quote, and what
    follows the closing quote. *)
Fixpoint string_body (s : string) : option (string * string) :=
  match s with
  | EmptyString => None
  | String c s' =>
      if (nat_of_ascii c =? 34)%nat then Some (EmptyString, s')
      else if (nat_of_ascii c =? 92)%nat then
        match s' with
        | EmptyString => None
        | String e s'' =>
            match unescape e, string_body s'' with
            | Some ch, Some (v, r) => Some (String ch v, r)
            | _, _ => None
            end
        end
      else if (nat_of_ascii c <? 32)%nat then None
      else
        match string_body s' with
        | Some (v, r) => Some (String c v, r)
        | None => None
        end
  end.

(** A member value: a string literal or [null]. *)
Definition flat_value (s : string) : option (option string * string) :=
  match s with
  | String c s' =>
      if (nat_of_ascii c =? 34)%nat then
        match string_body s' with
        | Some (v, r) => Some (Some v, r)
        | None => None
        end
      else if prefix "null" s then Some (None, substring 4 (String.length s - 4) s)
      else None
  | EmptyString => None
  end.

Definition assign (key : string) (v : option string) (j : JsonLog) : JsonLog :=
  match v with
  | None => j
  | Some v =>
      let k := ToLower key in
      if k =? "time" then mkJsonLog v (jLevel j) (jMsg j) (jMessage j)
      else if k =? "level" then mkJsonLog (jTime j) v (jMsg j) (jMessage j)
      else if k =? "msg" then mkJsonLog (jTime j) (jLevel j) v (jMessage j)
      else if k =? "message" then mkJsonLog (jTime j) (jLevel j) (jMsg j) v
      else j
  end.

(** The members of an object, from after the opening brace or a comma
    to the closing brace. *)
Fixpoint members (fuel : nat) (s : string) (j : JsonLog) : option (JsonLog * string) :=
  match fuel with
  | O => None
  | S fuel' =>
      match skip_ws s with
      | String q s1 =>
          if (nat_of_ascii q =? 34)%nat then
            match string_body s1 with
            | Some (key, r) =>
                match skip_ws r with
                | String colon r1 =>
                    if (nat_of_ascii colon =? 58)%nat then
                      match flat_value (skip_ws r1) with
                      | Some (v, r2) =>
                          let j' := assign key v j in
                          match skip_ws r2 with
                          | String d r3 =>
                              if (nat_of_ascii d =? 44)%nat then members fuel' r3 j'
                              else if (nat_of_ascii d =? 125)%nat then Some (j', r3)
                              else None
                          | EmptyString => None
                          end
                      | None => None
                      end
                    else None
                | EmptyString => None
                end
            | None => None
            end
          else None
      | EmptyString => None
      end
  end.

Definition json_unmarshal (line : string) : option JsonLog :=
  let zero := mkJsonLog "" "" "" "" in
  match skip_ws line with
  | String c s1 =>
      if (nat_of_ascii c =? 123)%nat then
        match skip_ws s1 with
        | String c2 s2 =>
            if (nat_of_ascii c2 =? 125)%nat then
              match skip_ws s2 with
              | EmptyString => Some zero
              | _ => None
              end
            else
              match members (String.length s1) s1 zero with
              | Some (j, r) =>
                  match skip_ws r with
                  | EmptyString => Some j
                  | _ => None
                  end
              | None => None
              end
        | EmptyString => None
        end
      else if prefix "null" (skip_ws line) then
        match skip_ws (substring 4 (String.length line) (skip_ws line)) with
        | EmptyString => Some zero
        | _ => None
        end
      else None
  | EmptyString => None
  end.

(** A string literal with the given ASCII text free of quotes,
    backslashes and control characters. *)
Definition quoted (s : string) : string := dquote ++ s ++ dquote.

(** The object with the given members. *)
Fixpoint members_text (l : list (string * string)) : string :=
  match l with
  | [] => ""
  | [(k, v)] => quoted k ++ ":" ++ quoted v
  | (k, v) :: l' => quoted k ++ ":" ++ quoted v ++ "," ++ members_text l'
  end.

Definition object (l : list (string * string)) : string :=
  "{" ++ members_text l ++ "}".

(** Timestamps of the form [YYYY-MM-DDTHH:MM:SSZ], the UTC case of
    RFC 3339, as seconds since the epoch; anything else is rejected. *)
Definition digit (c : ascii) : option Z :=
  let n := nat_of_ascii c in
  if (48 <=? n)%nat && (n <=? 57)%nat then Some (Z.of_nat (n - 48)) else None.

Fixpoint number (s : string) (acc : Z) : option Z :=
  match s with
  | EmptyString => Some acc
  | String c s' =>
      match digit c with
      | Some d => number s' (10 * acc + d)%Z
      | None => None
      end
  end.

Definition is_leap (y : Z) : bool :=
  ((y mod 4 =? 0) && negb (y mod 100 =? 0) || (y mod 400 =? 0))%Z.

Definition days_in_month (y m : Z) : Z :=
  if (m =? 2)%Z then (if is_leap y then 29 else 28)%Z
  else if ((m =? 4) || (m =? 6) || (m =? 9) || (m =? 11))%Z then 30%Z
  else 31%Z.

(** Days from 1970-01-01 to the given civil date. *)
Definition days_from_civil (y m d : Z) : Z :=
  let y' := (if m <=? 2 then y - 1 else y)%Z in
  let era := (y' / 400)%Z in
  let yoe := (y' - era * 400)%Z in
  let mp := ((m + 9) mod 12)%Z in
  let doy := ((153 * mp + 2) / 5 + d - 1)%Z in
  let doe := (yoe * 365 + yoe / 4 - yoe / 100 + doy)%Z in
  (era * 146097 + doe - 719468)%Z.

Definition time_parse_rfc3339 (s : string) : option Time :=
  if negb (String.length s =? 20)%nat then None
  else if negb ((substring 4 1 s =? "-") && (substring 7 1 s =? "-")
                && (substring 10 1 s =? "T") && (substring 13 1 s =? ":")
                && (substring 16 1 s =? ":") && (substring 19 1 s =? "Z"))
  then None
  else
    match number (substring 0 4 s) 0, number (substring 5 2 s) 0,
          number (substring 8 2 s) 0, number (substring 11 2 s) 0,
          number (substring 14 2 s) 0, number (substring 17 2 s) 0 with
    | Some y, Some mo, Some d, Some h, Some mi, Some sec =>
        if ((1 <=? mo) && (mo <=? 12) && (1 <=? d) && (d <=? days_in_month y mo)
            && (h <? 24) && (mi <? 60) && (sec <? 60))%Z
        then Some (days_from_civil y mo d * 86400 + h * 3600 + mi * 60 + sec)%Z
        else None
    | _, _, _, _, _, _ => None
    end.

(** [parseLogLine] with these decoders. *)
Definition parse : Time -> string -> LogEvent :=
  parseLogLine json_unmarshal time_parse_rfc3339.

(** A line of 600 bytes without brackets that is not JSON. *)
Definition line600 : string := Repeat "heartbeat ok, uptime=3600s, q=0;" 18 ++ "sessions=12 agents=3 ok!".

End Samples.


(** ** The CLI adapter *)

Definition error : Type := string.

Inductive result (A : Type) : Type :=
| Ok (a : A)
| Err (e : error).
Arguments Ok {A} a.
Arguments Err {A} e.

(** [models.SSHConfig]. *)
Record SSHConfig : Type := mkSSHConfig {
  Host : string;
  Port : Z;
  User : string;
  IdentityFile : string;
  ProxyJump : string;
  ConnectTimeout : Z;
  OpenClawCLI : string
}.

(** An [exec.Cmd] as built by [exec.Command(name, arg...)]: the program
    spawned on the local host and its arguments. *)
Record Command : Type := mkCommand {
  prog : string;
  argv : list string
}.

(** What [cmd.Output()] returns: the captured standard output, an
    [*exec.ExitError] with the captured standard error and the exit code,
    or another error (the program could not be started). *)
Inductive ExecResult : Type :=
| Output (stdout : string)
| ExitError (stderr : string) (code : Z)
| OtherError (e : error).

(** How the three fallible steps of [FollowLogs] turn out:
    [cmd.StdoutPipe()], [cmd.StderrPipe()], [cmd.Start()]. *)
Inductive LaunchResult : Type :=
| Started
| StdoutPipeError (e : error)
| StderrPipeError (e : error)
| StartError (e : error).

Section CLIAdapter.

(** [models.OpenClawStatus], the decoded status payload. *)
Context {OpenClawStatus : Type}.

(** [CLIAdapter].  [logCancel] holds the context whose cancel function
    the field stores; [logCmd] the command of the last [FollowLogs]. *)
Record CLIAdapter : Type := mkCLIAdapter {
  BinaryPath : string;
  SSHConfig_ : option SSHConfig;
  InstanceName : string;
  lastStatus : option OpenClawStatus;
  lastFetched : Time;
  lastError : option error;
  logCmd : option Command;
  adapterLogCancel : option nat
}.

Definition NewCLIAdapter : CLIAdapter :=
  mkCLIAdapter "" None "local" None 0%Z None None None.

Definition NewSSHCLIAdapter (name : string) (sshConfig : SSHConfig)
    (openclawPath : string) : CLIAdapter :=
  mkCLIAdapter openclawPath (Some sshConfig) name None 0%Z None None None.

Definition IsRemote (c : CLIAdapter) : bool :=
  match SSHConfig_ c with
  | Some cfg => negb (Host cfg =? "")
  | None => false
  end.

Definition getBinary (c : CLIAdapter) : string :=
  if negb (BinaryPath c =? "") then BinaryPath c else "openclaw".

Definition shellQuote (s : string) : string :=
  "'" ++ ReplaceAllByte s "'"%char "'\''" ++ "'".

Definition buildSSHArgs (c : CLIAdapter) : list string :=
  match SSHConfig_ c with
  | None => []
  | Some cfg =>
      let args : list string := [] in
      let args := (args ++ ["-o"; "BatchMode=yes"])%list in
      let args := (args ++ ["-o"; "StrictHostKeyChecking=accept-new"])%list in
      let timeout := ConnectTimeout cfg in
      let timeout := if (timeout <=? 0)%Z then 10%Z else timeout in
      let args := (args ++ ["-o"; ("ConnectTimeout=" ++ itoa timeout)%string])%list in
      let args :=
        if (0 <? Port cfg)%Z then (args ++ ["-p"; itoa (Port cfg)])%list else args in
      let args :=
        if negb (IdentityFile cfg =? "")
        then (args ++ ["-i"; IdentityFile cfg])%list else args in
      let args :=
        if negb (ProxyJump cfg =? "")
        then (args ++ ["-J"; ProxyJump cfg])%list else args in
      let host := Host cfg in
      let host :=
        if negb (User cfg =? "") && negb (ContainsByte host "@"%char)
        then User cfg ++ "@" ++ host else host in
      (args ++ [host])%list
  end.

(** The loop of [runSSHCommand] that appends the arguments to the remote
    command line. *)
Fixpoint appendRemoteArgs (remoteCmd : string) (args : list string) : string :=
  match args with
  | [] => remoteCmd
  | arg :: args' =>
      let remoteCmd :=
        if ContainsByte arg " "%char || ContainsByte arg "'"%char
           || ContainsByte arg (byte 34)
        then remoteCmd ++ " '" ++ ReplaceAllByte arg "'"%char "'\''" ++ "'"
        else remoteCmd ++ " " ++ arg in
      appendRemoteArgs remoteCmd args'
  end.

(** The command [runSSHCommand] executes: [ssh], the connection options
    and the host, and the remote command line wrapped in a login shell. *)
Definition sshCommand (c : CLIAdapter) (args : list string) : Command :=
  let sshArgs := buildSSHArgs c in
  let remoteCmd := appendRemoteArgs (getBinary c) args in
  let remoteCmd := "bash -lc " ++ shellQuote remoteCmd in
  mkCommand "ssh" (sshArgs ++ [remoteCmd])%list.

(** The command [runLocalCommand] executes. *)
Definition localCommand (c : CLIAdapter) (args : list string) : Command :=
  mkCommand (getBinary c) args.

(** The outcome of [cmd.Output()] for a command, at the time of the call. *)
Variable cmd_Output : Command -> ExecResult.

Definition runLocalCommand (c : CLIAdapter) (args : list string) : result string :=
  match cmd_Output (localCommand c args) with
  | Output output => Ok (TrimSpace output)
  | ExitError stderr _ => Err ("command failed: " ++ stderr)
  | OtherError e => Err e
  end.

Definition runSSHCommand (c : CLIAdapter) (args : list string) : result string :=
  match cmd_Output (sshCommand c args) with
  | Output output => Ok (TrimSpace output)
  | ExitError stderr code =>
      let stderr := TrimSpace stderr in
      if negb (stderr =? "") then Err ("SSH command failed: " ++ stderr)
      else Err ("SSH command failed with exit code " ++ itoa code)
  | OtherError e => Err ("SSH connection failed: " ++ e)
  end.

Definition runCommand (c : CLIAdapter) (args : list string) : result string :=
  if IsRemote c then runSSHCommand c args else runLocalCommand c args.

(** The command [runCommand] hands to the operating system. *)
Definition commandOf (c : CLIAdapter) (args : list string) : Command :=
  if IsRemote c then sshCommand c args else localCommand c args.

(** [json.Unmarshal([]byte(output), &status)]. *)
Variable status_unmarshal : string -> result OpenClawStatus.

Definition set_lastError (e : option error) (c : CLIAdapter) : CLIAdapter :=
  mkCLIAdapter (BinaryPath c) (SSHConfig_ c) (InstanceName c)
    (lastStatus c) (lastFetched c) e (logCmd c) (adapterLogCancel c).

Definition set_cache (s : OpenClawStatus) (t : Time) (c : CLIAdapter) : CLIAdapter :=
  mkCLIAdapter (BinaryPath c) (SSHConfig_ c) (InstanceName c)
    (Some s) t None (logCmd c) (adapterLogCancel c).

(** [GetFullStatus]: the adapter after the call and the returned pair,
    [Ok status] for [(&status, nil)] and [Err e] for [(nil, e)]; [now] is
    the reading of [time.Now()]. *)
Definition GetFullStatus (now : Time) (c : CLIAdapter)
    : CLIAdapter * result OpenClawStatus :=
  match runCommand c ["status"; "--json"] with
  | Err err => (set_lastError (Some err) c, Err err)
  | Ok output =>
      match status_unmarshal output with
      | Err err =>
          let parseErr := "failed to parse status JSON: " ++ err in
          (set_lastError (Some parseErr) c, Err parseErr)
      | Ok status => (set_cache status now c, Ok status)
      end
  end.

Definition GetCachedStatus (c : CLIAdapter) : option OpenClawStatus := lastStatus c.

Definition GetLastError (c : CLIAdapter) : option error := lastError c.

(** The command [FollowLogs] builds with [exec.CommandContext]. *)
Definition followCommand (c : CLIAdapter) : Command :=
  let binary := getBinary c in
  mkCommand binary ["logs"; "--follow"].

Definition set_follow (cmd : Command) (ctx : nat) (c : CLIAdapter) : CLIAdapter :=
  mkCLIAdapter (BinaryPath c) (SSHConfig_ c) (InstanceName c)
    (lastStatus c) (lastFetched c) (lastError c) (Some cmd) (Some ctx).

(** The error [FollowLogs] returns, [None] for [nil]. *)
Definition followError (r : LaunchResult) : option error :=
  match r with
  | Started => None
  | StdoutPipeError e => Some ("failed to get stdout pipe: " ++ e)
  | StderrPipeError e => Some ("failed to get stderr pipe: " ++ e)
  | StartError e => Some ("failed to start logs command: " ++ e)
  end.

End CLIAdapter.

Arguments CLIAdapter : clear implicits.

(** The argument list the connection policy prescribes: the three
    options of the policy, an optional flag with its value, and the host
    argument. *)
Definition policyArgs (timeout : Z) : list string :=
  ["-o"; "BatchMode=yes"; "-o"; "StrictHostKeyChecking=accept-new";
   "-o"; "ConnectTimeout=" ++ itoa timeout].

Definition optionArgs (flag : string) (present : bool) (value : string) : list string :=
  if present then [flag; value] else [].

Definition hostArg (cfg : SSHConfig) : string :=
  if negb (User cfg =? "") && negb (ContainsByte (Host cfg) "@"%char)
  then User cfg ++ "@" ++ Host cfg else Host cfg.


(** ** The application: instances, the current one, and its log session

    The part of [App] that the switch protocol reads and writes, in CLI
    mode.  Contexts and channels are named by numbers drawn from a counter;
    a [tea.Cmd] is the name of the closure the source returns, run later by
    the runtime. *)

Inductive FocusedPane : Type := PaneInstances | PaneDetails.

(** [models.ConnectionState], the fields the CLI path writes. *)
Record ConnectionState : Type := mkConnectionState {
  Connected : bool;
  LastError : string;
  GatewayVersion : string
}.

(** The [Gateway] member of the status payload, as [Update] reads it. *)
Record GatewayStatus : Type := mkGatewayStatus {
  Reachable : bool;
  SelfVersion : string;
  GatewayError : option string
}.

Inductive Key : Type := KeyUp | KeyDown | KeyEnter | KeyReconnect.

Inductive Cmd : Type :=
| fetchCLIStatus
| fetchCLIHealth
| startLogFollowing
| waitForCLILog
| scheduleRefresh.

(** One started [logs --follow] subprocess with its two readers: the
    adapter it was started for, its command, the context handed to
    [FollowLogs], the context [FollowLogs] derived from it for
    [exec.CommandContext], and the channel the readers send on. *)
Record Session : Type := mkSession {
  sessAdapter : nat;
  sessCommand : Command;
  sessParent : nat;
  sessCtx : nat;
  sessChan : nat
}.

(** What lives outside the [App] struct: the counter for fresh contexts
    and channels, the contexts cancelled so far, the subprocesses started
    so far, and the channels a drain goroutine ranges over. *)
Record Runtime : Type := mkRuntime {
  nextId : nat;
  cancelled : list nat;
  sessions : list Session;
  drained : list nat
}.

Definition is_cancelled (rt : Runtime) (ctx : nat) : bool :=
  existsb (Nat.eqb ctx) (cancelled rt).

(** [exec.CommandContext] kills the process once its context is done,
    and a derived context is done once its parent is: a session's
    subprocess is alive while neither context has been cancelled. *)
Definition running (rt : Runtime) (s : Session) : bool :=
  negb (is_cancelled rt (sessCtx s)) && negb (is_cancelled rt (sessParent s)).

(** The follow sessions active for the instance of index [i]. *)
Definition activeSessions (rt : Runtime) (i : nat) : list Session :=
  filter (fun s => running rt s && (sessAdapter s =? i)%nat) (sessions rt).

Definition cancel (ctx : nat) (rt : Runtime) : Runtime :=
  mkRuntime (nextId rt) (ctx :: cancelled rt) (sessions rt) (drained rt).

Definition drain (ch : nat) (rt : Runtime) : Runtime :=
  mkRuntime (nextId rt) (cancelled rt) (sessions rt) (ch :: drained rt).

Section App.

Context {OpenClawStatus : Type}.
Context {HealthCheckResult : Type}.

(** [status.Gateway], [None] for a nil pointer. *)
Variable Gateway : OpenClawStatus -> option GatewayStatus.

Variable cmd_Output : Command -> ExecResult.
Variable status_unmarshal : string -> result OpenClawStatus.

(** [adapter.GetHealthSnapshot()], which is not part of the adapter's
    file at hand: the adapter after the call and the returned pair. *)
Variable GetHealthSnapshot :
  CLIAdapter OpenClawStatus ->
  CLIAdapter OpenClawStatus * result HealthCheckResult.

(** How launching a command turns out, at the time of the call. *)
Variable cmd_Start : Command -> LaunchResult.

Inductive Msg : Type :=
| KeyMsg (k : Key)
| CLIStatusMsg (status : option OpenClawStatus) (err : option error)
| CLIHealthMsg (res : option HealthCheckResult) (err : option error)
| CLILogMsg (event : LogEvent)
| RefreshTickMsg.

(** What running a [tea.Cmd] comes to: it returns a message ([None] for
    [nil]), or it blocks in the [select] over a channel and a context. *)
Inductive Outcome : Type :=
| Returned (m : option Msg)
| Waiting (chan ctx : option nat).

Record App : Type := mkApp {
  focusedPane : FocusedPane;
  selectedInstance : Z;
  cliAdapters : list (CLIAdapter OpenClawStatus);
  connectionState : ConnectionState;
  logs : list LogEvent;
  healthCheckResult : option HealthCheckResult;
  openclawStatus : option OpenClawStatus;
  logChan : option nat;
  logCtx : option nat;
  logCancel : option nat;
  logFollowing : bool;
  LogTailLines : Z;     (* a.config.UI.LogTailLines *)
  runtime : Runtime
}.

Definition set_focusedPane (p : FocusedPane) (a : App) : App :=
  mkApp p (selectedInstance a) (cliAdapters a) (connectionState a) (logs a)
    (healthCheckResult a) (openclawStatus a) (logChan a) (logCtx a)
    (logCancel a) (logFollowing a) (LogTailLines a) (runtime a).

Definition set_selectedInstance (i : Z) (a : App) : App :=
  mkApp (focusedPane a) i (cliAdapters a) (connectionState a) (logs a)
    (healthCheckResult a) (openclawStatus a) (logChan a) (logCtx a)
    (logCancel a) (logFollowing a) (LogTailLines a) (runtime a).

Definition set_cliAdapters (l : list (CLIAdapter OpenClawStatus)) (a : App) : App :=
  mkApp (focusedPane a) (selectedInstance a) l (connectionState a) (logs a)
    (healthCheckResult a) (openclawStatus a) (logChan a) (logCtx a)
    (logCancel a) (logFollowing a) (LogTailLines a) (runtime a).

Definition set_connectionState (s : ConnectionState) (a : App) : App :=
  mkApp (focusedPane a) (selectedInstance a) (cliAdapters a) s (logs a)
    (healthCheckResult a) (openclawStatus a) (logChan a) (logCtx a)
    (logCancel a) (logFollowing a) (LogTailLines a) (runtime a).

Definition set_logs (l : list LogEvent) (a : App) : App :=
  mkApp (focusedPane a) (selectedInstance a) (cliAdapters a)
    (connectionState a) l (healthCheckResult a) (openclawStatus a)
    (logChan a) (logCtx a) (logCancel a) (logFollowing a) (LogTailLines a)
    (runtime a).

Definition set_healthCheckResult (h : option HealthCheckResult) (a : App) : App :=
  mkApp (focusedPane a) (selectedInstance a) (cliAdapters a)
    (connectionState a) (logs a) h (openclawStatus a) (logChan a) (logCtx a)
    (logCancel a) (logFollowing a) (LogTailLines a) (runtime a).

Definition set_openclawStatus (s : option OpenClawStatus) (a : App) : App :=
  mkApp (focusedPane a) (selectedInstance a) (cliAdapters a)
    (connectionState a) (logs a) (healthCheckResult a) s (logChan a)
    (logCtx a) (logCancel a) (logFollowing a) (LogTailLines a) (runtime a).

(** [a.logChan = make(...)] and
    [a.logCtx, a.logCancel = context.WithCancel(...)]. *)
Definition set_logStream (ch ctx : nat) (a : App) : App :=
  mkApp (focusedPane a) (selectedInstance a) (cliAdapters a)
    (connectionState a) (logs a) (healthCheckResult a) (openclawStatus a)
    (Some ch) (Some ctx) (Some ctx) (logFollowing a) (LogTailLines a)
    (runtime a).

Definition set_logFollowing (b : bool) (a : App) : App :=
  mkApp (focusedPane a) (selectedInstance a) (cliAdapters a)
    (connectionState a) (logs a) (healthCheckResult a) (openclawStatus a)
    (logChan a) (logCtx a) (logCancel a) b (LogTailLines a) (runtime a).

Definition set_runtime (rt : Runtime) (a : App) : App :=
  mkApp (focusedPane a) (selectedInstance a) (cliAdapters a)
    (connectionState a) (logs a) (healthCheckResult a) (openclawStatus a)
    (logChan a) (logCtx a) (logCancel a) (logFollowing a) (LogTailLines a)
    rt.

(** The index [getCurrentAdapter] reads, [None] when it returns nil. *)
Definition currentIndex (a : App) : option nat :=
  let n := Z.of_nat (List.length (cliAdapters a)) in
  if (n =? 0)%Z then None
  else if (selectedInstance a <? 0)%Z || (n <=? selectedInstance a)%Z
       then Some 0%nat
       else Some (Z.to_nat (selectedInstance a)).

Definition getCurrentAdapter (a : App) : option (CLIAdapter OpenClawStatus) :=
  match currentIndex a with
  | Some i => nth_error (cliAdapters a) i
  | None => None
  end.

(** The adapters are held by pointer: a method that writes its receiver
    writes the element of the slice. *)
Fixpoint store {A : Type} (i : nat) (x : A) (l : list A) : list A :=
  match l, i with
  | [], _ => []
  | _ :: l', O => x :: l'
  | y :: l', S i' => y :: store i' x l'
  end.

(** [FollowLogs] on the adapter of index [i], with the context and the
    channel it is given: the derived context and the command are stored
    in the adapter before the pipes are requested; once the command has
    started, the subprocess and its readers exist. *)
Definition FollowLogs (i : nat) (c : CLIAdapter OpenClawStatus)
    (ctx logChan : nat) (rt : Runtime)
    : CLIAdapter OpenClawStatus * Runtime * option error :=
  let child := nextId rt in
  let cmd := followCommand c in
  let c := set_follow cmd child c in
  let rt := mkRuntime (S (nextId rt)) (cancelled rt) (sessions rt) (drained rt) in
  match cmd_Start cmd with
  | Started =>
      let s := mkSession i cmd ctx child logChan in
      (c, mkRuntime (nextId rt) (cancelled rt) (sessions rt ++ [s])%list (drained rt),
       None)
  | r => (c, rt, followError r)
  end.

(** [StopFollowingLogs]. *)
Definition StopFollowingLogs (c : CLIAdapter OpenClawStatus) (rt : Runtime) : Runtime :=
  match adapterLogCancel c with
  | Some ctx => cancel ctx rt
  | None => rt
  end.

(** [stopLogFollowing]. *)
Definition stopLogFollowing (a : App) : App :=
  let rt := runtime a in
  let rt := match logCancel a with
            | Some ctx => cancel ctx rt
            | None => rt
            end in
  let a := set_logFollowing false a in
  let rt := match logChan a with
            | Some ch => drain ch rt
            | None => rt
            end in
  set_runtime rt a.

(** [switchInstance]: the application after the call and the commands
    appended to [cmds]. *)
Definition switchInstance (a : App) : App * list Cmd :=
  let a := set_openclawStatus None a in
  let a := set_healthCheckResult None a in
  let a := set_logs [] a in
  let a := stopLogFollowing a in
  (a, [fetchCLIStatus; fetchCLIHealth; startLogFollowing]).

(** The body of the closure [startLogFollowing] returns, up to its
    [select]. *)
Definition run_startLogFollowing (now : Time) (a : App) : App * Outcome :=
  match currentIndex a, getCurrentAdapter a with
  | Some i, Some adapter =>
      let rt := runtime a in
      let ch := nextId rt in
      let ctx := S (nextId rt) in
      let rt := mkRuntime (S (S (nextId rt))) (cancelled rt) (sessions rt) (drained rt) in
      let a := set_logStream ch ctx a in
      match FollowLogs i adapter ctx ch rt with
      | (adapter, rt, Some err) =>
          let a := set_runtime rt (set_cliAdapters (store i adapter (cliAdapters a)) a) in
          (a, Returned (Some (CLILogMsg
                 (mkLogEvent now "warn" "lazyclaw"
                    ("Could not start log following: " ++ err) ""))))
      | (adapter, rt, None) =>
          let a := set_runtime rt (set_cliAdapters (store i adapter (cliAdapters a)) a) in
          let a := set_logFollowing true a in
          (a, Waiting (logChan a) (logCtx a))
      end
  | _, _ => (a, Returned None)
  end.

Definition run_waitForCLILog (a : App) : App * Outcome :=
  match logChan a with
  | None => (a, Returned None)
  | Some _ => (a, Waiting (logChan a) (logCtx a))
  end.

Definition run_fetchCLIStatus (now : Time) (a : App) : App * Outcome :=
  match currentIndex a, getCurrentAdapter a with
  | Some i, Some adapter =>
      match GetFullStatus cmd_Output status_unmarshal now adapter with
      | (adapter, Ok status) =>
          (set_cliAdapters (store i adapter (cliAdapters a)) a,
           Returned (Some (CLIStatusMsg (Some status) None)))
      | (adapter, Err err) =>
          (set_cliAdapters (store i adapter (cliAdapters a)) a,
           Returned (Some (CLIStatusMsg None (Some err))))
      end
  | _, _ => (a, Returned (Some (CLIStatusMsg None (Some "CLI adapter not initialized"))))
  end.

Definition run_fetchCLIHealth (a : App) : App * Outcome :=
  match currentIndex a, getCurrentAdapter a with
  | Some i, Some adapter =>
      match GetHealthSnapshot adapter with
      | (adapter, Ok res) =>
          (set_cliAdapters (store i adapter (cliAdapters a)) a,
           Returned (Some (CLIHealthMsg (Some res) None)))
      | (adapter, Err err) =>
          (set_cliAdapters (store i adapter (cliAdapters a)) a,
           Returned (Some (CLIHealthMsg None (Some err))))
      end
  | _, _ => (a, Returned (Some (CLIHealthMsg None (Some "CLI adapter not initialized"))))
  end.

(** Running a command. *)
Definition run (now : Time) (c : Cmd) (a : App) : App * Outcome :=
  match c with
  | fetchCLIStatus => run_fetchCLIStatus now a
  | fetchCLIHealth => run_fetchCLIHealth a
  | startLogFollowing => run_startLogFollowing now a
  | waitForCLILog => run_waitForCLILog a
  | scheduleRefresh => (a, Returned (Some RefreshTickMsg))
  end.

(** Running the commands of a batch one after the other. *)
Fixpoint run_all (now : Time) (cmds : list Cmd) (a : App) : App * list Outcome :=
  match cmds with
  | [] => (a, [])
  | c :: cmds' =>
      let '(a, o) := run now c a in
      let '(a, os) := run_all now cmds' a in
      (a, o :: os)
  end.

(** [a.logs = append(a.logs, msg.Event)] and the trim to
    [LogTailLines]. *)
Definition appendLog (event : LogEvent) (a : App) : App :=
  let l := (logs a ++ [event])%list in
  let l := if (LogTailLines a <? Z.of_nat (List.length l))%Z then tl l else l in
  set_logs l a.

(** [Update], for the keys of the instance pane in normal mode and the
    messages of the CLI path. *)
Definition Update (msg : Msg) (a : App) : App * list Cmd :=
  match msg with
  | KeyMsg KeyReconnect =>
      match getCurrentAdapter a with
      | Some _ =>
          let a := stopLogFollowing a in
          (a, [fetchCLIStatus; fetchCLIHealth; startLogFollowing])
      | None => (a, [])
      end
  | KeyMsg KeyUp =>
      match focusedPane a with
      | PaneInstances =>
          if (1 <? Z.of_nat (List.length (cliAdapters a)))%Z
             && (0 <? selectedInstance a)%Z
          then switchInstance (set_selectedInstance (selectedInstance a - 1) a)
          else (a, [])
      | PaneDetails => (a, [])
      end
  | KeyMsg KeyDown =>
      match focusedPane a with
      | PaneInstances =>
          if (1 <? Z.of_nat (List.length (cliAdapters a)))%Z
             && (selectedInstance a <? Z.of_nat (List.length (cliAdapters a)) - 1)%Z
          then switchInstance (set_selectedInstance (selectedInstance a + 1) a)
          else (a, [])
      | PaneDetails => (a, [])
      end
  | KeyMsg KeyEnter =>
      match focusedPane a with
      | PaneInstances =>
          (set_focusedPane PaneDetails a, [fetchCLIStatus; fetchCLIHealth])
      | PaneDetails => (a, [])
      end
  | CLIStatusMsg status err =>
      match err, status with
      | Some e, _ =>
          let cs := connectionState a in
          (set_connectionState (mkConnectionState false e (GatewayVersion cs)) a, [])
      | None, Some st =>
          let a := set_openclawStatus (Some st) a in
          match Gateway st with
          | Some g =>
              let cs := connectionState a in
              let version :=
                if negb (SelfVersion g =? "") then SelfVersion g
                else GatewayVersion cs in
              let lastErr :=
                match GatewayError g with Some e => e | None => "" end in
              (set_connectionState (mkConnectionState (Reachable g) lastErr version) a, [])
          | None => (a, [])
          end
      | None, None => (a, [])
      end
  | CLIHealthMsg res err =>
      match err with
      | None => (set_healthCheckResult res a, [])
      | Some _ => (a, [])
      end
  | CLILogMsg event =>
      let a := appendLog event a in
      if logFollowing a then (a, [waitForCLILog]) else (a, [])
  | RefreshTickMsg =>
      match getCurrentAdapter a with
      | Some _ => (a, [fetchCLIStatus; scheduleRefresh])
      | None => (a, [scheduleRefresh])
      end
  end.

(** The instance switch of the coordinator, as the arrow keys perform
    it: the selection moves to [i], then [switchInstance] runs. *)
Definition switchTo (i : nat) (a : App) : App * list Cmd :=
  switchInstance (set_selectedInstance (Z.of_nat i) a).

(** [Init] in CLI mode, the adapters built: the first batch. *)
Definition Init (a : App) : App * list Cmd :=
  (a, [fetchCLIStatus; fetchCLIHealth; startLogFollowing; scheduleRefresh]).

(** A message handled with the commands it returns run at once, in
    order, before the next message. *)
Definition handle (now : Time) (msg : Msg) (a : App) : App :=
  let '(a, cmds) := Update msg a in
  fst (run_all now cmds a).

(** What the switch protocol maintains when every start runs before the
    next stop: a running session hangs on the context whose cancel
    function the application holds, no two sessions hang on the same
    context, and contexts are drawn from the counter. *)
Definition session_invariant (a : App) : Prop :=
  (forall s, In s (sessions (runtime a)) -> running (runtime a) s = true ->
             logCancel a = Some (sessParent s))
  /\ NoDup (map sessParent (sessions (runtime a)))
  /\ (forall s, In s (sessions (runtime a)) ->
                (sessParent s < nextId (runtime a))%nat).

(** No session is running. *)
Definition quiet (a : App) : Prop :=
  forall s, In s (sessions (runtime a)) -> running (runtime a) s = false.

End App.

Arguments App : clear implicits.
Arguments Msg : clear implicits.
Arguments Outcome : clear implicits.


(** ** One follow session, step by step

    The goroutines of one [FollowLogs] call and the closure waiting on
    its channel, interleaved.  A [select] whose cases are ready takes any
    one of them; a send on the buffered channel is ready while the buffer
    has room; [<-ctx.Done()] is ready once the context is cancelled.
    A line the scanner has taken in is still yielded after the process
    has been killed; the scanner reports the end of input after the last
    of them. *)

Section FollowSession.

Variable json_unmarshal : string -> option JsonLog.
Variable time_parse_rfc3339 : string -> option Time.

(** The capacity of [make(chan models.LogEvent, 100)]. *)
Definition logChanCap : nat := 100.

Record FollowState : Type := mkFollowState {
  ctxDone : bool;               (* the session's context is cancelled *)
  procAlive : bool;             (* the subprocess has not been killed *)
  stdoutLines : list string;    (* output the stdout scanner has yet to yield *)
  stderrLines : list string;    (* the same for stderr *)
  stdoutReader : bool;          (* the stdout goroutine has not returned *)
  stderrReader : bool;          (* the stderr goroutine has not returned *)
  chanBuf : list LogEvent;      (* the queue of logChan *)
  waiter : bool;                (* a closure is blocked in its select on logChan *)
  drainer : bool;               (* a drain goroutine ranges over logChan *)
  sent : list LogEvent;         (* every event sent on logChan so far *)
  delivered : list LogEvent     (* every event returned as a CLILogMsg so far *)
}.

(** The session right after [FollowLogs] returned nil and the caller
    reached its [select]. *)
Definition startedSession : FollowState :=
  mkFollowState false true [] [] true true [] true false [] [].

(** Cancelling the session's context: [exec.CommandContext] kills the
    process. *)
Definition stop (s : FollowState) : FollowState :=
  mkFollowState true false (stdoutLines s) (stderrLines s) (stdoutReader s)
    (stderrReader s) (chanBuf s) (waiter s) (drainer s) (sent s) (delivered s).

(** [stopLogFollowing] on the session: the cancellation, and the drain
    goroutine. *)
Definition stopAndDrain (s : FollowState) : FollowState :=
  let s := stop s in
  mkFollowState (ctxDone s) (procAlive s) (stdoutLines s) (stderrLines s)
    (stdoutReader s) (stderrReader s) (chanBuf s) (waiter s) true (sent s)
    (delivered s).

Definition stderrEvent (now : Time) (line : string) : LogEvent :=
  mkLogEvent now "error" "openclaw-cli" line line.

Inductive follow_step : FollowState -> FollowState -> Prop :=
(* the subprocess writes a line *)
| proc_stdout s line :
    procAlive s = true ->
    follow_step s
      (mkFollowState (ctxDone s) (procAlive s) (stdoutLines s ++ [line])%list
         (stderrLines s) (stdoutReader s) (stderrReader s) (chanBuf s)
         (waiter s) (drainer s) (sent s) (delivered s))
| proc_stderr s line :
    procAlive s = true ->
    follow_step s
      (mkFollowState (ctxDone s) (procAlive s) (stdoutLines s)
         (stderrLines s ++ [line])%list (stdoutReader s) (stderrReader s)
         (chanBuf s) (waiter s) (drainer s) (sent s) (delivered s))
(* the stdout goroutine: an empty line is skipped *)
| stdout_skip s rest :
    stdoutReader s = true -> stdoutLines s = "" :: rest ->
    follow_step s
      (mkFollowState (ctxDone s) (procAlive s) rest (stderrLines s)
         (stdoutReader s) (stderrReader s) (chanBuf s) (waiter s) (drainer s)
         (sent s) (delivered s))
(* the stdout goroutine: case logChan <- event *)
| stdout_send s now line rest :
    stdoutReader s = true -> stdoutLines s = line :: rest -> line <> "" ->
    (List.length (chanBuf s) < logChanCap)%nat ->
    let event := parseLogLine json_unmarshal time_parse_rfc3339 now line in
    follow_step s
      (mkFollowState (ctxDone s) (procAlive s) rest (stderrLines s)
         (stdoutReader s) (stderrReader s) (chanBuf s ++ [event])%list
         (waiter s) (drainer s) (sent s ++ [event])%list (delivered s))
(* the stdout goroutine: case <-ctx.Done() *)
| stdout_done s line rest :
    stdoutReader s = true -> stdoutLines s = line :: rest -> line <> "" ->
    ctxDone s = true ->
    follow_step s
      (mkFollowState (ctxDone s) (procAlive s) rest (stderrLines s)
         false (stderrReader s) (chanBuf s) (waiter s) (drainer s)
         (sent s) (delivered s))
(* the stdout goroutine: scanner.Scan() reports the end of input *)
| stdout_eof s :
    stdoutReader s = true -> stdoutLines s = [] -> procAlive s = false ->
    follow_step s
      (mkFollowState (ctxDone s) (procAlive s) [] (stderrLines s)
         false (stderrReader s) (chanBuf s) (waiter s) (drainer s)
         (sent s) (delivered s))
(* the stderr goroutine, likewise *)
| stderr_skip s rest :
    stderrReader s = true -> stderrLines s = "" :: rest ->
    follow_step s
      (mkFollowState (ctxDone s) (procAlive s) (stdoutLines s) rest
         (stdoutReader s) (stderrReader s) (chanBuf s) (waiter s) (drainer s)
         (sent s) (delivered s))
| stderr_send s now line rest :
    stderrReader s = true -> stderrLines s = line :: rest -> line <> "" ->
    (List.length (chanBuf s) < logChanCap)%nat ->
    let event := stderrEvent now line in
    follow_step s
      (mkFollowState (ctxDone s) (procAlive s) (stdoutLines s) rest
         (stdoutReader s) (stderrReader s) (chanBuf s ++ [event])%list
         (waiter s) (drainer s) (sent s ++ [event])%list (delivered s))
| stderr_done s line rest :
    stderrReader s = true -> stderrLines s = line :: rest -> line <> "" ->
    ctxDone s = true ->
    follow_step s
      (mkFollowState (ctxDone s) (procAlive s) (stdoutLines s) rest
         (stdoutReader s) false (chanBuf s) (waiter s) (drainer s)
         (sent s) (delivered s))
| stderr_eof s :
    stderrReader s = true -> stderrLines s = [] -> procAlive s = false ->
    follow_step s
      (mkFollowState (ctxDone s) (procAlive s) (stdoutLines s) []
         (stdoutReader s) false (chanBuf s) (waiter s) (drainer s)
         (sent s) (delivered s))
(* the waiting closure: case event, ok := <-a.logChan *)
| wait_receive s event rest :
    waiter s = true -> chanBuf s = event :: rest ->
    follow_step s
      (mkFollowState (ctxDone s) (procAlive s) (stdoutLines s) (stderrLines s)
         (stdoutReader s) (stderrReader s) rest false (drainer s)
         (sent s) (delivered s ++ [event])%list)
(* the waiting closure: case <-a.logCtx.Done() *)
| wait_done s :
    waiter s = true -> ctxDone s = true ->
    follow_step s
      (mkFollowState (ctxDone s) (procAlive s) (stdoutLines s) (stderrLines s)
         (stdoutReader s) (stderrReader s) (chanBuf s) false (drainer s)
         (sent s) (delivered s))
(* the drain goroutine: for range a.logChan *)
| drain_receive s event rest :
    drainer s = true -> chanBuf s = event :: rest ->
    follow_step s
      (mkFollowState (ctxDone s) (procAlive s) (stdoutLines s) (stderrLines s)
         (stdoutReader s) (stderrReader s) rest (waiter s) (drainer s)
         (sent s) (delivered s)).

(** Finitely many steps. *)
Inductive follow_steps : FollowState -> FollowState -> Prop :=
| steps_refl s : follow_steps s s
| steps_cons s1 s2 s3 :
    follow_step s1 s2 -> follow_steps s2 s3 -> follow_steps s1 s3.

End FollowSession.


(** ** A configuration to run the definitions on

    Two instances: a local one, and a remote one reached through a jump
    host.  The status payload is kept as its text; a payload decodes when
    it is an object.  Commands over [ssh] answer with a status document,
    the local [openclaw] fails, any other binary answers with a warning;
    every launch succeeds. *)

Module Scenario.

Definition Status : Type := string.
Definition Health : Type := string.

Definition status_unmarshal (output : string) : result Status :=
  if prefix "{" output then Ok output
  else Err "invalid character looking for beginning of value".

Definition gatewayOf (s : Status) : option GatewayStatus := None.

Definition sshConfig : SSHConfig :=
  mkSSHConfig "gw.example.org" 2222 "ops" "/home/ops/.ssh/id_ed25519"
    "bastion.example.org" 0 "".

Definition localAdapter : CLIAdapter Status :=
  mkCLIAdapter "" None "laptop" None 0%Z None None None.

Definition remoteAdapter : CLIAdapter Status :=
  NewSSHCLIAdapter "prod" sshConfig "/opt/openclaw/bin/openclaw".

Definition statusDocument : string :=
  "{" ++ dquote ++ "gateway" ++ dquote ++ ":{" ++ dquote ++ "reachable"
      ++ dquote ++ ":true}}".

(** A local instance whose binary answers with text that is not JSON. *)
Definition wrappedAdapter : CLIAdapter Status :=
  mkCLIAdapter "/usr/local/bin/oc" None "wrapped" None 0%Z None None None.

Definition cmd_Output (cmd : Command) : ExecResult :=
  if prog cmd =? "ssh" then Output (statusDocument ++ bytes [10])
  else if prog cmd =? "openclaw"
       then ExitError "openclaw: gateway not running" 1
       else Output "warning: no config file".

Definition GetHealthSnapshot (c : CLIAdapter Status)
    : CLIAdapter Status * result Health :=
  (c, Err "health check not available").

Definition cmd_Start (cmd : Command) : LaunchResult := Started.

(** A host on which the binary is not installed. *)
Definition cmd_Start_missing (cmd : Command) : LaunchResult :=
  StartError ("exec: " ++ dquote ++ prog cmd ++ dquote
              ++ ": executable file not found in $PATH").

(** The application before any command has run. *)
Definition app0 : App Status Health :=
  mkApp PaneInstances 0 [localAdapter; remoteAdapter]
    (mkConnectionState false "" "") [] None None None None None false 500
    (mkRuntime 0 [] [] []).

Definition exec : Time -> Cmd -> App Status Health
                  -> App Status Health * Outcome Status Health :=
  run cmd_Output status_unmarshal GetHealthSnapshot cmd_Start.

Definition execAll : Time -> list Cmd -> App Status Health
                     -> App Status Health * list (Outcome Status Health) :=
  run_all cmd_Output status_unmarshal GetHealthSnapshot cmd_Start.

Definition update : Msg Status Health -> App Status Health
                    -> App Status Health * list Cmd :=
  Update gatewayOf.

End Scenario.

(** ** The helpers of the rendering code

    [len] is the length in bytes.  A slice expression out of range
    panics; a function that can panic returns [None] when it does. *)

Definition len (s : string) : Z := Z.of_nat (String.length s).

(** [s[:hi]] and [s[lo:]]. *)
Definition slice_to (s : string) (hi : Z) : option string :=
  if (0 <=? hi)%Z && (hi <=? len s)%Z
  then Some (substring 0 (Z.to_nat hi) s) else None.

Definition slice_off (s : string) (lo : Z) : option string :=
  if (0 <=? lo)%Z && (lo <=? len s)%Z
  then Some (substring (Z.to_nat lo) (String.length s - Z.to_nat lo) s)
  else None.

(** [truncate]. *)
Definition truncate (s : string) (maxLen : Z) : option string :=
  if (len s <=? maxLen)%Z then Some s
  else if (maxLen <=? 3)%Z then slice_to s maxLen
  else match slice_to s (maxLen - 3) with
       | Some p => Some (p ++ "...")
       | None => None
       end.

(** [truncatePath]. *)
Definition truncatePath (path : string) (maxLen : Z) : option string :=
  if (len path <=? maxLen)%Z then Some path
  else if (maxLen <=? 6)%Z then slice_off path (len path - maxLen)
  else match slice_off path (len path - maxLen + 3) with
       | Some p => Some ("..." ++ p)
       | None => None
       end.

(** The loop of [containsImpl], from index [i], with [n] iterations
    left. *)
Fixpoint containsImpl_loop (s substr : string) (i n : nat) : bool :=
  match n with
  | O => false
  | S n' =>
      if slice s i (i + String.length substr) =? substr then true
      else containsImpl_loop s substr (S i) n'
  end.

(** [containsImpl]: the loop runs for [i] from 0 to
    [len(s)-len(substr)], not at all when that is negative. *)
Definition containsImpl (s substr : string) : bool :=
  if (String.length s <? String.length substr)%nat then false
  else containsImpl_loop s substr 0
         (String.length s - String.length substr + 1).

(** [contains]. *)
Definition contains (s substr : string) : bool :=
  (String.length substr <=? String.length s)%nat
  && ((s =? substr)
      || (negb (String.length s =? 0)%nat && containsImpl s substr)).

(** The separators of [splitWords]: space, newline, tab. *)
Definition word_sep (r : ascii) : bool :=
  let n := nat_of_ascii r in
  (n =? 32)%nat || (n =? 10)%nat || (n =? 9)%nat.

(** The loop of [splitWords].  The source ranges over the runes of the
    text and appends each to the current word; on valid UTF-8 text that
    is the bytes one by one, the separators being ASCII. *)
Fixpoint splitWords_loop (text current : string) (words : list string)
    : list string :=
  match text with
  | EmptyString =>
      if negb (current =? "") then (words ++ [current])%list else words
  | String r text' =>
      if word_sep r then
        if negb (current =? "")
        then splitWords_loop text' "" (words ++ [current])%list
        else splitWords_loop text' current words
      else splitWords_loop text' (current ++ String r "") words
  end.

Definition splitWords (text : string) : list string :=
  splitWords_loop text "" [].

(** The loop of [wrapText]. *)
Fixpoint wrapText_loop (words : list string) (maxWidth : Z)
    (currentLine : string) (lines : list string) : list string :=
  match words with
  | [] =>
      if negb (currentLine =? "") then (lines ++ [currentLine])%list else lines
  | word :: words' =>
      if currentLine =? "" then wrapText_loop words' maxWidth word lines
      else if (len currentLine + 1 + len word <=? maxWidth)%Z
           then wrapText_loop words' maxWidth (currentLine ++ " " ++ word) lines
           else wrapText_loop words' maxWidth word (lines ++ [currentLine])%list
  end.

Definition wrapText (text : string) (maxWidth : Z) : list string :=
  if (maxWidth <=? 0)%Z then [text]
  else wrapText_loop (splitWords text) maxWidth "" [].

(** The loop of [joinWithSeparator], [i] being the index of the item. *)
Fixpoint joinWithSeparator_loop (items : list string) (sep : string)
    (first : bool) (result : list string) : list string :=
  match items with
  | [] => result
  | item :: items' =>
      let result := if first then result else (result ++ [sep])%list in
      joinWithSeparator_loop items' sep false (result ++ [item])%list
  end.

(** [joinWithSeparator]: [make([]string, 0, len(items)*2-1)] panics on
    an empty list, the capacity being negative. *)
Definition joinWithSeparator (items : list string) (sep : string)
    : option (list string) :=
  match items with
  | [] => None
  | _ => Some (joinWithSeparator_loop items sep true [])
  end.

(** [formatScopes]. *)
Fixpoint formatScopes_loop (scopes : list string) (first : bool)
    (result : string) : string :=
  match scopes with
  | [] => result
  | s :: scopes' =>
      let result := if first then result else result ++ ", " in
      formatScopes_loop scopes' false (result ++ s)
  end.

Definition formatScopes (scopes : list string) : string :=
  match scopes with
  | [] => "none"
  | _ => formatScopes_loop scopes true ""
  end.

(** A word: not empty, and without separator. *)
Fixpoint no_sep (w : string) : bool :=
  match w with
  | EmptyString => true
  | String c w' => negb (word_sep c) && no_sep w'
  end.

Definition is_word (w : string) : bool := negb (w =? "") && no_sep w.

Definition word_prop (w : string) : Prop :=
  w <> "" /\ forall c, word_sep c = true -> IndexByte w c = None.

(** The elements at the even positions of a list. *)
Fixpoint evens {A : Type} (l : list A) : list A :=
  match l with
  | [] => []
  | [x] => [x]
  | x :: _ :: l' => x :: evens l'
  end.

(** ** How a shell reads a command line

    The rules of the shell command language, for the command lines built
    here.  A blank ends a word.  Between single quotes every byte stands
    for itself, up to the next single quote; outside them a backslash
    makes the next byte stand for itself.  Of the other bytes, letters,
    digits and [-_./] are read as they are in every word, and [:@+,%]
    and [=] in the words after the first.  The first word is in command
    position: there a word with an [=] outside quotes is an assignment
    and a reserved word written without quotes opens a compound command,
    so that neither is the name of the command.  Such a line, any other
    byte outside quotes and a backslash before a newline are outside
    these rules, and the line is not read ([None]). *)

Record ShState : Type := mkShState {
  shQuoted : bool;             (* between single quotes *)
  shEscaped : bool;            (* after a backslash *)
  shBare : bool;               (* no part of the word being read was quoted *)
  shWord : option string;      (* the word being read, if one has begun *)
  shWords : list string        (* the words read *)
}.

(** The bytes read as they are in every word. *)
Definition sh_name (c : ascii) : bool :=
  let n := nat_of_ascii c in
  ((48 <=? n)%nat && (n <=? 57)%nat)         (* 0-9 *)
  || ((65 <=? n)%nat && (n <=? 90)%nat)      (* A-Z *)
  || ((97 <=? n)%nat && (n <=? 122)%nat)     (* a-z *)
  || (n =? 45)%nat || (n =? 95)%nat || (n =? 46)%nat || (n =? 47)%nat.

(** The bytes that mean nothing to a shell in any position. *)
Definition sh_plain (c : ascii) : bool :=
  let n := nat_of_ascii c in
  sh_name c
  || (n =? 58)%nat || (n =? 64)%nat || (n =? 43)%nat
  || (n =? 44)%nat || (n =? 37)%nat.

(** The bytes read as they are in an argument: after the first word an
    [=] is one of them. *)
Definition sh_arg (c : ascii) : bool :=
  sh_plain c || (nat_of_ascii c =? 61)%nat.

Definition sh_reserved (w : string) : bool :=
  existsb (String.eqb w)
    ["if"; "then"; "else"; "elif"; "fi"; "case"; "esac"; "for"; "select";
     "while"; "until"; "do"; "done"; "in"; "function"; "time"; "coproc"].




(** The word being read, or the empty word when none has begun. *)
Definition word_or_empty (cur : option string) : string :=
  match cur with Some s => s | None => "" end.

Definition sh_push (c : ascii) (w : option string) : option string :=
  match w with
  | Some s => Some (s ++ String c "")
  | None => Some (String c "")
  end.

(** The words read once the word being read ends. *)
Definition sh_end_word (st : ShState) : option (list string) :=
  match shWord st with
  | Some w =>
      match shWords st with
      | [] => if shBare st && sh_reserved w then None else Some [w]
      | ws => Some (ws ++ [w])%list
      end
  | None => Some (shWords st)
  end.

Definition sh_step (st : ShState) (c : ascii) : option ShState :=
  let n := nat_of_ascii c in
  if shQuoted st then
    if (n =? 39)%nat
    then Some (mkShState false false false (shWord st) (shWords st))
    else Some (mkShState true false false (sh_push c (shWord st)) (shWords st))
  else if shEscaped st then
    if (n =? 10)%nat then None
    else Some (mkShState false false false (sh_push c (shWord st)) (shWords st))
  else if (n =? 39)%nat then
    Some (mkShState true false false (Some (word_or_empty (shWord st))) (shWords st))
  else if (n =? 92)%nat then
    Some (mkShState false true false (shWord st) (shWords st))
  else if (n =? 32)%nat || (n =? 9)%nat then
    match sh_end_word st with
    | Some ws => Some (mkShState false false true None ws)
    | None => None
    end
  else if match shWords st with [] => sh_name c | _ => sh_arg c end then
    Some (mkShState false false (shBare st) (sh_push c (shWord st)) (shWords st))
  else None.

Fixpoint sh_run (s : string) (st : ShState) : option ShState :=
  match s with
  | EmptyString => Some st
  | String c s' =>
      match sh_step st c with
      | Some st' => sh_run s' st'
      | None => None
      end
  end.

(** The words of a command line, the first being the command. *)
Definition sh_words (s : string) : option (list string) :=
  match sh_run s (mkShState false false true None []) with
  | Some st =>
      if shQuoted st || shEscaped st then None else sh_end_word st
  | None => None
  end.



(** ** A series of status calls on one adapter

    Each call of [GetFullStatus] comes with the outcome of the commands
    at its time and with its reading of the clock. *)
Section Polling.

Context {OpenClawStatus : Type}.
Variable status_unmarshal : string -> result OpenClawStatus.

Fixpoint poll (calls : list ((Command -> ExecResult) * Time))
    (c : CLIAdapter OpenClawStatus) : CLIAdapter OpenClawStatus :=
  match calls with
  | [] => c
  | (cmd_Output, now) :: calls' =>
      poll calls' (fst (GetFullStatus cmd_Output status_unmarshal now c))
  end.

End Polling.

(** ** The configuration and the adapters built from it *)

(** [models.ConnectionMode]. *)
Definition ConnectionModeLocal : string := "local".
Definition ConnectionModeSSH : string := "ssh".

(** [models.InstanceProfile]; [instOpenClawCLI] is its [OpenClawCLI]. *)
Record InstanceProfile : Type := mkInstanceProfile {
  Name : string;
  Tags : list string;
  Mode : string;
  SSH : option SSHConfig;
  instOpenClawCLI : string
}.

(** [config.Config], the fields read here; [cfgOpenClawCLI] is its
    [OpenClawCLI]. *)
Record Config : Type := mkConfig {
  Instances : list InstanceProfile;
  RefreshMs : Z;
  cfgLogTailLines : Z;
  cfgOpenClawCLI : string
}.

(** [Config.AddInstance]. *)
Definition AddInstance (instance : InstanceProfile) (c : Config) : Config :=
  mkConfig (Instances c ++ [instance])%list (RefreshMs c) (cfgLogTailLines c)
    (cfgOpenClawCLI c).

(** [Config.GetInstance]: the index of the element the returned pointer
    points to, [None] for [nil]. *)
Fixpoint GetInstance_loop (instances : list InstanceProfile) (name : string)
    (i : nat) : option nat :=
  match instances with
  | [] => None
  | inst :: instances' =>
      if Name inst =? name then Some i
      else GetInstance_loop instances' name (S i)
  end.

Definition GetInstance (c : Config) (name : string) : option nat :=
  GetInstance_loop (Instances c) name 0.

Section Adapters.

Context {OpenClawStatus : Type}.

Local Abbreviation Adapter := (CLIAdapter OpenClawStatus).

Definition set_InstanceName (name : string) (c : Adapter) : Adapter :=
  mkCLIAdapter (BinaryPath c) (SSHConfig_ c) name (lastStatus c)
    (lastFetched c) (lastError c) (logCmd c) (adapterLogCancel c).

Definition set_BinaryPath (path : string) (c : Adapter) : Adapter :=
  mkCLIAdapter path (SSHConfig_ c) (InstanceName c) (lastStatus c)
    (lastFetched c) (lastError c) (logCmd c) (adapterLogCancel c).

(** The body of the loop of [initCLIAdapters]: the adapter of an
    instance, [None] where the loop continues without one. *)
Definition adapterOf (cfg : Config) (inst : InstanceProfile) : option Adapter :=
  if Mode inst =? ConnectionModeSSH then
    match SSH inst with
    | Some ssh =>
        let openclawPath := instOpenClawCLI inst in
        let openclawPath :=
          if (openclawPath =? "") && negb (OpenClawCLI ssh =? "")
          then OpenClawCLI ssh else openclawPath in
        Some (NewSSHCLIAdapter (Name inst) ssh openclawPath)
    | None => None
    end
  else
    let adapter := set_InstanceName (Name inst) NewCLIAdapter in
    Some (if negb (instOpenClawCLI inst =? "")
          then set_BinaryPath (instOpenClawCLI inst) adapter
          else if negb (cfgOpenClawCLI cfg =? "")
               then set_BinaryPath (cfgOpenClawCLI cfg) adapter
               else adapter).

Fixpoint initCLIAdapters_loop (cfg : Config) (instances : list InstanceProfile)
    (cliAdapters : list Adapter) : list Adapter :=
  match instances with
  | [] => cliAdapters
  | inst :: instances' =>
      match adapterOf cfg inst with
      | Some adapter =>
          initCLIAdapters_loop cfg instances' (cliAdapters ++ [adapter])%list
      | None => initCLIAdapters_loop cfg instances' cliAdapters
      end
  end.

(** [initCLIAdapters]: the value of [a.cliAdapters] when it returns. *)
Definition initCLIAdapters (cfg : Config) : list Adapter :=
  match Instances cfg with
  | [] =>
      let adapter := set_InstanceName "Local" NewCLIAdapter in
      [if negb (cfgOpenClawCLI cfg =? "")
       then set_BinaryPath (cfgOpenClawCLI cfg) adapter else adapter]
  | _ =>
      let cliAdapters := initCLIAdapters_loop cfg (Instances cfg) [] in
      match cliAdapters with
      | [] => [set_InstanceName "Local" NewCLIAdapter]
      | _ => cliAdapters
      end
  end.

(** The adapters the loop builds for a list of instances. *)
Definition adaptersOf (cfg : Config) (instances : list InstanceProfile) : list Adapter :=
  flat_map (fun inst => match adapterOf cfg inst with
                        | Some a => [a]
                        | None => []
                        end) instances.

End Adapters.

(** The instance name [GetState] saves for a selection. *)
Definition GetState_SelectedInstance (cfg : Config) (selectedInstance : Z) : string :=
  if (0 <=? selectedInstance)%Z
     && (selectedInstance <? Z.of_nat (List.length (Instances cfg)))%Z
  then match nth_error (Instances cfg) (Z.to_nat selectedInstance) with
       | Some inst => Name inst
       | None => ""
       end
  else "".

(** Whether the loop of [initCLIAdapters] builds an adapter for an
    instance: it does not for one in SSH mode without SSH settings. *)
Definition has_adapter (inst : InstanceProfile) : bool :=
  negb (Mode inst =? ConnectionModeSSH)
  || match SSH inst with Some _ => true | None => false end.

(** Every instance in SSH mode carries its SSH settings. *)
Definition ssh_configured (cfg : Config) : bool :=
  forallb has_adapter (Instances cfg).

(** A configuration of two instances, one local and one remote. *)
Definition twoInstances : Config :=
  mkConfig
    [mkInstanceProfile "laptop" [] ConnectionModeLocal None "";
     mkInstanceProfile "prod" ["eu"] ConnectionModeSSH
       (Some (mkSSHConfig "gw.example.org" 2222 "ops" "" "" 0 "/opt/openclaw/bin/openclaw"))
       ""]
    1000 500 "/usr/local/bin/openclaw".

(** ** The cells of the progress bar

    [int] is 64 bits wide and a product wraps around; the division
    truncates toward zero; [strings.Repeat] panics on a negative count
    and when the length of its result does not fit an [int]. *)
Definition wrap64 (z : Z) : Z := ((z + 2 ^ 63) mod 2 ^ 64 - 2 ^ 63)%Z.

Definition repeat_ok (unit count : Z) : bool :=
  (0 <=? count)%Z && (unit * count <? 2 ^ 63)%Z.

(** [renderProgressBar], up to the styles: the counts of filled and
    empty cells and the percentage of the label, [None] for a panic.
    Each cell is a rune of three bytes. *)
Definition renderProgressBar (percent width : Z) : option (Z * Z * Z) :=
  let width := if (width <? 10)%Z then 10%Z else width in
  let barWidth := wrap64 (width - 7) in
  let barWidth := if (barWidth <? 5)%Z then 5%Z else barWidth in
  let filled := Z.quot (wrap64 (percent * barWidth)) 100 in
  let filled := if (barWidth <? filled)%Z then barWidth else filled in
  let empty := wrap64 (barWidth - filled) in
  if repeat_ok 3 filled && repeat_ok 3 empty
  then Some (filled, empty, percent) else None.

(** The last [n] elements of a list. *)
Definition lastn {A : Type} (n : nat) (l : list A) : list A :=
  skipn (List.length l - n) l.

(** ** The application, one message after the other *)

Section InTurn.

Context {OpenClawStatus : Type}.
Context {HealthCheckResult : Type}.
Variable Gateway : OpenClawStatus -> option GatewayStatus.
Variable cmd_Output : Command -> ExecResult.
Variable status_unmarshal : string -> result OpenClawStatus.
Variable GetHealthSnapshot :
  CLIAdapter OpenClawStatus ->
  CLIAdapter OpenClawStatus * result HealthCheckResult.
Variable cmd_Start : Command -> LaunchResult.

Local Abbreviation App := (App OpenClawStatus HealthCheckResult).

(** The selection is an index of [cliAdapters]: [getCurrentAdapter]
    returns the adapter at the selection, not that of its fallback. *)
Definition selection_ok (a : App) : Prop :=
  (0 <= selectedInstance a < Z.of_nat (List.length (cliAdapters a)))%Z.

(** A running follow session is that of the selected instance. *)
Definition follows_selection (a : App) : Prop :=
  forall s, In s (sessions (runtime a)) -> running (runtime a) s = true ->
            currentIndex a = Some (sessAdapter s).

(** The application after [Init] and a series of messages, each handled
    with its commands before the next; every message comes with the
    reading of the clock at its time. *)
Definition in_turn (now : Time)
    (msgs : list (Time * Msg OpenClawStatus HealthCheckResult)) (a : App) : App :=
  fold_left
    (fun a m =>
       handle Gateway cmd_Output status_unmarshal GetHealthSnapshot cmd_Start
         (fst m) (snd m) a)
    msgs
    (fst (run_all cmd_Output status_unmarshal GetHealthSnapshot cmd_Start now
            (snd (Init a)) (fst (Init a)))).

(** The application after a series of log messages. *)
Definition receive (events : list LogEvent) (a : App) : App :=
  fold_left (fun a event => fst (Update Gateway (CLILogMsg event) a)) events a.

End InTurn.

(** What the readers of a follow session maintain: no event of an empty
    line, no more events in the channel than its capacity, and, while
    nobody drains the channel, every event sent either delivered or
    still in the channel, in the order of sending. *)
Definition session_ok (s : FollowState) : Prop :=
  (forall e, In e (sent s) -> Raw e <> "")
  /\ (List.length (chanBuf s) <= logChanCap)%nat
  /\ (drainer s = false -> sent s = (delivered s ++ chanBuf s)%list).

(** An application that keeps two log events. *)
Definition shortTail : App Scenario.Status Scenario.Health :=
  mkApp PaneInstances 0 [Scenario.localAdapter; Scenario.remoteAdapter]
    (mkConnectionState false "" "") [] None None None None None false 2
    (mkRuntime 0 [] [] []).


(** * Properties

    ** Strings *)

Lemma str_app_nil_r (s : string) : s ++ "" = s.
Proof. induction s; simpl; congruence. Qed.

Lemma str_app_assoc (a b c : string) : (a ++ b) ++ c = a ++ (b ++ c).
Proof. induction a; simpl; congruence. Qed.

Lemma str_length_app (a b : string) :
  String.length (a ++ b) = (String.length a + String.length b)%nat.
Proof. induction a; simpl; congruence. Qed.

Lemma str_rev_append_spec (s acc : string) :
  rev_append s acc = rev s ++ acc.
Proof.
  unfold rev. revert acc.
  induction s as [|c s IH]; intros acc; simpl; [reflexivity|].
  rewrite IH, (IH (String c "")), str_app_assoc. reflexivity.
Qed.

Lemma str_rev_cons (c : ascii) (s : string) : rev (String c s) = rev s ++ String c "".
Proof. unfold rev at 1. simpl. apply str_rev_append_spec. Qed.

Lemma str_rev_app (a b : string) : rev (a ++ b) = rev b ++ rev a.
Proof.
  induction a as [|c a IH]; simpl.
  - now rewrite str_app_nil_r.
  - now rewrite !str_rev_cons, IH, str_app_assoc.
Qed.

Lemma str_rev_involutive (s : string) : rev (rev s) = s.
Proof.
  induction s as [|c s IH]; [reflexivity|].
  now rewrite str_rev_cons, str_rev_app, IH.
Qed.

Lemma str_rev_length (s : string) : String.length (rev s) = String.length s.
Proof.
  induction s as [|c s IH]; [reflexivity|].
  rewrite str_rev_cons, str_length_app, IH. simpl. lia.
Qed.

Lemma substring_all (s : string) : substring 0 (String.length s) s = s.
Proof. induction s; simpl; congruence. Qed.

Lemma slice_from_app (a b : string) : slice_from (a ++ b) (String.length a) = b.
Proof.
  unfold slice_from. rewrite str_length_app.
  replace (String.length a + String.length b - String.length a)%nat
    with (String.length b) by lia.
  induction a as [|c a IH]; simpl; [apply substring_all | exact IH].
Qed.

Lemma substring_prefix (a b : string) :
  substring 0 (String.length a) (a ++ b) = a.
Proof. induction a; simpl; [destruct b; reflexivity | congruence]. Qed.

Lemma slice_app (a b c : string) :
  slice (a ++ b ++ c) (String.length a) (String.length a + String.length b) = b.
Proof.
  unfold slice.
  replace (String.length a + String.length b - String.length a)%nat
    with (String.length b) by lia.
  induction a as [|x a IH]; simpl; [apply substring_prefix | exact IH].
Qed.

(** *** [IndexByte] *)

Lemma IndexByte_split (s : string) (c : ascii) (i : nat) :
  IndexByte s c = Some i ->
  exists pre post, s = pre ++ String c post /\ String.length pre = i
                   /\ IndexByte pre c = None.
Proof.
  revert i. induction s as [|a s IH]; intros i H; simpl in H; [discriminate|].
  destruct (Ascii.eqb a c) eqn:E.
  - apply Ascii.eqb_eq in E. subst a. inversion H; subst.
    exists "", s. auto.
  - destruct (IndexByte s c) as [j|] eqn:Ej; [|discriminate].
    inversion H; subst.
    destruct (IH j eq_refl) as (pre & post & -> & Hl & Hn).
    exists (String a pre), post. simpl. rewrite E, Hn. auto.
Qed.

Lemma IndexByte_app (pre post : string) (c : ascii) :
  IndexByte pre c = None ->
  IndexByte (pre ++ String c post) c = Some (String.length pre).
Proof.
  induction pre as [|a pre IH]; simpl; intros H.
  - now rewrite Ascii.eqb_refl.
  - destruct (Ascii.eqb a c); [discriminate|].
    destruct (IndexByte pre c); [discriminate|].
    now rewrite IH.
Qed.

Lemma IndexByte_None_app (a b : string) (c : ascii) :
  IndexByte (a ++ b) c = None -> IndexByte a c = None /\ IndexByte b c = None.
Proof.
  induction a as [|x a IH]; simpl; intros H; [auto|].
  destruct (Ascii.eqb x c); [discriminate|].
  destruct (IndexByte (a ++ b) c) eqn:E; [discriminate|].
  destruct (IH eq_refl) as [-> ->]. auto.
Qed.

Lemma IndexByte_app_Some (a b : string) (c : ascii) :
  exists i, IndexByte (a ++ String c b) c = Some i /\ (i <= String.length a)%nat.
Proof.
  induction a as [|x a (i & Hi & Hle)]; simpl.
  - rewrite Ascii.eqb_refl. exists 0%nat. auto.
  - destruct (Ascii.eqb x c).
    + exists 0%nat. split; [reflexivity | lia].
    + rewrite Hi. exists (S i). split; [reflexivity | lia].
Qed.

Lemma str_app_eq_split (a b c d : string) :
  a ++ b = c ++ d -> (String.length a <= String.length c)%nat ->
  exists u, c = a ++ u /\ b = u ++ d.
Proof.
  revert c. induction a as [|x a IH]; intros c H Hlen; simpl in *.
  - exists c. auto.
  - destruct c as [|y c]; simpl in *; [lia|].
    inversion H; subst.
    destruct (IH c H2 ltac:(lia)) as (u & -> & ->).
    exists u. auto.
Qed.

(** ** Trimming runes *)

Section TrimRunesFacts.

Variable p1 : ascii -> bool.
Variable p2 : ascii -> ascii -> bool.
Variable p3 : ascii -> ascii -> ascii -> bool.

(** The recognisers do not overlap: the first byte of a longer rune is
    not a rune, nor are its first two bytes. *)
Hypothesis p2_p1 : forall a b, p2 a b = true -> p1 a = false.
Hypothesis p3_p1 : forall a b c, p3 a b c = true -> p1 a = false.
Hypothesis p3_p2 : forall a b c, p3 a b c = true -> p2 a b = false.

Local Abbreviation trim := (trim_runes p1 p2 p3).
Local Abbreviation rune := (rune p1 p2 p3).
Local Abbreviation runes := (runes p1 p2 p3).

Lemma trim_rune (r z : string) : rune r -> trim (r ++ z) = trim z.
Proof.
  intros [b H | b1 b2 H | b1 b2 b3 H]; simpl.
  - now rewrite H.
  - now rewrite (p2_p1 _ _ H), H.
  - now rewrite (p3_p1 _ _ _ H), (p3_p2 _ _ _ H), H.
Qed.

Lemma trim_strip (w z : string) : runes w -> trim (w ++ z) = trim z.
Proof.
  induction 1 as [|r s Hr Hs IH]; [reflexivity|].
  now rewrite str_app_assoc, trim_rune.
Qed.

Lemma runes_app (a b : string) : runes a -> runes b -> runes (a ++ b).
Proof.
  induction 1 as [|r s Hr Hs IH]; intros Hb; [exact Hb|].
  rewrite str_app_assoc. constructor; auto.
Qed.

Lemma runes_one (r : string) : rune r -> runes r.
Proof.
  intros H. rewrite <- (str_app_nil_r r). constructor; [exact H | constructor].
Qed.

Lemma rune_length (r : string) : rune r -> (1 <= String.length r)%nat.
Proof. intros [b H | b1 b2 H | b1 b2 b3 H]; simpl; lia. Qed.

Lemma trim_decomp_bounded (n : nat) :
  forall s, (String.length s <= n)%nat ->
  exists w, runes w /\ s = w ++ trim s /\ trim (trim s) = trim s.
Proof.
  induction n as [|n IH]; intros s Hlen.
  - destruct s; [|simpl in Hlen; lia]. exists "". repeat split. constructor.
  - destruct s as [|b1 s1]; [exists ""; repeat split; constructor|].
    simpl in Hlen.
    destruct (p1 b1) eqn:E1.
    { destruct (IH s1 ltac:(lia)) as (w & Hw & Hs & Hi).
      exists (String b1 "" ++ w). simpl trim_runes. rewrite E1.
      repeat split; [constructor; [now constructor | exact Hw] | | exact Hi].
      simpl. now rewrite <- Hs. }
    destruct s1 as [|b2 s2].
    { exists "". simpl. rewrite E1. simpl. rewrite E1. repeat split. constructor. }
    simpl in Hlen.
    destruct (p2 b1 b2) eqn:E2.
    { destruct (IH s2 ltac:(lia)) as (w & Hw & Hs & Hi).
      exists (String b1 (String b2 "") ++ w). simpl trim_runes. rewrite E1, E2.
      repeat split; [constructor; [now constructor | exact Hw] | | exact Hi].
      simpl. now rewrite <- Hs. }
    destruct s2 as [|b3 s3].
    { exists "". simpl. rewrite E1, E2. simpl. rewrite E1, E2.
      repeat split. constructor. }
    simpl in Hlen.
    destruct (p3 b1 b2 b3) eqn:E3.
    { destruct (IH s3 ltac:(lia)) as (w & Hw & Hs & Hi).
      exists (String b1 (String b2 (String b3 "")) ++ w).
      simpl trim_runes. rewrite E1, E2, E3.
      repeat split; [constructor; [now constructor | exact Hw] | | exact Hi].
      simpl. now rewrite <- Hs. }
    exists "". simpl. rewrite E1, E2, E3. simpl. rewrite E1, E2, E3.
    repeat split. constructor.
Qed.

Lemma trim_decomp (s : string) :
  exists w, runes w /\ s = w ++ trim s /\ trim (trim s) = trim s.
Proof. apply (trim_decomp_bounded (String.length s)). lia. Qed.

Lemma trim_idem (s : string) : trim (trim s) = trim s.
Proof. destruct (trim_decomp s) as (w & _ & _ & H). exact H. Qed.

Lemma trim_length (s : string) : (String.length (trim s) <= String.length s)%nat.
Proof.
  destruct (trim_decomp s) as (w & _ & H & _).
  rewrite H at 2. rewrite str_length_app. lia.
Qed.

Lemma runes_trim (w : string) : runes w -> trim w = "".
Proof.
  intros H. rewrite <- (str_app_nil_r w). now rewrite trim_strip.
Qed.

(** A string on which trimming stops at once stays so when cut short,
    as long as something of it is left. *)
Lemma trim_stuck_prefix (x y : string) :
  x <> "" -> trim (x ++ y) = x ++ y -> trim x = x.
Proof.
  intros Hx H.
  assert (Hlen : forall z, (String.length (trim z) <= String.length z)%nat)
    by apply trim_length.
  destruct x as [|b1 x1]; [congruence|]. clear Hx.
  simpl in H. simpl.
  destruct (p1 b1) eqn:E1.
  { exfalso. specialize (Hlen (x1 ++ y)). rewrite H in Hlen. simpl in Hlen. lia. }
  destruct x1 as [|b2 x2]; [reflexivity|].
  simpl in H.
  destruct (p2 b1 b2) eqn:E2.
  { exfalso. specialize (Hlen (x2 ++ y)). rewrite H in Hlen. simpl in Hlen. lia. }
  destruct x2 as [|b3 x3]; [reflexivity|].
  simpl in H.
  destruct (p3 b1 b2 b3) eqn:E3; [|reflexivity].
  exfalso. specialize (Hlen (x3 ++ y)). rewrite H in Hlen. simpl in Hlen. lia.
Qed.

(** What it takes for trimming to stop at the first byte. *)
Lemma trim_stuck_inv (a : ascii) (s : string) :
  trim (String a s) = String a s ->
  p1 a = false
  /\ (forall b s', s = String b s' ->
       p2 a b = false
       /\ (forall d s'', s' = String d s'' -> p3 a b d = false)).
Proof.
  intros H.
  assert (Hlen : forall z, (String.length (trim z) <= String.length z)%nat)
    by apply trim_length.
  simpl in H.
  destruct (p1 a) eqn:E1.
  { exfalso. specialize (Hlen s). rewrite H in Hlen. simpl in Hlen. lia. }
  split; [reflexivity|]. intros b s' ->.
  destruct (p2 a b) eqn:E2.
  { exfalso. specialize (Hlen s'). rewrite H in Hlen. simpl in Hlen. lia. }
  split; [reflexivity|]. intros d s'' ->.
  destruct (p3 a b d) eqn:E3; [|reflexivity].
  exfalso. specialize (Hlen s''). rewrite H in Hlen. simpl in Hlen. lia.
Qed.

(** A byte that belongs to no rune stops the trimming. *)
Lemma trim_barrier (c : ascii) (pre x : string) :
  p1 c = false ->
  (forall a, p2 a c = false) -> (forall a, p2 c a = false) ->
  (forall a b, p3 c a b = false) -> (forall a b, p3 a c b = false) ->
  (forall a b, p3 a b c = false) ->
  trim (pre ++ String c x) = trim pre ++ String c x.
Proof.
  intros C1 C2 C2' C3 C3' C3''.
  destruct (trim_decomp pre) as (w & Hw & Hpre & Hi).
  rewrite Hpre at 1. rewrite str_app_assoc, trim_strip by exact Hw.
  destruct (trim pre) as [|a p]; simpl.
  - rewrite C1. destruct x as [|b x]; [reflexivity|].
    rewrite C2'. destruct x as [|d x]; [reflexivity|]. now rewrite C3.
  - destruct (trim_stuck_inv _ _ Hi) as (E1 & H2). rewrite E1.
    destruct p as [|b p]; simpl.
    + rewrite C2. destruct x as [|d x]; [reflexivity|]. now rewrite C3'.
    + destruct (H2 _ _ eq_refl) as (E2 & H3). rewrite E2.
      destruct p as [|d p]; simpl.
      * now rewrite C3''.
      * now rewrite (H3 _ _ eq_refl).
Qed.

End TrimRunesFacts.

(** *** White space *)

Ltac bytes_to_nat :=
  unfold asciiSpace, space2, space3 in *; cbv zeta in *;
  repeat match goal with
         | H : _ = false |- _ => apply not_true_iff_false in H
         | |- _ = false => apply not_true_iff_false
         end;
  repeat rewrite ?andb_true_iff, ?orb_true_iff, ?Nat.eqb_eq, ?Nat.leb_le in *.

Lemma space2_ascii (a b : ascii) : space2 a b = true -> asciiSpace a = false.
Proof. intros H. bytes_to_nat. lia. Qed.

Lemma space3_ascii (a b c : ascii) : space3 a b c = true -> asciiSpace a = false.
Proof. intros H. bytes_to_nat. lia. Qed.

Lemma space3_space2 (a b c : ascii) : space3 a b c = true -> space2 a b = false.
Proof. intros H. bytes_to_nat. lia. Qed.

Lemma space2_ascii_last (a b : ascii) : space2 a b = true -> asciiSpace b = false.
Proof. intros H. bytes_to_nat. lia. Qed.

Lemma space3_ascii_last (a b c : ascii) : space3 a b c = true -> asciiSpace c = false.
Proof. intros H. bytes_to_nat. lia. Qed.

Lemma space3_space2_last (a b c : ascii) : space3 a b c = true -> space2 b c = false.
Proof. intros H. bytes_to_nat. lia. Qed.

Lemma TrimLeftSpace_decomp (s : string) :
  exists w, spaces w /\ s = w ++ TrimLeftSpace s
            /\ TrimLeftSpace (TrimLeftSpace s) = TrimLeftSpace s.
Proof.
  apply trim_decomp.
Qed.

Lemma trim_left_rev_decomp (s : string) :
  exists w, spaces_rev w /\ s = w ++ trim_left_rev s
            /\ trim_left_rev (trim_left_rev s) = trim_left_rev s.
Proof.
  apply trim_decomp.
Qed.

Lemma TrimLeftSpace_strip (w z : string) :
  spaces w -> TrimLeftSpace (w ++ z) = TrimLeftSpace z.
Proof.
  apply trim_strip;
    [apply space2_ascii | apply space3_ascii | apply space3_space2].
Qed.

Lemma trim_left_rev_strip (w z : string) :
  spaces_rev w -> trim_left_rev (w ++ z) = trim_left_rev z.
Proof.
  apply trim_strip; intros.
  - eapply space2_ascii_last; eauto.
  - eapply space3_ascii_last; eauto.
  - eapply space3_space2_last; eauto.
Qed.

Lemma space_rune_rev_of (r : string) : space_rune r -> space_rune_rev (rev r).
Proof.
  intros [b H | b1 b2 H | b1 b2 b3 H]; cbn; now constructor.
Qed.

Lemma space_rune_of_rev (r : string) : space_rune_rev r -> space_rune (rev r).
Proof.
  intros [b H | b1 b2 H | b1 b2 b3 H]; cbn; now constructor.
Qed.

Lemma spaces_rev_of (w : string) : spaces w -> spaces_rev (rev w).
Proof.
  induction 1 as [|r s Hr Hs IH]; [constructor|].
  rewrite str_rev_app. apply runes_app; [exact IH|].
  apply runes_one. now apply space_rune_rev_of.
Qed.

Lemma spaces_of_rev (w : string) : spaces_rev w -> spaces (rev w).
Proof.
  induction 1 as [|r s Hr Hs IH]; [constructor|].
  rewrite str_rev_app. apply runes_app; [exact IH|].
  apply runes_one. now apply space_rune_of_rev.
Qed.

(** [TrimRightSpace] removes white-space runes from the end. *)
Lemma TrimRightSpace_decomp (s : string) :
  exists w, spaces w /\ s = TrimRightSpace s ++ w
            /\ trim_left_rev (rev (TrimRightSpace s)) = rev (TrimRightSpace s).
Proof.
  unfold TrimRightSpace.
  destruct (trim_left_rev_decomp (rev s)) as (w & Hw & Hs & Hi).
  exists (rev w). split; [now apply spaces_of_rev|]. split.
  - rewrite <- str_rev_app, <- Hs. symmetry. apply str_rev_involutive.
  - now rewrite str_rev_involutive.
Qed.

(** The text between the trimmed ends is a segment of the string. *)
Lemma TrimSpace_segment (s : string) :
  exists a b, spaces a /\ spaces b /\ s = a ++ TrimSpace s ++ b.
Proof.
  unfold TrimSpace.
  destruct (TrimLeftSpace_decomp s) as (a & Ha & Hs & _).
  destruct (TrimRightSpace_decomp (TrimLeftSpace s)) as (b & Hb & Ht & _).
  exists a, b. repeat split; auto. now rewrite <- Ht.
Qed.

Lemma plain_spec (c : ascii) :
  plain c = true -> (nat_of_ascii c < 128)%nat /\ asciiSpace c = false.
Proof.
  unfold plain. rewrite andb_true_iff, negb_true_iff, Nat.ltb_lt. auto.
Qed.

Lemma TrimLeftSpace_barrier (c : ascii) (pre x : string) :
  plain c = true ->
  TrimLeftSpace (pre ++ String c x) = TrimLeftSpace pre ++ String c x.
Proof.
  intros [Hc Hs]%plain_spec. unfold TrimLeftSpace.
  apply trim_barrier;
    try apply space2_ascii; try apply space3_ascii; try apply space3_space2;
    try exact Hs; intros; bytes_to_nat; lia.
Qed.

Lemma trim_left_rev_barrier (c : ascii) (pre x : string) :
  plain c = true ->
  trim_left_rev (pre ++ String c x) = trim_left_rev pre ++ String c x.
Proof.
  intros [Hc Hs]%plain_spec. unfold trim_left_rev.
  apply trim_barrier; try exact Hs;
    try (intros a b H; first [ eapply space2_ascii_last; exact H ]);
    try (intros a b d H;
         first [ eapply space3_ascii_last; exact H
               | eapply space3_space2_last; exact H ]);
    intros; bytes_to_nat; lia.
Qed.

Lemma TrimRightSpace_barrier (c : ascii) (x rest : string) :
  plain c = true ->
  TrimRightSpace (x ++ String c rest) = x ++ String c (TrimRightSpace rest).
Proof.
  intros Hc. unfold TrimRightSpace.
  rewrite str_rev_app, str_rev_cons, str_app_assoc. simpl.
  rewrite trim_left_rev_barrier by exact Hc.
  rewrite str_rev_app, str_rev_cons, str_rev_involutive, str_app_assoc.
  reflexivity.
Qed.

(** Trimming both ends leaves what lies between two bytes of plain text
    as it is. *)
Lemma TrimSpace_between (c d : ascii) (pre mid rest : string) :
  plain c = true -> plain d = true ->
  TrimSpace (pre ++ String c mid ++ String d rest)
  = TrimLeftSpace pre ++ String c mid ++ String d (TrimRightSpace rest).
Proof.
  intros Hc Hd. unfold TrimSpace.
  change (String c mid ++ String d rest) with (String c (mid ++ String d rest)).
  change (String c mid ++ String d (TrimRightSpace rest))
    with (String c (mid ++ String d (TrimRightSpace rest))).
  rewrite TrimLeftSpace_barrier by exact Hc.
  replace (TrimLeftSpace pre ++ String c (mid ++ String d rest))
    with ((TrimLeftSpace pre ++ String c mid) ++ String d rest)
    by (now rewrite str_app_assoc).
  rewrite TrimRightSpace_barrier by exact Hd.
  now rewrite str_app_assoc.
Qed.


(** The last byte of a white-space rune starts no rune, and is not the
    middle byte of one that would end after it. *)
Lemma space_rune_rev_head (r s : string) :
  space_rune_rev r ->
  exists c1 t, r ++ s = String c1 t
    /\ (forall a, space2 c1 a = false)
    /\ (forall a b, space3 c1 a b = false)
    /\ (forall a d t', t = String d t' -> space3 d c1 a = false).
Proof.
  intros [b H | b1 b2 H | b1 b2 b3 H]; simpl.
  - exists b, s. repeat split; intros; bytes_to_nat; lia.
  - exists b1, (String b2 s). repeat split; intros.
    + bytes_to_nat; lia.
    + bytes_to_nat; lia.
    + inversion H0; subst. bytes_to_nat; lia.
  - exists b1, (String b2 (String b3 s)). repeat split; intros.
    + bytes_to_nat; lia.
    + bytes_to_nat; lia.
    + inversion H0; subst. bytes_to_nat; lia.
Qed.

(** Text on whose end the backward trimming stops is not reopened by
    white space put after it. *)
Lemma trim_left_rev_stuck_app (x y : string) :
  x <> "" -> trim_left_rev x = x -> spaces_rev y ->
  trim_left_rev (x ++ y) = x ++ y.
Proof.
  intros Hne Hx Hy.
  destruct x as [|a x]; [congruence|]. clear Hne.
  destruct (trim_stuck_inv _ _ _ _ _ Hx) as (E1 & H2).
  destruct Hy as [|r s Hr Hs]; [now rewrite str_app_nil_r|].
  destruct (space_rune_rev_head r s Hr) as (c1 & t & -> & C2 & C3 & C3').
  unfold trim_left_rev in *. simpl. rewrite E1.
  destruct x as [|b x]; simpl.
  - rewrite C2. destruct t as [|d t]; [reflexivity|].
    now rewrite (C3' a d t eq_refl).
  - destruct (H2 _ _ eq_refl) as (E2 & H3). rewrite E2.
    destruct x as [|d x]; simpl.
    + now rewrite C3.
    + now rewrite (H3 _ _ eq_refl).
Qed.

Lemma TrimLeftSpace_stuck_prefix (x y : string) :
  x <> "" -> TrimLeftSpace (x ++ y) = x ++ y -> TrimLeftSpace x = x.
Proof. apply trim_stuck_prefix. Qed.

Lemma spaces_TrimLeftSpace (w : string) : spaces w -> TrimLeftSpace w = "".
Proof.
  apply runes_trim;
    [apply space2_ascii | apply space3_ascii | apply space3_space2].
Qed.

Lemma spaces_TrimRightSpace (w : string) : spaces w -> TrimRightSpace w = "".
Proof.
  intros H. unfold TrimRightSpace, trim_left_rev.
  rewrite runes_trim; [reflexivity | | | |].
  - intros a b E. eapply space2_ascii_last; exact E.
  - intros a b d E. eapply space3_ascii_last; exact E.
  - intros a b d E. eapply space3_space2_last; exact E.
  - now apply spaces_rev_of.
Qed.

(** White space at the end of a string does not change what
    [TrimSpace] returns. *)
Lemma TrimSpace_TrimRightSpace (r : string) :
  TrimSpace (TrimRightSpace r) = TrimSpace r.
Proof.
  unfold TrimSpace.
  destruct (TrimLeftSpace_decomp r) as (w1 & Hw1 & Hr & Hm).
  destruct (TrimRightSpace_decomp (TrimLeftSpace r)) as (w2 & Hw2 & Hm1 & Hstuck).
  remember (TrimLeftSpace r) as m eqn:Em.
  remember (TrimRightSpace m) as m1 eqn:Em1.
  destruct m1 as [|a m1'].
  - (* nothing but white space *)
    simpl in Hm1. subst m.
    assert (E : TrimLeftSpace r = "").
    { rewrite Hm1 in Hm. rewrite spaces_TrimLeftSpace in Hm by exact Hw2.
      now rewrite Hm1, <- Hm. }
    rewrite E, str_app_nil_r in Hr. subst r.
    rewrite (spaces_TrimRightSpace w1) by exact Hw1. reflexivity.
  - assert (Hr' : r = (w1 ++ String a m1') ++ w2)
      by (rewrite str_app_assoc, <- Hm1; exact Hr).
    assert (HTR : TrimRightSpace r = w1 ++ String a m1').
    { unfold TrimRightSpace. rewrite Hr', str_rev_app.
      rewrite trim_left_rev_strip by (now apply spaces_rev_of).
      rewrite str_rev_app.
      rewrite trim_left_rev_stuck_app.
      - now rewrite <- str_rev_app, str_rev_involutive.
      - intros E. apply (f_equal String.length) in E.
        rewrite str_rev_length in E. simpl in E. lia.
      - exact Hstuck.
      - now apply spaces_rev_of. }
    rewrite HTR, TrimLeftSpace_strip by exact Hw1.
    rewrite (TrimLeftSpace_stuck_prefix (String a m1') w2).
    + unfold TrimRightSpace. rewrite Hstuck. apply str_rev_involutive.
    + discriminate.
    + rewrite <- Hm1. exact Hm.
Qed.

(** A string that begins and ends with plain text has nothing to trim. *)
Lemma TrimSpace_plain_ends (s : string) :
  starts_plain s = true -> ends_plain s = true -> TrimSpace s = s.
Proof.
  unfold ends_plain, TrimSpace, TrimRightSpace. intros Hs He.
  assert (E : TrimLeftSpace s = s).
  { destruct s as [|c x]; [discriminate|]. simpl in Hs.
    apply (TrimLeftSpace_barrier c "" x Hs). }
  rewrite E.
  destruct (rev s) as [|d y] eqn:Er; [discriminate|]. simpl in He.
  change (String d y) with ("" ++ String d y) at 1.
  rewrite (trim_left_rev_barrier d "" y He). simpl.
  rewrite <- Er. apply str_rev_involutive.
Qed.

(** ** The log line parser *)

Lemma plain_open : plain "["%char = true.
Proof. reflexivity. Qed.

Lemma plain_close : plain "]"%char = true.
Proof. reflexivity. Qed.

Lemma has_bracket_token_intro (pre tag rest : string) :
  has_bracket_token (pre ++ "[" ++ tag ++ "]" ++ rest) = true.
Proof.
  unfold has_bracket_token.
  destruct (IndexByte_app_Some pre (tag ++ "]" ++ rest) "["%char) as (i & Hi & Hle).
  change (pre ++ "[" ++ tag ++ "]" ++ rest)
    with (pre ++ String "[" (tag ++ "]" ++ rest)).
  rewrite Hi.
  destruct (IndexByte_split _ _ _ Hi) as (p & q & Hs & Hl & _).
  destruct (str_app_eq_split p (String "[" q) pre (String "[" (tag ++ "]" ++ rest)))
    as (u & Hu & Hq); [now symmetry | lia |].
  rewrite Hs. subst i. rewrite slice_from_app, Hq.
  change (u ++ String "[" (tag ++ "]" ++ rest))
    with (u ++ String "[" (tag ++ String "]" rest)).
  replace (u ++ String "[" (tag ++ String "]" rest))
    with ((u ++ String "[" tag) ++ String "]" rest)
    by (now rewrite str_app_assoc).
  destruct (IndexByte_app_Some (u ++ String "[" tag) rest "]"%char) as (j & -> & _).
  reflexivity.
Qed.

Lemma has_bracket_token_elim (s : string) :
  has_bracket_token s = true ->
  exists pre tag rest, first_bracket_token s pre tag rest.
Proof.
  unfold has_bracket_token, first_bracket_token.
  destruct (IndexByte s "[") as [idx|] eqn:E1; [|discriminate].
  destruct (IndexByte_split _ _ _ E1) as (pre & post & -> & Hl & Hn).
  subst idx. rewrite slice_from_app. simpl.
  destruct (IndexByte post "]") as [j|] eqn:E2; [|discriminate].
  destruct (IndexByte_split _ _ _ E2) as (tag & rest & -> & _ & Hn').
  intros _. exists pre, tag, rest. auto.
Qed.

(** White space around a line neither adds nor removes a bracketed
    token. *)
Lemma has_bracket_token_TrimSpace (line : string) :
  has_bracket_token (TrimSpace line) = true -> has_bracket_token line = true.
Proof.
  intros H.
  destruct (has_bracket_token_elim _ H) as (pre & tag & rest & Ht & _ & _).
  destruct (TrimSpace_segment line) as (a & b & _ & _ & Hl).
  rewrite Hl, Ht.
  replace (a ++ (pre ++ "[" ++ tag ++ "]" ++ rest) ++ b)
    with ((a ++ pre) ++ "[" ++ tag ++ "]" ++ (rest ++ b)).
  - apply has_bracket_token_intro.
  - rewrite !str_app_assoc. simpl. rewrite ?str_app_assoc. simpl.
    rewrite ?str_app_assoc. reflexivity.
Qed.

Section LogLineParserFacts.

Variable json_unmarshal : string -> option JsonLog.
Variable time_parse_rfc3339 : string -> option Time.

Local Abbreviation parse := (parseLogLine json_unmarshal time_parse_rfc3339).

Lemma fill_from_json_Raw (j : JsonLog) (e : LogEvent) :
  Raw (fill_from_json time_parse_rfc3339 j e) = Raw e.
Proof.
  unfold fill_from_json.
  repeat match goal with
         | |- context [if ?b then _ else _] => destruct b
         | |- context [match ?o with Some _ => _ | None => _ end] => destruct o
         end; reflexivity.
Qed.

(** The original line is kept in [Raw], whatever the line. *)
Lemma parseLogLine_Raw (now : Time) (line : string) :
  Raw (parse now line) = line.
Proof.
  unfold parseLogLine.
  destruct (json_unmarshal line); [apply fill_from_json_Raw|].
  destruct (IndexByte (TrimSpace line) "["); [|reflexivity].
  destruct (IndexByte _ "]"); [|reflexivity].
  destruct (bracket_level _); reflexivity.
Qed.

(** The fallback: neither JSON nor a bracketed token. *)
Lemma parseLogLine_fallback (now : Time) (line : string) :
  json_unmarshal line = None -> has_bracket_token line = false ->
  parse now line = mkLogEvent now "info" "" (TrimSpace line) line.
Proof.
  intros Hj Hb. unfold parseLogLine. rewrite Hj.
  assert (H : has_bracket_token (TrimSpace line) = false).
  { destruct (has_bracket_token (TrimSpace line)) eqn:E; [|reflexivity].
    apply has_bracket_token_TrimSpace in E. congruence. }
  unfold has_bracket_token in H.
  destruct (IndexByte (TrimSpace line) "["); [|reflexivity].
  destruct (IndexByte _ "]"); [discriminate | reflexivity].
Qed.

(** The bracketed format. *)
Lemma parseLogLine_bracket (now : Time) (line pre tag rest : string) :
  json_unmarshal line = None -> first_bracket_token line pre tag rest ->
  parse now line
  = mkLogEvent now
      (match bracket_level (ToLower tag) with Some l => l | None => "info" end)
      "" (TrimSpace rest) line.
Proof.
  intros Hj (Hl & Hpre & Htag). unfold parseLogLine. rewrite Hj.
  assert (Ht : TrimSpace line
               = TrimLeftSpace pre ++ String "[" (tag ++ String "]" (TrimRightSpace rest))).
  { rewrite Hl. apply (TrimSpace_between "[" "]"); [apply plain_open | apply plain_close]. }
  assert (Hp : IndexByte (TrimLeftSpace pre) "[" = None).
  { destruct (TrimLeftSpace_decomp pre) as (w & _ & Hw & _).
    rewrite Hw in Hpre. now apply IndexByte_None_app in Hpre. }
  rewrite Ht. rewrite (IndexByte_app _ _ _ Hp).
  rewrite slice_from_app.
  assert (He : IndexByte (String "[" (tag ++ String "]" (TrimRightSpace rest))) "]"
               = Some (S (String.length tag))).
  { simpl. now rewrite (IndexByte_app _ _ _ Htag). }
  rewrite He.
  set (p := TrimLeftSpace pre).
  replace (slice (p ++ String "[" (tag ++ String "]" (TrimRightSpace rest)))
             (String.length p + 1) (String.length p + S (String.length tag)))
    with tag.
  2:{ replace (p ++ String "[" (tag ++ String "]" (TrimRightSpace rest)))
        with ((p ++ "[") ++ tag ++ String "]" (TrimRightSpace rest))
        by (now rewrite str_app_assoc).
      replace (String.length p + 1)%nat with (String.length (p ++ "["))
        by (rewrite str_length_app; reflexivity).
      replace (String.length p + S (String.length tag))%nat
        with (String.length (p ++ "[") + String.length tag)%nat
        by (rewrite str_length_app; simpl; lia).
      now rewrite slice_app. }
  replace (slice_from (p ++ String "[" (tag ++ String "]" (TrimRightSpace rest)))
             (String.length p + S (String.length tag) + 1))
    with (TrimRightSpace rest).
  2:{ replace (p ++ String "[" (tag ++ String "]" (TrimRightSpace rest)))
        with ((p ++ String "[" (tag ++ "]")) ++ TrimRightSpace rest)
        by (rewrite str_app_assoc; simpl; now rewrite str_app_assoc).
      replace (String.length p + S (String.length tag) + 1)%nat
        with (String.length (p ++ String "[" (tag ++ "]")))
        by (rewrite str_length_app; simpl; rewrite str_length_app; simpl; lia).
      now rewrite slice_from_app. }
  rewrite TrimSpace_TrimRightSpace.
  destruct (bracket_level (ToLower tag)); reflexivity.
Qed.


(** The JSON convention: the level is the lowered level text, the
    message is taken from [msg], else from [message], and the timestamp
    is the parsed [time], or the receipt time when it does not parse. *)
Lemma parseLogLine_json (now : Time) (line : string) (j : JsonLog) :
  json_unmarshal line = Some j ->
  parse now line
  = mkLogEvent
      (if jTime j =? "" then now
       else match time_parse_rfc3339 (jTime j) with
            | Some t => t
            | None => now
            end)
      (if jLevel j =? "" then "info" else ToLower (jLevel j))
      ""
      (if negb (jMsg j =? "") then jMsg j else jMessage j)
      line.
Proof.
  intros Hj. unfold parseLogLine, fill_from_json. rewrite Hj.
  destruct (jLevel j =? ""), (jMsg j =? ""), (jMessage j =? "") eqn:Em,
    (jTime j =? ""); simpl;
    try destruct (time_parse_rfc3339 (jTime j)); simpl;
    try reflexivity;
    apply String.eqb_eq in Em; now rewrite Em.
Qed.

(** C7: for every line that is not JSON and whose first bracketed
    token is a level tag, [parseLogLine] returns that level, and what
    follows the closing bracket, trimmed of white space, as the message.
    The tags are debug, info, warn, warning and error and the
    abbreviations dbg, inf, wrn and err, in any case of letters.  In
    particular "[WARN] disk low" yields "warn" and "disk low". *)
Theorem parseLogLine_bracket_tag (now : Time) :
  (forall line pre tag rest lv,
      json_unmarshal line = None ->
      first_bracket_token line pre tag rest ->
      bracket_level (ToLower tag) = Some lv ->
      Level (parse now line) = lv
      /\ Message (parse now line) = TrimSpace rest)
  /\ (json_unmarshal "[WARN] disk low" = None ->
      Level (parse now "[WARN] disk low") = "warn"
      /\ Message (parse now "[WARN] disk low") = "disk low")
  /\ map bracket_level
       ["debug"; "dbg"; "info"; "inf"; "warn"; "warning"; "wrn"; "error"; "err"]
     = map Some
         ["debug"; "debug"; "info"; "info"; "warn"; "warn"; "warn"; "error"; "error"].
Proof.
  split; [|split; [|reflexivity]].
  - intros line pre tag rest lv Hj Ht Hl.
    rewrite (parseLogLine_bracket now line pre tag rest Hj Ht), Hl. auto.
  - intros Hj.
    rewrite (parseLogLine_bracket now _ "" "WARN" " disk low" Hj).
    + split; reflexivity.
    + repeat split.
Qed.

(** C8: a JSON line that carries the message under "msg" and the
    otherwise identical line that carries it under "message" parse to
    events with the same level, the level text with its letters lowered
    ("info" when there is none), and the same message, the text under
    either key.  The timestamp of each is the time of the line when that
    parses, so that the two events have the same timestamp whatever the
    times at which the two lines are received; when the line has no time
    that parses, each event has the receipt time of its own call. *)
Theorem parseLogLine_message_key (now1 now2 : Time) (line1 line2 t lv m : string) :
  json_unmarshal line1 = Some (mkJsonLog t lv m "") ->
  json_unmarshal line2 = Some (mkJsonLog t lv "" m) ->
  let level := if lv =? "" then "info" else ToLower lv in
  let stamp (now : Time) :=
    if t =? "" then now
    else match time_parse_rfc3339 t with Some ts => ts | None => now end in
  Level (parse now1 line1) = level /\ Level (parse now2 line2) = level
  /\ Message (parse now1 line1) = m /\ Message (parse now2 line2) = m
  /\ Timestamp (parse now1 line1) = stamp now1
  /\ Timestamp (parse now2 line2) = stamp now2
  /\ (forall ts, t <> "" -> time_parse_rfc3339 t = Some ts ->
        Timestamp (parse now1 line1) = ts /\ Timestamp (parse now2 line2) = ts).
Proof.
  intros H1 H2 level stamp.
  rewrite (parseLogLine_json now1 line1 _ H1), (parseLogLine_json now2 line2 _ H2).
  simpl.
  assert (Hm : (if negb (m =? "") then m else "") = m).
  { destruct (m =? "") eqn:E; [|reflexivity].
    apply String.eqb_eq in E. now subst. }
  repeat split; try reflexivity; try exact Hm.
  - destruct (t =? "") eqn:E; [apply String.eqb_eq in E; contradiction|].
    now rewrite H0.
  - destruct (t =? "") eqn:E; [apply String.eqb_eq in E; contradiction|].
    now rewrite H0.
Qed.

End LogLineParserFacts.

(** The sample line of 600 bytes. *)
Lemma line600_length : String.length Samples.line600 = 600%nat.
Proof. reflexivity. Qed.

(** C6 (the code departs from it): a line that follows neither
    convention does not come back whole as the message.  The line is
    trimmed before the fallback, so that " gateway restarted" gives the
    message "gateway restarted"; a bracketed token that is no level tag
    is cut off with what precedes it, so that "[trace] deep" gives
    "deep"; and the texts "{}" and "null", which the decoder accepts
    though they carry no time, level or message, give the empty
    message.  The level is "info", the timestamp the receipt time and
    the original line is kept in each case, and the line of 600 bytes of
    the scenario, which has no white space around it, is its own
    message. *)
Theorem parseLogLine_fallback_not_whole_line :
  Samples.json_unmarshal " gateway restarted" = None
  /\ has_bracket_token " gateway restarted" = false
  /\ Samples.parse 42%Z " gateway restarted"
     = mkLogEvent 42%Z "info" "" "gateway restarted" " gateway restarted"
  /\ Samples.json_unmarshal "[trace] deep" = None
  /\ bracket_level (ToLower "trace") = None
  /\ Samples.parse 42%Z "[trace] deep" = mkLogEvent 42%Z "info" "" "deep" "[trace] deep"
  /\ Samples.parse 42%Z "{}" = mkLogEvent 42%Z "info" "" "" "{}"
  /\ Samples.parse 42%Z "null" = mkLogEvent 42%Z "info" "" "" "null"
  /\ has_bracket_token Samples.line600 = false
  /\ Samples.parse 42%Z Samples.line600
     = mkLogEvent 42%Z "info" "" Samples.line600 Samples.line600.
Proof. repeat split; vm_compute; reflexivity. Qed.

Lemma parseLogLine_bracket_tag_witness :
  (Level (Samples.parse 42%Z "2024-01-15 10:30:45 [wrn]   disk low  ") = "warn"
   /\ Message (Samples.parse 42%Z "2024-01-15 10:30:45 [wrn]   disk low  ") = "disk low")
  /\ (Level (Samples.parse 42%Z "[WARN] disk low") = "warn"
      /\ Message (Samples.parse 42%Z "[WARN] disk low") = "disk low").
Proof.
  destruct (parseLogLine_bracket_tag Samples.json_unmarshal
              Samples.time_parse_rfc3339 42%Z) as (H1 & H2 & _).
  split; [|apply H2; reflexivity].
  apply (H1 _ "2024-01-15 10:30:45 " "wrn" "   disk low  " "warn");
    [reflexivity | repeat split | reflexivity].
Defined.

Lemma parseLogLine_message_key_witness :
  let line1 := Samples.object
                 [("time", "2024-01-15T10:30:45Z"); ("level", "WARN"); ("msg", "disk low")] in
  let line2 := Samples.object
                 [("time", "2024-01-15T10:30:45Z"); ("level", "WARN"); ("message", "disk low")] in
  Level (Samples.parse 41%Z line1) = "warn"
  /\ Level (Samples.parse 42%Z line2) = "warn"
  /\ Message (Samples.parse 41%Z line1) = "disk low"
  /\ Message (Samples.parse 42%Z line2) = "disk low"
  /\ Timestamp (Samples.parse 41%Z line1) = Timestamp (Samples.parse 42%Z line2).
Proof.
  intros line1 line2.
  destruct (parseLogLine_message_key Samples.json_unmarshal
              Samples.time_parse_rfc3339 41%Z 42%Z line1 line2
              "2024-01-15T10:30:45Z" "WARN" "disk low" eq_refl eq_refl)
    as (L1 & L2 & M1 & M2 & _ & _ & T).
  split; [exact L1|]. split; [exact L2|]. split; [exact M1|]. split; [exact M2|].
  destruct (T _ ltac:(discriminate) eq_refl) as [T1 T2].
  exact (eq_trans T1 (eq_sym T2)).
Defined.

(** C5 (the code departs from it): in the JSON convention the level is
    only lowered, not mapped to the four severities; the abbreviations
    and "warning" are mapped by the bracketed convention alone. *)
Theorem parseLogLine_json_level_verbatim :
  Level (Samples.parse 42%Z (Samples.object [("level", "wrn"); ("msg", "disk low")]))
  = "wrn"
  /\ Level (Samples.parse 42%Z (Samples.object [("level", "WARNING"); ("msg", "disk low")]))
    = "warning"
  /\ Level (Samples.parse 42%Z "[wrn] disk low") = "warn"
  /\ Level (Samples.parse 42%Z "[WARNING] disk low") = "warn".
Proof. repeat split. Qed.

(** Whatever the decoder, the level of a JSON line is its level text
    with the letters lowered. *)
Lemma parseLogLine_json_level
    (json_unmarshal : string -> option JsonLog)
    (time_parse_rfc3339 : string -> option Time)
    (now : Time) (line : string) (j : JsonLog) :
  json_unmarshal line = Some j -> jLevel j <> "" ->
  Level (parseLogLine json_unmarshal time_parse_rfc3339 now line)
  = ToLower (jLevel j).
Proof.
  intros Hj Hl. rewrite (parseLogLine_json _ _ now line j Hj). simpl.
  destruct (jLevel j =? "") eqn:E; [|reflexivity].
  apply String.eqb_eq in E. contradiction.
Qed.

(** The timestamp of a JSON line: the parsed [time] member, and the
    receipt time when the member is absent or does not parse. *)
Lemma parseLogLine_json_timestamp
    (json_unmarshal : string -> option JsonLog)
    (time_parse_rfc3339 : string -> option Time)
    (now : Time) (line : string) (j : JsonLog) :
  json_unmarshal line = Some j ->
  (forall t, time_parse_rfc3339 (jTime j) = Some t -> jTime j <> "" ->
             Timestamp (parseLogLine json_unmarshal time_parse_rfc3339 now line) = t)
  /\ (time_parse_rfc3339 (jTime j) = None ->
      Timestamp (parseLogLine json_unmarshal time_parse_rfc3339 now line) = now).
Proof.
  intros Hj. rewrite (parseLogLine_json _ _ now line j Hj). simpl. split.
  - intros t Ht Hne. rewrite Ht.
    destruct (jTime j =? "") eqn:E; [|reflexivity].
    apply String.eqb_eq in E. contradiction.
  - intros Hn. rewrite Hn. now destruct (jTime j =? "").
Qed.

(** ** The CLI adapter *)

Section CLIAdapterFacts.

Context {OpenClawStatus : Type}.
Variable cmd_Output : Command -> ExecResult.
Variable status_unmarshal : string -> result OpenClawStatus.

Local Abbreviation fetch := (GetFullStatus cmd_Output status_unmarshal).

(** A failed call records its error and leaves the snapshot alone;
    the configuration of the adapter is never written. *)
Lemma GetFullStatus_config (now : Time) (c : CLIAdapter OpenClawStatus) :
  BinaryPath (fst (fetch now c)) = BinaryPath c
  /\ SSHConfig_ (fst (fetch now c)) = SSHConfig_ c
  /\ InstanceName (fst (fetch now c)) = InstanceName c
  /\ logCmd (fst (fetch now c)) = logCmd c
  /\ adapterLogCancel (fst (fetch now c)) = adapterLogCancel c.
Proof.
  unfold GetFullStatus.
  destruct (runCommand cmd_Output c _) as [output|e]; [|repeat split].
  destruct (status_unmarshal output); repeat split.
Qed.

(** C1: when the command and the decoding both succeed, the snapshot is
    replaced by the decoded payload and the cached error is cleared;
    when either fails, the snapshot is left as it was, the error is
    recorded as the cached error, and the call returns that error. *)
Theorem GetFullStatus_cache (now : Time) (c : CLIAdapter OpenClawStatus) :
  (forall output status,
      runCommand cmd_Output c ["status"; "--json"] = Ok output ->
      status_unmarshal output = Ok status ->
      GetCachedStatus (fst (fetch now c)) = Some status
      /\ GetLastError (fst (fetch now c)) = None
      /\ snd (fetch now c) = Ok status)
  /\ (forall err,
        runCommand cmd_Output c ["status"; "--json"] = Err err ->
        GetCachedStatus (fst (fetch now c)) = GetCachedStatus c
        /\ GetLastError (fst (fetch now c)) = Some err
        /\ snd (fetch now c) = Err err)
  /\ (forall output err,
        runCommand cmd_Output c ["status"; "--json"] = Ok output ->
        status_unmarshal output = Err err ->
        GetCachedStatus (fst (fetch now c)) = GetCachedStatus c
        /\ GetLastError (fst (fetch now c))
           = Some ("failed to parse status JSON: " ++ err)
        /\ snd (fetch now c) = Err ("failed to parse status JSON: " ++ err)).
Proof.
  unfold GetFullStatus. repeat split.
  all: try (rewrite H; try rewrite H0; reflexivity).
Qed.

(** [FollowLogs] builds the command of the local path, whatever the
    mode of the instance. *)
Lemma followCommand_local (c : CLIAdapter OpenClawStatus) :
  followCommand c = localCommand c ["logs"; "--follow"].
Proof. reflexivity. Qed.

(** C9: the argument list of every remote invocation starts with batch
    mode, the accept-new host key policy and the connect timeout (the
    configured one, or 10 when that is zero or negative); then come "-p"
    with the port, "-i" with the identity file and "-J" with the jump
    host, each exactly when the field is set (a positive port, a
    non-empty text); then the host and the remote command. *)
Theorem buildSSHArgs_policy (c : CLIAdapter OpenClawStatus) (args : list string) :
  IsRemote c = true ->
  exists cfg,
    SSHConfig_ c = Some cfg
    /\ prog (commandOf c args) = "ssh"
    /\ argv (commandOf c args)
       = (policyArgs (if (ConnectTimeout cfg <=? 0)%Z then 10%Z else ConnectTimeout cfg)
          ++ optionArgs "-p" (0 <? Port cfg)%Z (itoa (Port cfg))
          ++ optionArgs "-i" (negb (IdentityFile cfg =? "")) (IdentityFile cfg)
          ++ optionArgs "-J" (negb (ProxyJump cfg =? "")) (ProxyJump cfg)
          ++ [hostArg cfg;
              ("bash -lc " ++ shellQuote (appendRemoteArgs (getBinary c) args))%string])%list
    /\ buildSSHArgs c = removelast (argv (commandOf c args)).
Proof.
  intros Hr. unfold commandOf. rewrite Hr.
  unfold IsRemote in Hr. unfold sshCommand, buildSSHArgs.
  destruct (SSHConfig_ c) as [cfg|]; [|discriminate].
  exists cfg. split; [reflexivity|]. split; [reflexivity|].
  unfold policyArgs, optionArgs, hostArg. simpl argv.
  destruct (0 <? Port cfg)%Z, (negb (IdentityFile cfg =? "")),
    (negb (ProxyJump cfg =? "")); simpl; split; reflexivity.
Qed.

End CLIAdapterFacts.

Lemma GetFullStatus_cache_witness :
  let fetch := GetFullStatus Scenario.cmd_Output Scenario.status_unmarshal in
  let stale := set_cache "{}" 5%Z Scenario.localAdapter in
  let wrapped := set_cache "{}" 5%Z Scenario.wrappedAdapter in
  (GetCachedStatus (fst (fetch 7%Z Scenario.remoteAdapter)) = Some Scenario.statusDocument
   /\ GetLastError (fst (fetch 7%Z Scenario.remoteAdapter)) = None
   /\ snd (fetch 7%Z Scenario.remoteAdapter) = Ok Scenario.statusDocument)
  /\ (GetCachedStatus (fst (fetch 7%Z stale)) = Some "{}"
      /\ GetLastError (fst (fetch 7%Z stale))
         = Some "command failed: openclaw: gateway not running"
      /\ snd (fetch 7%Z stale) = Err "command failed: openclaw: gateway not running")
  /\ (GetCachedStatus (fst (fetch 7%Z wrapped)) = Some "{}"
      /\ GetLastError (fst (fetch 7%Z wrapped))
         = Some "failed to parse status JSON: invalid character looking for beginning of value"
      /\ snd (fetch 7%Z wrapped)
         = Err "failed to parse status JSON: invalid character looking for beginning of value").
Proof.
  intros fetch stale wrapped. split; [|split].
  - destruct (GetFullStatus_cache Scenario.cmd_Output Scenario.status_unmarshal
                7%Z Scenario.remoteAdapter) as (H & _ & _).
    apply (H Scenario.statusDocument); reflexivity.
  - destruct (GetFullStatus_cache Scenario.cmd_Output Scenario.status_unmarshal
                7%Z stale) as (_ & H & _).
    apply H; reflexivity.
  - destruct (GetFullStatus_cache Scenario.cmd_Output Scenario.status_unmarshal
                7%Z wrapped) as (_ & _ & H).
    apply (H "warning: no config file"); reflexivity.
Defined.

Lemma buildSSHArgs_policy_witness :
  exists cfg,
    SSHConfig_ Scenario.remoteAdapter = Some cfg
    /\ prog (commandOf Scenario.remoteAdapter ["status"; "--json"]) = "ssh"
    /\ argv (commandOf Scenario.remoteAdapter ["status"; "--json"])
       = (policyArgs (if (ConnectTimeout cfg <=? 0)%Z then 10%Z else ConnectTimeout cfg)
          ++ optionArgs "-p" (0 <? Port cfg)%Z (itoa (Port cfg))
          ++ optionArgs "-i" (negb (IdentityFile cfg =? "")) (IdentityFile cfg)
          ++ optionArgs "-J" (negb (ProxyJump cfg =? "")) (ProxyJump cfg)
          ++ [hostArg cfg;
              ("bash -lc "
               ++ shellQuote (appendRemoteArgs (getBinary Scenario.remoteAdapter)
                                ["status"; "--json"]))%string])%list
    /\ buildSSHArgs Scenario.remoteAdapter
       = removelast (argv (commandOf Scenario.remoteAdapter ["status"; "--json"])).
Proof.
  apply (buildSSHArgs_policy Scenario.remoteAdapter ["status"; "--json"]).
  reflexivity.
Defined.

(** The argument list of the remote instance of the scenario. *)
Example buildSSHArgs_remote :
  buildSSHArgs Scenario.remoteAdapter
  = ["-o"; "BatchMode=yes"; "-o"; "StrictHostKeyChecking=accept-new";
     "-o"; "ConnectTimeout=10"; "-p"; "2222";
     "-i"; "/home/ops/.ssh/id_ed25519"; "-J"; "bastion.example.org";
     "ops@gw.example.org"].
Proof. reflexivity. Qed.

(** C2 (the code departs from it): for the remote instance, the status
    fetch goes through [ssh], and the log follow spawns the binary on the
    local host. *)
Theorem FollowLogs_remote_spawns_locally :
  IsRemote Scenario.remoteAdapter = true
  /\ commandOf Scenario.remoteAdapter ["logs"; "--follow"]
     = mkCommand "ssh"
         ["-o"; "BatchMode=yes"; "-o"; "StrictHostKeyChecking=accept-new";
          "-o"; "ConnectTimeout=10"; "-p"; "2222";
          "-i"; "/home/ops/.ssh/id_ed25519"; "-J"; "bastion.example.org";
          "ops@gw.example.org";
          "bash -lc '/opt/openclaw/bin/openclaw logs --follow'"]
  /\ followCommand Scenario.remoteAdapter
     = mkCommand "/opt/openclaw/bin/openclaw" ["logs"; "--follow"]
  /\ followCommand Scenario.remoteAdapter
     <> commandOf Scenario.remoteAdapter ["logs"; "--follow"].
Proof. repeat split. discriminate. Qed.

(** ** The application *)

Lemma store_length {A : Type} (i : nat) (x : A) (l : list A) :
  List.length (store i x l) = List.length l.
Proof.
  revert i. induction l as [|y l IH]; intros [|i]; simpl; auto.
Qed.

Lemma nth_error_store {A : Type} (i : nat) (x y : A) (l : list A) :
  nth_error l i = Some y -> nth_error (store i x l) i = Some x.
Proof.
  revert i. induction l as [|z l IH]; intros [|i]; simpl; try discriminate; auto.
Qed.

Section AppFacts.

Context {OpenClawStatus : Type}.
Context {HealthCheckResult : Type}.
Variable Gateway : OpenClawStatus -> option GatewayStatus.
Variable cmd_Output : Command -> ExecResult.
Variable status_unmarshal : string -> result OpenClawStatus.
Variable GetHealthSnapshot :
  CLIAdapter OpenClawStatus ->
  CLIAdapter OpenClawStatus * result HealthCheckResult.
Variable cmd_Start : Command -> LaunchResult.

Local Abbreviation exec :=
  (@run OpenClawStatus HealthCheckResult cmd_Output status_unmarshal
     GetHealthSnapshot cmd_Start).

(** The status fetch reads the configuration of the adapter, not the
    fields of the log follow. *)
Lemma GetFullStatus_set_follow (now : Time) (cmd : Command) (ctx : nat)
    (c : CLIAdapter OpenClawStatus) :
  snd (GetFullStatus cmd_Output status_unmarshal now (set_follow cmd ctx c))
  = snd (GetFullStatus cmd_Output status_unmarshal now c).
Proof.
  unfold GetFullStatus, runCommand, runSSHCommand, runLocalCommand, IsRemote,
    sshCommand, localCommand, buildSSHArgs, getBinary. simpl.
  destruct (match SSHConfig_ c with Some cfg => negb (Host cfg =? "") | None => false end).
  - destruct (cmd_Output _) as [o|e code|e]; simpl.
    + destruct (status_unmarshal _); reflexivity.
    + destruct (negb _); reflexivity.
    + reflexivity.
  - destruct (cmd_Output _) as [o|e code|e]; simpl; try reflexivity.
    destruct (status_unmarshal _); reflexivity.
Qed.

(** C10: when the log-follow subprocess cannot be launched, the start
    command returns one warning-level event of source "lazyclaw" whose
    message carries the failure, and no error: no session is
    registered, the cached status, health result and connection state
    are as before, the next status fetch returns what it would have
    returned, and handling the event only appends it to the log
    buffer. *)
Theorem startLogFollowing_launch_failure
    (now : Time) (a : App OpenClawStatus HealthCheckResult)
    (adapter : CLIAdapter OpenClawStatus) (err : error) :
  getCurrentAdapter a = Some adapter ->
  followError (cmd_Start (followCommand adapter)) = Some err ->
  let event :=
    mkLogEvent now "warn" "lazyclaw" ("Could not start log following: " ++ err) "" in
  let a' := fst (exec now startLogFollowing a) in
  snd (exec now startLogFollowing a) = Returned (Some (CLILogMsg event))
  /\ sessions (runtime a') = sessions (runtime a)
  /\ cancelled (runtime a') = cancelled (runtime a)
  /\ logFollowing a' = logFollowing a
  /\ openclawStatus a' = openclawStatus a
  /\ healthCheckResult a' = healthCheckResult a
  /\ connectionState a' = connectionState a
  /\ logs a' = logs a
  /\ (forall t, snd (exec t fetchCLIStatus a') = snd (exec t fetchCLIStatus a))
  /\ openclawStatus (fst (Update Gateway (CLILogMsg event) a')) = openclawStatus a
  /\ healthCheckResult (fst (Update Gateway (CLILogMsg event) a')) = healthCheckResult a
  /\ connectionState (fst (Update Gateway (CLILogMsg event) a')) = connectionState a
  /\ logs (fst (Update Gateway (CLILogMsg event) a'))
     = logs (appendLog event a)
  /\ snd (Update Gateway (CLILogMsg event) a')
     = if logFollowing a then [waitForCLILog] else [].
Proof.
  intros Hg He event a'.
  assert (Hi : exists i, currentIndex a = Some i
                         /\ nth_error (cliAdapters a) i = Some adapter).
  { unfold getCurrentAdapter in Hg.
    destruct (currentIndex a) as [i|]; [|discriminate]. now exists i. }
  destruct Hi as (i & Hi & Hn).
  assert (Hrun : exec now startLogFollowing a
                 = (set_runtime
                      (mkRuntime (S (S (S (nextId (runtime a)))))
                         (cancelled (runtime a)) (sessions (runtime a))
                         (drained (runtime a)))
                      (set_cliAdapters
                         (store i (set_follow (followCommand adapter)
                                     (S (S (nextId (runtime a)))) adapter)
                            (cliAdapters a))
                         (set_logStream (nextId (runtime a))
                            (S (nextId (runtime a))) a)),
                    Returned (Some (CLILogMsg event)))).
  { unfold run, run_startLogFollowing. rewrite Hi, Hg.
    unfold FollowLogs. simpl.
    destruct (cmd_Start (followCommand adapter)); simpl in He;
      inversion He; subst; reflexivity. }
  subst a'. rewrite Hrun. simpl.
  repeat split.
  1:{ intros t. unfold run_fetchCLIStatus, getCurrentAdapter, currentIndex. simpl.
      rewrite store_length.
      fold (currentIndex a). rewrite Hi.
      rewrite (nth_error_store _ _ _ _ Hn), Hn.
      pose proof (GetFullStatus_set_follow t (followCommand adapter)
                    (S (S (nextId (runtime a)))) adapter) as E.
      destruct (GetFullStatus _ _ t (set_follow _ _ adapter)) as [c1 r1].
      destruct (GetFullStatus _ _ t adapter) as [c2 r2].
      simpl in E. subst r2. destruct r1; reflexivity. }
  all: destruct (logFollowing a); unfold appendLog; simpl; try reflexivity.
  all: destruct (_ <? _)%Z; reflexivity.
Qed.

End AppFacts.

Lemma startLogFollowing_launch_failure_witness :
  let exec := run Scenario.cmd_Output Scenario.status_unmarshal
                Scenario.GetHealthSnapshot Scenario.cmd_Start_missing in
  let event :=
    mkLogEvent 9%Z "warn" "lazyclaw"
      ("Could not start log following: failed to start logs command: exec: "
       ++ dquote ++ "openclaw" ++ dquote ++ ": executable file not found in $PATH")
      "" in
  snd (exec 9%Z startLogFollowing Scenario.app0) = Returned (Some (CLILogMsg event))
  /\ sessions (runtime (fst (exec 9%Z startLogFollowing Scenario.app0))) = []
  /\ logs (fst (Scenario.update (CLILogMsg event)
                  (fst (exec 9%Z startLogFollowing Scenario.app0)))) = [event].
Proof.
  intros exec event.
  destruct (startLogFollowing_launch_failure Scenario.gatewayOf
              Scenario.cmd_Output Scenario.status_unmarshal
              Scenario.GetHealthSnapshot Scenario.cmd_Start_missing
              9%Z Scenario.app0 Scenario.localAdapter
              ("failed to start logs command: exec: "
               ++ dquote ++ "openclaw" ++ dquote
               ++ ": executable file not found in $PATH")
              eq_refl eq_refl)
    as (H1 & H2 & _ & _ & _ & _ & _ & _ & _ & _ & _ & _ & H3 & _).
  split; [exact H1|]. split; [exact H2 | exact H3].
Defined.

(** The session the application starts with: the start command of
    [Init] has run for the first instance. *)
Lemma Init_one_session :
  List.length
    (activeSessions (runtime (fst (Scenario.exec 1%Z startLogFollowing Scenario.app0))) 0)
  = 1%nat.
Proof. reflexivity. Qed.

(** When the commands of the first switch run before the second switch,
    the second switch cancels the session the first one started: one
    session is active for the instance. *)
Lemma switchTo_in_turn_one_session :
  let a1 := fst (Scenario.exec 1%Z startLogFollowing Scenario.app0) in
  let '(a2, cmds1) := switchTo 1 a1 in
  let a3 := fst (Scenario.execAll 2%Z cmds1 a2) in
  let '(a4, cmds2) := switchTo 1 a3 in
  let a5 := fst (Scenario.execAll 3%Z cmds2 a4) in
  List.length (activeSessions (runtime a5) 0) = 0%nat
  /\ List.length (activeSessions (runtime a5) 1) = 1%nat.
Proof. split; reflexivity. Qed.

(** C3 (the code departs from it): two switches to the same instance
    with nothing in between, their commands run afterwards, leave two
    active follow sessions for that instance; the application holds the
    cancel function of the second only, so that the next stop leaves the
    first one running.  The same happens with two reconnects. *)
Theorem switchTo_twice_two_sessions :
  let a1 := fst (Scenario.exec 1%Z startLogFollowing Scenario.app0) in
  let '(a2, cmds1) := switchTo 1 a1 in
  let '(a3, cmds2) := switchTo 1 a2 in
  let a4 := fst (Scenario.execAll 2%Z (cmds1 ++ cmds2) a3) in
  let '(b2, rcmds1) := Scenario.update (KeyMsg KeyReconnect) a1 in
  let '(b3, rcmds2) := Scenario.update (KeyMsg KeyReconnect) b2 in
  let b4 := fst (Scenario.execAll 2%Z (rcmds1 ++ rcmds2) b3) in
  List.length (activeSessions (runtime a3) 0) = 0%nat
  /\ List.length (activeSessions (runtime a3) 1) = 0%nat
  /\ List.length (activeSessions (runtime a4) 1) = 2%nat
  /\ map sessParent (activeSessions (runtime a4) 1) = [4; 7]%nat
  /\ logCancel a4 = Some 7%nat
  /\ List.length (activeSessions (runtime (stopLogFollowing a4)) 1) = 1%nat
  /\ List.length (activeSessions (runtime b4) 0) = 2%nat.
Proof. repeat split. Qed.

(** ** The switch protocol, one message at a time *)

Section SwitchInTurn.

Context {OpenClawStatus : Type}.
Context {HealthCheckResult : Type}.
Variable Gateway : OpenClawStatus -> option GatewayStatus.
Variable cmd_Output : Command -> ExecResult.
Variable status_unmarshal : string -> result OpenClawStatus.
Variable GetHealthSnapshot :
  CLIAdapter OpenClawStatus ->
  CLIAdapter OpenClawStatus * result HealthCheckResult.
Variable cmd_Start : Command -> LaunchResult.

Local Abbreviation App := (App OpenClawStatus HealthCheckResult).
Local Abbreviation exec :=
  (@run OpenClawStatus HealthCheckResult cmd_Output status_unmarshal
     GetHealthSnapshot cmd_Start).
Local Abbreviation execAll :=
  (@run_all OpenClawStatus HealthCheckResult cmd_Output status_unmarshal
     GetHealthSnapshot cmd_Start).

(** The invariant speaks of the runtime and of the cancel function the
    application holds, and of nothing else. *)
Lemma session_invariant_ext (a b : App) :
  runtime b = runtime a -> logCancel b = logCancel a ->
  session_invariant a -> session_invariant b.
Proof. unfold session_invariant. intros -> ->. auto. Qed.

(** Every command but the start leaves both as they are. *)
Lemma run_frame (now : Time) (c : Cmd) (a : App) :
  c <> startLogFollowing ->
  runtime (fst (exec now c a)) = runtime a
  /\ logCancel (fst (exec now c a)) = logCancel a.
Proof.
  intros Hc. destruct c; try congruence; simpl.
  - unfold run_fetchCLIStatus.
    destruct (currentIndex a), (getCurrentAdapter a); try (split; reflexivity).
    destruct (GetFullStatus _ _ _ _) as [c0 r]. destruct r; split; reflexivity.
  - unfold run_fetchCLIHealth.
    destruct (currentIndex a), (getCurrentAdapter a); try (split; reflexivity).
    destruct (GetHealthSnapshot _) as [c0 r]. destruct r; split; reflexivity.
  - unfold run_waitForCLILog. destruct (logChan a); split; reflexivity.
  - split; reflexivity.
Qed.

Lemma run_frame_invariant (now : Time) (c : Cmd) (a : App) :
  c <> startLogFollowing ->
  session_invariant a -> session_invariant (fst (exec now c a)).
Proof.
  intros Hc. destruct (run_frame now c a Hc) as [Hr Hl].
  now apply session_invariant_ext.
Qed.

Lemma run_frame_quiet (now : Time) (c : Cmd) (a : App) :
  c <> startLogFollowing -> quiet a -> quiet (fst (exec now c a)).
Proof.
  intros Hc. destruct (run_frame now c a Hc) as [Hr _].
  unfold quiet. now rewrite Hr.
Qed.

Lemma stopLogFollowing_fields (a : App) :
  sessions (runtime (stopLogFollowing a)) = sessions (runtime a)
  /\ nextId (runtime (stopLogFollowing a)) = nextId (runtime a)
  /\ logCancel (stopLogFollowing a) = logCancel a
  /\ cancelled (runtime (stopLogFollowing a))
     = match logCancel a with
       | Some c => c :: cancelled (runtime a)
       | None => cancelled (runtime a)
       end.
Proof.
  unfold stopLogFollowing. simpl.
  destruct (logCancel a) eqn:E1, (logChan a) eqn:E2; simpl; rewrite ?E1;
    repeat split.
Qed.

(** Cancelling one more context stops sessions, and starts none. *)
Lemma running_cancel (rt rt' : Runtime) (s : Session) (c : nat) :
  cancelled rt' = c :: cancelled rt ->
  running rt' s = running rt s && negb (sessCtx s =? c)%nat
                  && negb (sessParent s =? c)%nat.
Proof.
  intros H. unfold running, is_cancelled. rewrite H. simpl.
  rewrite !negb_orb.
  destruct (sessCtx s =? c)%nat, (sessParent s =? c)%nat,
    (existsb (Nat.eqb (sessCtx s)) (cancelled rt)),
    (existsb (Nat.eqb (sessParent s)) (cancelled rt)); reflexivity.
Qed.

(** [stopLogFollowing] leaves no session running. *)
Lemma stopLogFollowing_quiet (a : App) :
  session_invariant a ->
  session_invariant (stopLogFollowing a) /\ quiet (stopLogFollowing a).
Proof.
  intros (H1 & H2 & H3).
  destruct (stopLogFollowing_fields a) as (Es & En & El & Ec).
  assert (Hq : quiet (stopLogFollowing a)).
  { intros s Hs. rewrite Es in Hs.
    destruct (logCancel a) as [c|] eqn:E.
    - rewrite (running_cancel (runtime a) _ s c Ec).
      destruct (running (runtime a) s) eqn:Er; [|reflexivity].
      specialize (H1 s Hs Er). inversion H1; subst.
      rewrite Nat.eqb_refl. simpl. apply andb_false_r.
    - destruct (running (runtime a) s) eqn:Er.
      + specialize (H1 s Hs Er). discriminate.
      + unfold running, is_cancelled in *. now rewrite Ec. }
  split; [|exact Hq].
  unfold session_invariant. rewrite Es, En. split; [|split]; auto.
  intros s Hs Hr. rewrite (Hq s) in Hr; [discriminate | now rewrite Es].
Qed.

(** A start from a state without running session. *)
Lemma startLogFollowing_invariant (now : Time) (a : App) :
  session_invariant a -> quiet a ->
  session_invariant (fst (exec now startLogFollowing a)).
Proof.
  intros (H1 & H2 & H3) Hq. simpl. unfold run_startLogFollowing.
  destruct (currentIndex a) as [i|]; [|now repeat split].
  destruct (getCurrentAdapter a) as [adapter|]; [|now repeat split].
  unfold FollowLogs. simpl.
  assert (Hold : forall s, In s (sessions (runtime a)) ->
                           running
                             (mkRuntime (S (S (S (nextId (runtime a)))))
                                (cancelled (runtime a)) (sessions (runtime a))
                                (drained (runtime a))) s = false)
    by (intros s Hs; exact (Hq s Hs)).
  destruct (cmd_Start (followCommand adapter)); simpl;
    unfold session_invariant; simpl.
  - (* started *)
    split; [|split].
    + intros s Hs Hr. apply in_app_or in Hs. destruct Hs as [Hs|[<-|[]]].
      * specialize (Hq s Hs). unfold running, is_cancelled in *.
        simpl in Hr. congruence.
      * reflexivity.
    + rewrite map_app. simpl. apply NoDup_app.
      * exact H2.
      * constructor; [intros [] | constructor].
      * intros x Hx [<-|[]]. apply in_map_iff in Hx.
        destruct Hx as (s & Hs1 & Hs2). specialize (H3 s Hs2). lia.
    + intros s Hs. apply in_app_or in Hs. destruct Hs as [Hs|[<-|[]]].
      * specialize (H3 s Hs). lia.
      * simpl. lia.
  - split; [|split]; [| exact H2 |].
    + intros s Hs Hr. specialize (Hq s Hs). unfold running, is_cancelled in *.
      simpl in Hr. congruence.
    + intros s Hs. specialize (H3 s Hs). lia.
  - split; [|split]; [| exact H2 |].
    + intros s Hs Hr. specialize (Hq s Hs). unfold running, is_cancelled in *.
      simpl in Hr. congruence.
    + intros s Hs. specialize (H3 s Hs). lia.
  - split; [|split]; [| exact H2 |].
    + intros s Hs Hr. specialize (Hq s Hs). unfold running, is_cancelled in *.
      simpl in Hr. congruence.
    + intros s Hs. specialize (H3 s Hs). lia.
Qed.

Lemma run_all_cons (now : Time) (c : Cmd) (cmds : list Cmd) (a : App) :
  fst (execAll now (c :: cmds) a) = fst (execAll now cmds (fst (exec now c a))).
Proof.
  simpl. destruct (run _ _ _ _ now c a) as [a1 o]. simpl.
  destruct (run_all _ _ _ _ now cmds a1) as [a2 os]. reflexivity.
Qed.

Lemma run_all_nil (now : Time) (a : App) : fst (execAll now [] a) = a.
Proof. reflexivity. Qed.

(** The commands of a switch: two fetches, then the start. *)
Lemma switch_commands_invariant (now : Time) (a : App) :
  session_invariant a -> quiet a ->
  session_invariant
    (fst (execAll now [fetchCLIStatus; fetchCLIHealth; startLogFollowing] a)).
Proof.
  intros Hi Hq. rewrite !run_all_cons, run_all_nil.
  apply startLogFollowing_invariant.
  - apply run_frame_invariant; [discriminate|].
    apply run_frame_invariant; [discriminate | exact Hi].
  - apply run_frame_quiet; [discriminate|].
    apply run_frame_quiet; [discriminate | exact Hq].
Qed.

Lemma other_commands_invariant (now : Time) (cmds : list Cmd) (a : App) :
  Forall (fun c => c <> startLogFollowing) cmds ->
  session_invariant a -> session_invariant (fst (execAll now cmds a)).
Proof.
  intros Hc. revert a. induction Hc as [|c cmds Hc _ IH]; intros a Hi.
  - exact Hi.
  - rewrite run_all_cons. apply IH. now apply run_frame_invariant.
Qed.

(** The first batch, run on an application without session. *)
Lemma Init_invariant (now : Time) (a : App) :
  sessions (runtime a) = [] ->
  session_invariant (fst (execAll now (snd (Init a)) (fst (Init a)))).
Proof.
  intros Hs. unfold Init. cbn [fst snd].
  assert (Hi : session_invariant a)
    by (unfold session_invariant; rewrite Hs; simpl;
        repeat split; try constructor; intros s []).
  assert (Hq : quiet a) by (unfold quiet; rewrite Hs; intros s []).
  rewrite !run_all_cons, run_all_nil.
  apply run_frame_invariant; [discriminate|].
  apply startLogFollowing_invariant.
  - apply run_frame_invariant; [discriminate|].
    apply run_frame_invariant; [discriminate | exact Hi].
  - apply run_frame_quiet; [discriminate|].
    apply run_frame_quiet; [discriminate | exact Hq].
Qed.

Lemma switchInstance_invariant (now : Time) (a : App) :
  session_invariant a ->
  session_invariant
    (fst (execAll now (snd (switchInstance a)) (fst (switchInstance a)))).
Proof.
  intros Hi. unfold switchInstance. simpl fst. simpl snd.
  match goal with
  | |- context [stopLogFollowing ?b] =>
      destruct (stopLogFollowing_quiet b) as [Hs Hq];
        [now apply (session_invariant_ext a) |]
  end.
  now apply switch_commands_invariant.
Qed.

(** Handled in turn, every message keeps the invariant. *)
Lemma handle_invariant (now : Time) (msg : Msg OpenClawStatus HealthCheckResult)
    (a : App) :
  session_invariant a ->
  session_invariant
    (handle Gateway cmd_Output status_unmarshal GetHealthSnapshot cmd_Start
       now msg a).
Proof.
  intros Hi. unfold handle.
  destruct msg as [[| | |] | status err | res err | event |]; simpl.
  - (* up *)
    destruct (focusedPane a); [|exact Hi].
    destruct (_ && _); [|exact Hi].
    apply (switchInstance_invariant now
             (set_selectedInstance (selectedInstance a - 1) a)).
    now apply (session_invariant_ext a).
  - (* down *)
    destruct (focusedPane a); [|exact Hi].
    destruct (_ && _); [|exact Hi].
    apply (switchInstance_invariant now
             (set_selectedInstance (selectedInstance a + 1) a)).
    now apply (session_invariant_ext a).
  - (* enter *)
    destruct (focusedPane a); [|exact Hi].
    apply (other_commands_invariant now [fetchCLIStatus; fetchCLIHealth]).
    + repeat constructor; discriminate.
    + now apply (session_invariant_ext a).
  - (* reconnect *)
    destruct (getCurrentAdapter a); [|exact Hi].
    destruct (stopLogFollowing_quiet a Hi) as [Hs Hq].
    now apply switch_commands_invariant.
  - destruct err as [e|]; [now apply (session_invariant_ext a)|].
    destruct status as [st|]; [|exact Hi].
    destruct (Gateway st); now apply (session_invariant_ext a).
  - destruct err; [exact Hi | now apply (session_invariant_ext a)].
  - assert (He : session_invariant (appendLog event a)).
    { apply (session_invariant_ext a); try reflexivity; try exact Hi;
        unfold appendLog; simpl; now destruct (_ <? _)%Z. }
    change (logFollowing (appendLog event a)) with (logFollowing a).
    destruct (logFollowing a).
    + apply (other_commands_invariant now [waitForCLILog]); [|exact He].
      repeat constructor; discriminate.
    + exact He.
  - destruct (getCurrentAdapter a).
    + apply (other_commands_invariant now [fetchCLIStatus; scheduleRefresh]);
        [|exact Hi]. repeat constructor; discriminate.
    + apply (other_commands_invariant now [scheduleRefresh]); [|exact Hi].
      repeat constructor; discriminate.
Qed.

Lemma filter_same_key {A : Type} (f : A -> nat) (P : A -> bool) (p : nat)
    (l : list A) :
  NoDup (map f l) -> (forall x, In x l -> P x = true -> f x = p) ->
  (List.length (filter P l) <= 1)%nat.
Proof.
  induction l as [|x l IH]; intros Hn Hp; simpl; [lia|].
  inversion Hn as [|y m Hx Hn']; subst.
  destruct (P x) eqn:E.
  - assert (Hnil : filter P l = []).
    { destruct (filter P l) as [|z r] eqn:Ef; [reflexivity|].
      assert (Hz : In z (filter P l)) by (rewrite Ef; now left).
      apply filter_In in Hz. destruct Hz as [Hz1 Hz2].
      exfalso. apply Hx. apply in_map_iff. exists z. split; [|exact Hz1].
      rewrite (Hp z (or_intror Hz1) Hz2), (Hp x (or_introl eq_refl) E).
      reflexivity. }
    rewrite Hnil. simpl. lia.
  - apply IH; [exact Hn'|]. intros z Hz. apply Hp. now right.
Qed.

(** Under the invariant at most one follow session is active in all,
    hence at most one for each instance. *)
Lemma session_invariant_at_most_one (a : App) (i : nat) :
  session_invariant a -> (List.length (activeSessions (runtime a) i) <= 1)%nat.
Proof.
  intros (H1 & H2 & _). unfold activeSessions.
  destruct (logCancel a) as [p|] eqn:E.
  - apply (filter_same_key sessParent _ p); [exact H2|].
    intros s Hs Hr. apply andb_true_iff in Hr. destruct Hr as [Hr _].
    specialize (H1 s Hs Hr). congruence.
  - apply (filter_same_key sessParent _ 0%nat); [exact H2|].
    intros s Hs Hr. apply andb_true_iff in Hr. destruct Hr as [Hr _].
    specialize (H1 s Hs Hr). discriminate.
Qed.

End SwitchInTurn.

(** ** The follow session *)

Section FollowSessionFacts.

Variable json_unmarshal : string -> option JsonLog.
Variable time_parse_rfc3339 : string -> option Time.

Local Abbreviation step := (follow_step json_unmarshal time_parse_rfc3339).
Local Abbreviation steps := (follow_steps json_unmarshal time_parse_rfc3339).

(** After the cancellation the subprocess is gone and writes no more. *)
Lemma stop_kills (s : FollowState) :
  ctxDone (stop s) = true /\ procAlive (stop s) = false.
Proof. split; reflexivity. Qed.

(** A reader that holds a line is never stuck after the cancellation:
    the [ctx.Done()] case of its [select] is ready, even when the channel
    is full. *)
Lemma stop_unblocks_stdout (s : FollowState) (line : string) (rest : list string) :
  stdoutReader s = true -> stdoutLines s = line :: rest -> line <> "" ->
  exists s', step (stop s) s' /\ stdoutReader s' = false /\ sent s' = sent s.
Proof.
  intros Hr Hl Hne. eexists. split; [|split].
  - apply (stdout_done _ _ (stop s) line rest); auto.
  - reflexivity.
  - reflexivity.
Qed.

(** C4 (the code departs from it): a line the subprocess wrote before
    [stop] is still sent on the channel after [stop], and returned to
    the application as a log message: with the context cancelled and
    room in the channel, both cases of the reader's [select] are ready,
    and so are both cases of the waiting closure's. *)
Theorem stop_then_event_delivered (now : Time) :
  let line := "[WARN] disk low" in
  let event := parseLogLine json_unmarshal time_parse_rfc3339 now line in
  let s0 := mkFollowState false true [line] [] true true [] true false [] [] in
  let s1 := stopAndDrain s0 in
  step startedSession s0
  /\ ctxDone s1 = true /\ procAlive s1 = false
  /\ sent s1 = [] /\ delivered s1 = []
  /\ exists s2, steps s1 s2 /\ sent s2 = [event] /\ delivered s2 = [event].
Proof.
  intros line event s0 s1.
  split; [apply (proc_stdout _ _ startedSession line); reflexivity|].
  repeat (split; [reflexivity|]).
  eexists. split; [|split].
  - eapply steps_cons.
    + apply (stdout_send _ _ s1 now line []);
        [reflexivity | reflexivity | discriminate | simpl; unfold logChanCap; lia].
    + eapply steps_cons; [|apply steps_refl].
      eapply wait_receive; reflexivity.
  - reflexivity.
  - reflexivity.
Qed.

End FollowSessionFacts.

(** ** The helpers of the rendering code *)

(** ** The helpers of the rendering code *)

Lemma substring_length (i n : nat) (s : string) :
  (i + n <= String.length s)%nat -> String.length (substring i n s) = n.
Proof.
  revert i n. induction s as [|c s IH]; intros i n H; simpl in H.
  - assert (i = 0 /\ n = 0)%nat as [-> ->] by lia. reflexivity.
  - destruct i as [|i]; simpl.
    + destruct n as [|n]; [reflexivity|]. simpl. f_equal.
      apply (IH 0%nat n). lia.
    + apply IH. lia.
Qed.

Lemma substring_split (i : nat) (s : string) :
  (i <= String.length s)%nat ->
  s = substring 0 i s ++ substring i (String.length s - i) s.
Proof.
  revert i. induction s as [|c s IH]; intros i H; simpl in H.
  - assert (i = 0)%nat as -> by lia. reflexivity.
  - destruct i as [|i]; simpl.
    + f_equal. symmetry. apply substring_all.
    + f_equal. apply IH. lia.
Qed.

Lemma len_nonneg (s : string) : (0 <= len s)%Z.
Proof. unfold len. lia. Qed.

Lemma len_app (a b : string) : len (a ++ b) = (len a + len b)%Z.
Proof. unfold len. rewrite str_length_app. lia. Qed.

(** X1: [truncate] with a width that is not negative returns a string
    of at most that many bytes: the string itself when it fits, its
    first bytes followed by "..." when it does not and the width is over
    3.  With a negative width it panics, whatever the string. *)
Theorem truncate_bounds (s : string) (maxLen : Z) :
  ((0 <= maxLen)%Z ->
   exists r, truncate s maxLen = Some r
             /\ (len r <= maxLen)%Z
             /\ ((len s <= maxLen)%Z -> r = s)
             /\ ((maxLen < len s)%Z ->
                 len r = maxLen
                 /\ ((3 < maxLen)%Z ->
                     exists rest, s = substring 0 (Z.to_nat (maxLen - 3)) s ++ rest
                                  /\ r = substring 0 (Z.to_nat (maxLen - 3)) s ++ "...")))
  /\ ((maxLen < 0)%Z -> truncate s maxLen = None).
Proof.
  pose proof (len_nonneg s) as Hs. unfold truncate, slice_to. split.
  - intros H0.
    destruct (len s <=? maxLen)%Z eqn:E1.
    + apply Z.leb_le in E1. exists s. repeat split; auto; lia.
    + apply Z.leb_gt in E1.
      destruct (maxLen <=? 3)%Z eqn:E2.
      * apply Z.leb_le in E2.
        replace ((0 <=? maxLen)%Z && (maxLen <=? len s)%Z) with true
          by (symmetry; apply andb_true_iff; split; apply Z.leb_le; lia).
        assert (Hl : String.length (substring 0 (Z.to_nat maxLen) s) = Z.to_nat maxLen)
          by (apply substring_length; unfold len in *; lia).
        assert (Hl' : len (substring 0 (Z.to_nat maxLen) s) = maxLen)
          by (unfold len; rewrite Hl; lia).
        eexists. split; [reflexivity|]. rewrite Hl'.
        repeat split; try lia; try (intros; lia).
      * apply Z.leb_gt in E2.
        replace ((0 <=? maxLen - 3)%Z && (maxLen - 3 <=? len s)%Z) with true
          by (symmetry; apply andb_true_iff; split; apply Z.leb_le; lia).
        assert (Hl : String.length (substring 0 (Z.to_nat (maxLen - 3)) s)
                     = Z.to_nat (maxLen - 3))
          by (apply substring_length; unfold len in *; lia).
        assert (Hl' : len (substring 0 (Z.to_nat (maxLen - 3)) s) = (maxLen - 3)%Z)
          by (unfold len; rewrite Hl; lia).
        eexists. split; [reflexivity|].
        rewrite len_app, Hl'. change (len "...") with 3%Z.
        repeat split; try lia; try (intros; lia).
        intros _. eexists. split; [|reflexivity].
        apply substring_split. unfold len in *. lia.
  - intros Hn.
    replace (len s <=? maxLen)%Z with false by (symmetry; apply Z.leb_gt; lia).
    replace (maxLen <=? 3)%Z with true by (symmetry; apply Z.leb_le; lia).
    replace (0 <=? maxLen)%Z with false by (symmetry; apply Z.leb_gt; lia).
    reflexivity.
Qed.

Lemma truncate_bounds_witness :
  exists r, truncate "gateway restarted after configuration reload" 20 = Some r
            /\ (len r <= 20)%Z.
Proof.
  destruct (truncate_bounds "gateway restarted after configuration reload" 20)
    as (H & _).
  destruct (H ltac:(lia)) as (r & Hr & Hl & _).
  exists r. split; [exact Hr | exact Hl].
Defined.

(** X2: [truncatePath] with a width that is not negative returns at most
    that many bytes and keeps the end of the path: the path itself when
    it fits, otherwise exactly [maxLen] bytes, which are the last bytes
    of the path, after "..." when the width is over 6.  With a negative
    width it panics. *)
Theorem truncatePath_keeps_end (path : string) (maxLen : Z) :
  ((0 <= maxLen)%Z ->
   exists r, truncatePath path maxLen = Some r
             /\ (len r <= maxLen)%Z
             /\ ((len path <= maxLen)%Z -> r = path)
             /\ ((maxLen < len path)%Z ->
                 len r = maxLen
                 /\ exists head tail,
                      path = head ++ tail
                      /\ r = (if (maxLen <=? 6)%Z then "" else "...") ++ tail))
  /\ ((maxLen < 0)%Z -> truncatePath path maxLen = None).
Proof.
  pose proof (len_nonneg path) as Hs. unfold truncatePath, slice_off. split.
  - intros H0.
    destruct (len path <=? maxLen)%Z eqn:E1.
    + apply Z.leb_le in E1. exists path. repeat split; auto; lia.
    + apply Z.leb_gt in E1.
      destruct (maxLen <=? 6)%Z eqn:E2.
      * apply Z.leb_le in E2.
        replace ((0 <=? len path - maxLen)%Z && (len path - maxLen <=? len path)%Z)
          with true
          by (symmetry; apply andb_true_iff; split; apply Z.leb_le; lia).
        set (lo := Z.to_nat (len path - maxLen)).
        assert (Hlo : (lo <= String.length path)%nat) by (unfold lo, len in *; lia).
        assert (Hl : String.length (substring lo (String.length path - lo) path)
                     = (String.length path - lo)%nat)
          by (apply substring_length; lia).
        assert (Hl' : len (substring lo (String.length path - lo) path) = maxLen)
          by (unfold len in *; rewrite Hl; unfold lo; lia).
        eexists. split; [reflexivity|]. rewrite Hl'.
        repeat split; try lia; try (intros; lia).
        exists (substring 0 lo path), (substring lo (String.length path - lo) path).
        split; [now apply substring_split | reflexivity].
      * apply Z.leb_gt in E2.
        replace ((0 <=? len path - maxLen + 3)%Z
                 && (len path - maxLen + 3 <=? len path)%Z) with true
          by (symmetry; apply andb_true_iff; split; apply Z.leb_le; lia).
        set (lo := Z.to_nat (len path - maxLen + 3)).
        assert (Hlo : (lo <= String.length path)%nat) by (unfold lo, len in *; lia).
        assert (Hl : String.length (substring lo (String.length path - lo) path)
                     = (String.length path - lo)%nat)
          by (apply substring_length; lia).
        assert (Hl' : len (substring lo (String.length path - lo) path)
                      = (maxLen - 3)%Z)
          by (unfold len in *; rewrite Hl; unfold lo; lia).
        eexists. split; [reflexivity|].
        rewrite len_app, Hl'. change (len "...") with 3%Z.
        repeat split; try lia; try (intros; lia).
        exists (substring 0 lo path), (substring lo (String.length path - lo) path).
        split; [now apply substring_split | reflexivity].
  - intros Hn.
    replace (len path <=? maxLen)%Z with false by (symmetry; apply Z.leb_gt; lia).
    replace (maxLen <=? 6)%Z with true by (symmetry; apply Z.leb_le; lia).
    replace (len path - maxLen <=? len path)%Z with false
      by (symmetry; apply Z.leb_gt; lia).
    now rewrite andb_false_r.
Qed.

Lemma truncatePath_keeps_end_witness :
  exists r, truncatePath "/home/ops/projects/openclaw/workspace" 16 = Some r
            /\ (len r <= 16)%Z.
Proof.
  destruct (truncatePath_keeps_end "/home/ops/projects/openclaw/workspace" 16)
    as (H & _).
  destruct (H ltac:(lia)) as (r & Hr & Hl & _).
  exists r. split; [exact Hr | exact Hl].
Defined.

Lemma substring_prefix_eq (sub s : string) :
  substring 0 (String.length sub) s = sub -> exists post, s = sub ++ post.
Proof.
  revert s. induction sub as [|c sub IH]; intros s H.
  - exists s. reflexivity.
  - destruct s as [|d s]; simpl in H; [discriminate|].
    inversion H; subst. destruct (IH s H2) as (post & ->).
    exists post. simpl. now rewrite H2.
Qed.

Lemma substring_eq_split (j : nat) (s sub : string) :
  substring j (String.length sub) s = sub ->
  exists pre post, s = pre ++ sub ++ post.
Proof.
  revert j. induction s as [|c s IH]; intros j H.
  - destruct j; simpl in H.
    + destruct sub; [|discriminate H]. now exists "", "".
    + subst. now exists "", "".
  - destruct j as [|j].
    + destruct (substring_prefix_eq sub (String c s) H) as (post & ->).
      now exists "", post.
    + simpl in H. destruct (IH j H) as (pre & post & ->).
      now exists (String c pre), post.
Qed.

Lemma containsImpl_loop_true (s substr : string) (i n : nat) :
  containsImpl_loop s substr i n = true <->
  exists j, (i <= j < i + n)%nat /\ slice s j (j + String.length substr) = substr.
Proof.
  revert i. induction n as [|n IH]; intros i; simpl.
  - split; [discriminate | intros (j & Hj & _); lia].
  - destruct (slice s i (i + String.length substr) =? substr) eqn:E.
    + apply String.eqb_eq in E. split; [|reflexivity].
      intros _. exists i. split; [lia | exact E].
    + rewrite IH. apply String.eqb_neq in E. split.
      * intros (j & Hj & H). exists j. split; [lia | exact H].
      * intros (j & Hj & H). exists j. split; [|exact H].
        destruct (Nat.eq_dec j i) as [->|]; [contradiction | lia].
Qed.

(** X3: the hand-written [contains] is the substring test: it answers
    true exactly when the string reads [pre ++ substr ++ post]. *)
Theorem contains_substring (s substr : string) :
  contains s substr = true <-> exists pre post, s = pre ++ substr ++ post.
Proof.
  unfold contains, containsImpl. split.
  - intros H. apply andb_true_iff in H. destruct H as [Hl H].
    apply Nat.leb_le in Hl.
    apply orb_true_iff in H. destruct H as [H|H].
    + apply String.eqb_eq in H. subst. exists "", "".
      now rewrite str_app_nil_r.
    + apply andb_true_iff in H. destruct H as [_ H].
      replace (String.length s <? String.length substr)%nat with false in H
        by (symmetry; apply Nat.ltb_ge; lia).
      apply containsImpl_loop_true in H. destruct H as (j & _ & H).
      unfold slice in H.
      replace (j + String.length substr - j)%nat with (String.length substr) in H by lia.
      destruct (substring_eq_split j s substr H) as (pre & post & Hs).
      now exists pre, post.
  - intros (pre & post & ->).
    rewrite !str_length_app.
    apply andb_true_iff. split; [apply Nat.leb_le; lia|].
    destruct ((pre ++ substr ++ post) =? substr) eqn:E; [reflexivity|]. simpl.
    destruct (String.length pre + (String.length substr + String.length post) =? 0)%nat
      eqn:E0.
    + apply Nat.eqb_eq in E0.
      destruct pre, substr, post; simpl in *; try lia; discriminate.
    + simpl.
      replace (String.length pre + (String.length substr + String.length post)
               <? String.length substr)%nat with false
        by (symmetry; apply Nat.ltb_ge; lia).
      apply containsImpl_loop_true. exists (String.length pre).
      split; [lia|]. apply slice_app.
Qed.

Lemma contains_substring_witness :
  contains "active (running)" "running" = true
  /\ exists pre post, "stopped" = pre ++ "stop" ++ post.
Proof.
  split.
  - apply (proj2 (contains_substring "active (running)" "running")).
    exists "active (", ")". reflexivity.
  - apply (proj1 (contains_substring "stopped" "stop")). reflexivity.
Defined.

(** *** Words *)

Lemma no_sep_spec (w : string) :
  no_sep w = true <-> forall c, word_sep c = true -> IndexByte w c = None.
Proof.
  induction w as [|a w IH]; simpl.
  - split; auto.
  - rewrite andb_true_iff, negb_true_iff, IH. split.
    + intros [Ha Hw] c Hc.
      destruct (Ascii.eqb a c) eqn:E;
        [apply Ascii.eqb_eq in E; subst; congruence|].
      now rewrite (Hw c Hc).
    + intros H. split.
      * destruct (word_sep a) eqn:E; [|reflexivity].
        specialize (H a E). now rewrite Ascii.eqb_refl in H.
      * intros c Hc. specialize (H c Hc).
        destruct (Ascii.eqb a c); [discriminate|].
        now destruct (IndexByte w c).
Qed.

Lemma is_word_spec (w : string) : is_word w = true <-> word_prop w.
Proof.
  unfold is_word, word_prop.
  rewrite andb_true_iff, negb_true_iff, no_sep_spec, String.eqb_neq. tauto.
Qed.

Lemma splitWords_loop_app (text current : string) (words : list string) :
  splitWords_loop text current words
  = (words ++ splitWords_loop text current [])%list.
Proof.
  revert current words. induction text as [|r text IH]; intros current words; simpl.
  - destruct (negb (current =? "")); [reflexivity | now rewrite app_nil_r].
  - destruct (word_sep r); [destruct (negb (current =? ""))|].
    + rewrite IH, (IH "" [current]). now rewrite app_assoc.
    + apply IH.
    + apply IH.
Qed.

Lemma IndexByte_snoc (w : string) (c r : ascii) :
  IndexByte w c = None -> Ascii.eqb r c = false ->
  IndexByte (w ++ String r "") c = None.
Proof.
  induction w as [|a w IH]; simpl; intros H E.
  - now rewrite E.
  - destruct (Ascii.eqb a c); [discriminate|].
    destruct (IndexByte w c); [discriminate|]. now rewrite IH.
Qed.

Lemma word_sep_eqb (r c : ascii) :
  word_sep r = false -> word_sep c = true -> Ascii.eqb r c = false.
Proof.
  intros Hr Hc. destruct (Ascii.eqb r c) eqn:E; [|reflexivity].
  apply Ascii.eqb_eq in E. subst. congruence.
Qed.

Lemma app_cons_not_nil (w : string) (r : ascii) : w ++ String r "" <> "".
Proof. destruct w; discriminate. Qed.

(** Every word [splitWords] returns is a word: not empty, and free of
    separators. *)
Lemma splitWords_loop_words (text current : string) (words : list string) :
  (current = "" \/ word_prop current) -> Forall word_prop words ->
  Forall word_prop (splitWords_loop text current words).
Proof.
  revert current words. induction text as [|r text IH]; intros current words Hc Hw; simpl.
  - destruct (current =? "") eqn:E; simpl; [exact Hw|].
    apply String.eqb_neq in E. destruct Hc as [Hc|Hc]; [contradiction|].
    apply Forall_app. split; [exact Hw | now constructor].
  - destruct (word_sep r) eqn:Er.
    + destruct (current =? "") eqn:E; simpl.
      * apply IH; [|exact Hw]. apply String.eqb_eq in E. now left.
      * apply String.eqb_neq in E. destruct Hc as [Hc|Hc]; [contradiction|].
        apply IH; [now left|]. apply Forall_app. split; [exact Hw | now constructor].
    + apply IH; [|exact Hw]. right. split; [apply app_cons_not_nil|].
      intros c Hcs. apply IndexByte_snoc; [|now apply word_sep_eqb].
      destruct Hc as [->|[_ Hc]]; [reflexivity | now apply Hc].
Qed.

Lemma splitWords_words (text : string) : Forall word_prop (splitWords text).
Proof. apply splitWords_loop_words; [now left | constructor]. Qed.

(** A word read after the current one extends it. *)
Lemma splitWords_loop_word (w current : string) (words : list string) :
  (forall c, word_sep c = true -> IndexByte w c = None) -> current ++ w <> "" ->
  splitWords_loop w current words = (words ++ [(current ++ w)%string])%list.
Proof.
  revert current. induction w as [|r w IH]; intros current Hw Hne; simpl.
  - rewrite str_app_nil_r in *.
    destruct (current =? "") eqn:E; [apply String.eqb_eq in E; contradiction|].
    reflexivity.
  - assert (Er : word_sep r = false).
    { destruct (word_sep r) eqn:E; [|reflexivity].
      specialize (Hw r E). simpl in Hw. now rewrite Ascii.eqb_refl in Hw. }
    rewrite Er. rewrite IH.
    + now rewrite str_app_assoc.
    + intros c Hc. specialize (Hw c Hc). simpl in Hw.
      destruct (Ascii.eqb r c); [discriminate|].
      now destruct (IndexByte w c).
    + rewrite str_app_assoc. simpl. destruct current; discriminate.
Qed.

(** A word put after a space is one more word. *)
Lemma splitWords_loop_snoc (a w current : string) (words : list string) :
  word_prop w ->
  splitWords_loop (a ++ String " " w) current words
  = (splitWords_loop a current words ++ [w])%list.
Proof.
  intros [Hne Hw]. revert current words.
  induction a as [|r a IH]; intros current words; simpl.
  - destruct (current =? "") eqn:E; simpl.
    + apply String.eqb_eq in E. subst.
      now rewrite (splitWords_loop_word w "" _ Hw Hne).
    + now rewrite (splitWords_loop_word w "" _ Hw Hne).
  - destruct (word_sep r); [destruct (negb (current =? ""))|]; apply IH.
Qed.

Lemma splitWords_snoc (a w : string) :
  word_prop w -> splitWords (a ++ String " " w) = (splitWords a ++ [w])%list.
Proof. intros H. unfold splitWords. now apply splitWords_loop_snoc. Qed.

Lemma splitWords_word (w : string) : word_prop w -> splitWords w = [w].
Proof.
  intros [Hne Hw]. unfold splitWords.
  now rewrite (splitWords_loop_word w "" [] Hw Hne).
Qed.

(** The loop of [wrapText] keeps the words, in their order. *)
Lemma wrapText_loop_words (maxWidth : Z) (words : list string) :
  Forall word_prop words ->
  forall currentLine lines,
    flat_map splitWords (wrapText_loop words maxWidth currentLine lines)
    = (flat_map splitWords lines ++ splitWords currentLine ++ words)%list.
Proof.
  induction 1 as [|w words Hw Hws IH]; intros currentLine lines; simpl.
  - destruct (currentLine =? "") eqn:E; simpl.
    + apply String.eqb_eq in E. subst. simpl. now rewrite app_nil_r.
    + rewrite flat_map_app. simpl. now rewrite !app_nil_r.
  - destruct (currentLine =? "") eqn:E.
    + apply String.eqb_eq in E. subst. rewrite IH.
      now rewrite (splitWords_word w Hw).
    + destruct (_ <=? _)%Z.
      * rewrite IH, (splitWords_snoc currentLine w Hw).
        now rewrite <- !app_assoc.
      * rewrite IH, flat_map_app, (splitWords_word w Hw). simpl.
        now rewrite app_nil_r, <- !app_assoc.
Qed.

(** The loop of [wrapText] makes lines that fit, or hold one word. *)
Lemma wrapText_loop_lines (maxWidth : Z) (all : list string) (words : list string) :
  Forall (fun w => w <> "" /\ In w all) words ->
  forall currentLine lines,
    let ok line := line <> "" /\ ((len line <= maxWidth)%Z \/ In line all) in
    (currentLine = "" \/ ok currentLine) -> Forall ok lines ->
    Forall ok (wrapText_loop words maxWidth currentLine lines).
Proof.
  induction 1 as [|w words [Hw Hin] Hws IH]; intros currentLine lines ok Hc Hl; simpl.
  - destruct (currentLine =? "") eqn:E; simpl; [exact Hl|].
    apply String.eqb_neq in E. destruct Hc as [Hc|Hc]; [contradiction|].
    apply Forall_app. split; [exact Hl | now constructor].
  - destruct (currentLine =? "") eqn:E.
    + apply IH; [|exact Hl]. right. split; auto.
    + apply String.eqb_neq in E. destruct Hc as [Hc|Hc]; [contradiction|].
      destruct (_ <=? _)%Z eqn:Ef.
      * apply IH; [|exact Hl]. right. apply Z.leb_le in Ef. split.
        -- destruct currentLine; [contradiction | discriminate].
        -- left. unfold len in *. rewrite str_length_app. simpl String.length. lia.
      * apply IH; [right; split; auto|].
        apply Forall_app. split; [exact Hl | now constructor].
Qed.

(** X4: [wrapText] with a positive width loses no word and keeps their
    order; every line it returns is not empty, has no more bytes than the
    width unless it is a single word of the text, and the words of the
    lines are those of the text.  With a width of zero or less the text
    comes back as one line. *)
Theorem wrapText_lines (text : string) (maxWidth : Z) :
  ((0 < maxWidth)%Z ->
   flat_map splitWords (wrapText text maxWidth) = splitWords text
   /\ Forall (fun line =>
                line <> ""
                /\ ((len line <= maxWidth)%Z \/ In line (splitWords text)))
        (wrapText text maxWidth))
  /\ ((maxWidth <= 0)%Z -> wrapText text maxWidth = [text]).
Proof.
  unfold wrapText. split.
  - intros H. replace (maxWidth <=? 0)%Z with false by (symmetry; apply Z.leb_gt; lia).
    split.
    + rewrite wrapText_loop_words by apply splitWords_words. reflexivity.
    + apply (wrapText_loop_lines maxWidth (splitWords text)); [|now left|constructor].
      pose proof (splitWords_words text) as Hw.
      apply Forall_forall. intros w Hin. split; [|exact Hin].
      rewrite Forall_forall in Hw. now destruct (Hw w Hin).
  - intros H. now replace (maxWidth <=? 0)%Z with true by (symmetry; apply Z.leb_le; lia).
Qed.

Lemma wrapText_lines_witness :
  flat_map splitWords
    (wrapText "Gateway token is  stored in a world-readable file" 16)
  = splitWords "Gateway token is  stored in a world-readable file".
Proof.
  destruct (wrapText_lines "Gateway token is  stored in a world-readable file" 16)
    as (H & _).
  destruct (H ltac:(lia)) as (Hw & _). exact Hw.
Defined.

(** X5: [splitWords] returns words that are not empty and hold no space,
    newline or tab, and reading back words joined by single spaces gives
    the words. *)
Theorem splitWords_round_trip (text : string) (words : list string) :
  forallb is_word (splitWords text) = true
  /\ (forallb is_word words = true ->
      splitWords (String.concat " " words) = words).
Proof.
  split.
  - apply forallb_forall. intros w Hw. apply is_word_spec.
    pose proof (splitWords_words text) as H. rewrite Forall_forall in H. auto.
  - intros H.
    assert (Hall : Forall word_prop words).
    { apply Forall_forall. intros w Hw. apply is_word_spec.
      rewrite forallb_forall in H. auto. }
    clear H. induction words as [|w words IH] using rev_ind; [reflexivity|].
    apply Forall_app in Hall. destruct Hall as [Hws Hw]. inversion Hw; subst.
    specialize (IH Hws).
    destruct words as [|v words].
    + simpl. now apply splitWords_word.
    + assert (E : String.concat " " ((v :: words) ++ [w])
                  = String.concat " " (v :: words) ++ String " " w).
      { clear. revert v. induction words as [|u words IHw]; intros v.
        - reflexivity.
        - change (String.concat " " ((v :: u :: words) ++ [w]))
            with (v ++ " " ++ String.concat " " ((u :: words) ++ [w])).
          rewrite IHw.
          change (String.concat " " (v :: u :: words))
            with (v ++ " " ++ String.concat " " (u :: words)).
          rewrite !str_app_assoc. simpl. now rewrite ?str_app_assoc. }
      rewrite E, splitWords_snoc by assumption. now rewrite IH.
Qed.

Lemma splitWords_round_trip_witness :
  splitWords (String.concat " " ["disk"; "low"; "on"; "/var"])
  = ["disk"; "low"; "on"; "/var"].
Proof.
  destruct (splitWords_round_trip "" ["disk"; "low"; "on"; "/var"]) as (_ & H).
  apply H. reflexivity.
Defined.

(** *** Joining *)

Lemma formatScopes_loop_concat (scopes : list string) (s result : string) :
  formatScopes_loop scopes false (result ++ s)
  = result ++ String.concat ", " (s :: scopes).
Proof.
  revert s result. induction scopes as [|t scopes IH]; intros s result; simpl.
  - reflexivity.
  - rewrite <- str_app_assoc, IH. simpl. now rewrite !str_app_assoc.
Qed.

(** X6: [formatScopes] writes "none" for no scope, and otherwise the
    scopes with ", " between them, as [strings.Join] does. *)
Theorem formatScopes_join (scopes : list string) :
  formatScopes scopes
  = match scopes with
    | [] => "none"
    | _ => String.concat ", " scopes
    end.
Proof.
  destruct scopes as [|s scopes]; [reflexivity|].
  unfold formatScopes. simpl formatScopes_loop.
  apply (formatScopes_loop_concat scopes s "").
Qed.

(** ** The remote command line, as the shell reads it *)

Lemma sh_run_app (a b : string) (st : ShState) :
  sh_run (a ++ b) st
  = match sh_run a st with Some st' => sh_run b st' | None => None end.
Proof.
  revert st; induction a as [|c a IH]; intros st; simpl; [reflexivity|].
  destruct (sh_step st c); [apply IH | reflexivity].
Qed.






Lemma quote_byte (a : ascii) : (nat_of_ascii a =? 39)%nat = Ascii.eqb a "'"%char.
Proof. destruct a as [[] [] [] [] [] [] [] []]; reflexivity. Qed.

Lemma sh_run_quoted (s w : string) (ws : list string) :
  sh_run (ReplaceAllByte s "'"%char "'\''") (mkShState true false false (Some w) ws)
  = Some (mkShState true false false (Some (w ++ s)) ws).
Proof.
  revert w; induction s as [|a s IH]; intros w; simpl.
  - rewrite str_app_nil_r. reflexivity.
  - destruct (Ascii.eqb a "'"%char) eqn:E.
    + apply Ascii.eqb_eq in E; subst a. simpl.
      rewrite IH, str_app_assoc. reflexivity.
    + simpl. unfold sh_step; simpl. rewrite quote_byte, E.
      rewrite IH, str_app_assoc. reflexivity.
Qed.

Lemma sh_step_open (bare : bool) (cur : option string) (ws : list string) :
  sh_step (mkShState false false bare cur ws) "'"
  = Some (mkShState true false false (Some (word_or_empty cur)) ws).
Proof. reflexivity. Qed.

Lemma sh_step_close (w : option string) (ws : list string) :
  sh_step (mkShState true false false w ws) "'"
  = Some (mkShState false false false w ws).
Proof. reflexivity. Qed.


Lemma sh_run_cons (c : ascii) (s : string) (st : ShState) :
  sh_run (String c s) st
  = match sh_step st c with Some st' => sh_run s st' | None => None end.
Proof. reflexivity. Qed.

Lemma sh_run_shellQuote (s : string) (bare : bool) (cur : option string)
    (ws : list string) :
  sh_run ("'" ++ ReplaceAllByte s "'"%char "'\''" ++ "'")
         (mkShState false false bare cur ws)
  = Some (mkShState false false false (Some (word_or_empty cur ++ s)) ws).
Proof.
  change ("'" ++ ReplaceAllByte s "'"%char "'\''" ++ "'")
    with (String "'" (ReplaceAllByte s "'"%char "'\''" ++ "'")).
  rewrite sh_run_cons, sh_step_open, sh_run_app, sh_run_quoted.
  rewrite sh_run_cons, sh_step_close. reflexivity.
Qed.

(** X7: a string quoted by [shellQuote] is read back by the shell as one
    word, the string itself, whatever bytes it holds: the remote command
    line that [runSSHCommand] wraps reaches [bash -lc] unchanged. *)
Theorem shellQuote_read_back (s : string) :
  sh_words (shellQuote s) = Some [s]
  /\ sh_words ("bash -lc " ++ shellQuote s) = Some ["bash"; "-lc"; s].
Proof.
  split.
  - unfold sh_words, shellQuote. rewrite sh_run_shellQuote. reflexivity.
  - unfold sh_words, shellQuote. rewrite sh_run_app.
    change (sh_run "bash -lc " (mkShState false false true None []))
      with (Some (mkShState false false true None ["bash"; "-lc"])).
    cbv beta iota.
    rewrite sh_run_shellQuote. reflexivity.
Qed.







(** ** Text lines, command outcomes and series of status calls *)

Lemma TrimSpace_idem (s : string) : TrimSpace (TrimSpace s) = TrimSpace s.
Proof.
  unfold TrimSpace at 2. rewrite TrimSpace_TrimRightSpace.
  unfold TrimSpace.
  destruct (TrimLeftSpace_decomp s) as (w & _ & _ & H). now rewrite H.
Qed.

Lemma substring_head (n : nat) (s : string) :
  exists post, s = substring 0 n s ++ post.
Proof.
  revert n. induction s as [|c s IH]; intros n.
  - exists "". destruct n; reflexivity.
  - destruct n as [|n]; [exists (String c s); reflexivity|].
    destruct (IH n) as (post & H). exists post. simpl. now rewrite <- H.
Qed.

Lemma substring_factor (i n : nat) (s : string) :
  exists pre post, s = pre ++ substring i n s ++ post.
Proof.
  revert i. induction s as [|c s IH]; intros i.
  - exists "", "". destruct i, n; reflexivity.
  - destruct i as [|i].
    + destruct (substring_head n (String c s)) as (post & H).
      exists "", post. exact H.
    + destruct (IH i) as (pre & post & H).
      exists (String c pre), post. simpl. now rewrite <- H.
Qed.

Lemma TrimSpace_factor (s : string) :
  exists pre post, s = pre ++ TrimSpace s ++ post.
Proof.
  destruct (TrimSpace_segment s) as (a & b & _ & _ & H). now exists a, b.
Qed.

Lemma factor_trans (s t u : string) :
  (exists pre post, s = pre ++ t ++ post) ->
  (exists pre post, t = pre ++ u ++ post) ->
  exists pre post, s = pre ++ u ++ post.
Proof.
  intros (p1 & q1 & H1) (p2 & q2 & H2).
  exists (p1 ++ p2), (q2 ++ q1). subst s t.
  now rewrite !str_app_assoc.
Qed.

Lemma bracket_level_range (tag l : string) :
  bracket_level tag = Some l -> In l ["debug"; "info"; "warn"; "error"].
Proof.
  unfold bracket_level.
  repeat match goal with
         | |- context [if ?b then _ else _] => destruct b
         end; intros H; inversion H; subst; simpl; auto.
Qed.

Section TextLines.

Variable json_unmarshal : string -> option JsonLog.
Variable time_parse_rfc3339 : string -> option Time.

Local Abbreviation parse := (parseLogLine json_unmarshal time_parse_rfc3339).

(** X9: for every line that is not JSON, with or without a bracketed
    token, the event has one of the four severities, the receipt time as
    its timestamp and no source; its message has no white space around
    it and is a part of the line. *)
Theorem parseLogLine_text_line (now : Time) (line : string) :
  json_unmarshal line = None ->
  In (Level (parse now line)) ["debug"; "info"; "warn"; "error"]
  /\ Timestamp (parse now line) = now
  /\ Source (parse now line) = ""
  /\ TrimSpace (Message (parse now line)) = Message (parse now line)
  /\ exists pre post, line = pre ++ Message (parse now line) ++ post.
Proof.
  intros Hj. unfold parseLogLine. rewrite Hj.
  assert (Hfall :
    let e := set_Message (TrimSpace line) (mkLogEvent now "info" "" "" line) in
    In (Level e) ["debug"; "info"; "warn"; "error"]
    /\ Timestamp e = now /\ Source e = ""
    /\ TrimSpace (Message e) = Message e
    /\ exists pre post, line = pre ++ Message e ++ post).
  { simpl. repeat split; auto.
    - apply TrimSpace_idem.
    - apply TrimSpace_factor. }
  destruct (IndexByte (TrimSpace line) "[") as [idx|]; [|exact Hfall].
  destruct (IndexByte _ "]") as [endIdx|]; [|exact Hfall].
  assert (Hmsg : exists pre post,
             line = pre ++ TrimSpace (slice_from (TrimSpace line) (idx + endIdx + 1)) ++ post).
  { apply (factor_trans _ (TrimSpace line)); [apply TrimSpace_factor|].
    apply (factor_trans _ (slice_from (TrimSpace line) (idx + endIdx + 1)));
      [apply substring_factor | apply TrimSpace_factor]. }
  destruct (bracket_level _) as [l|] eqn:El; simpl.
  - repeat split; auto.
    + apply bracket_level_range in El. simpl in El. exact El.
    + apply TrimSpace_idem.
  - repeat split; auto. apply TrimSpace_idem.
Qed.

End TextLines.

Lemma parseLogLine_text_line_witness :
  let e := Samples.parse 42%Z "  srv [ERR] disk full  " in
  In (Level e) ["debug"; "info"; "warn"; "error"]
  /\ Timestamp e = 42%Z
  /\ Source e = ""
  /\ TrimSpace (Message e) = Message e
  /\ exists pre post, "  srv [ERR] disk full  " = pre ++ Message e ++ post.
Proof.
  exact (parseLogLine_text_line Samples.json_unmarshal Samples.time_parse_rfc3339
           42%Z "  srv [ERR] disk full  " eq_refl).
Defined.

Section Commands.

Context {OpenClawStatus : Type}.
Variable cmd_Output : Command -> ExecResult.

(** X10: [runCommand] returns output exactly when the process it
    started, [ssh] for a remote instance and the binary itself for a
    local one, ran to a zero exit status; the output then has no white
    space around it.  A failure of a remote instance is reported with a
    message that begins "SSH ". *)
Theorem runCommand_outcome (c : CLIAdapter OpenClawStatus) (args : list string) :
  (forall out, runCommand cmd_Output c args = Ok out ->
     TrimSpace out = out
     /\ exists stdout, cmd_Output (commandOf c args) = Output stdout
                       /\ out = TrimSpace stdout)
  /\ (forall e, runCommand cmd_Output c args = Err e ->
        (forall stdout, cmd_Output (commandOf c args) <> Output stdout)
        /\ (IsRemote c = true -> exists rest, e = "SSH " ++ rest)).
Proof.
  unfold runCommand, commandOf, runSSHCommand, runLocalCommand.
  destruct (IsRemote c); split.
  - intros out H. destruct (cmd_Output _) as [stdout|stderr code|e] eqn:E.
    + inversion H; subst. split; [apply TrimSpace_idem|]. now exists stdout.
    + destruct (negb _); discriminate.
    + discriminate.
  - intros e H. destruct (cmd_Output _) as [stdout|stderr code|e'] eqn:E.
    + discriminate.
    + split; [discriminate|]. intros _.
      destruct (negb _); inversion H; subst; eexists; reflexivity.
    + split; [discriminate|]. intros _. inversion H; subst. eexists; reflexivity.
  - intros out H. destruct (cmd_Output _) as [stdout|stderr code|e] eqn:E.
    + inversion H; subst. split; [apply TrimSpace_idem|]. now exists stdout.
    + discriminate.
    + discriminate.
  - intros e H. destruct (cmd_Output _) as [stdout|stderr code|e'] eqn:E.
    + discriminate.
    + split; [discriminate|]. discriminate.
    + split; [discriminate|]. discriminate.
Qed.

Variable status_unmarshal : string -> result OpenClawStatus.

Lemma GetFullStatus_result_config (out : Command -> ExecResult) (now now' : Time)
    (c c' : CLIAdapter OpenClawStatus) :
  BinaryPath c' = BinaryPath c -> SSHConfig_ c' = SSHConfig_ c ->
  snd (GetFullStatus out status_unmarshal now' c')
  = snd (GetFullStatus out status_unmarshal now c).
Proof.
  intros Hb Hs.
  assert (Hrun : runCommand out c' ["status"; "--json"]
                 = runCommand out c ["status"; "--json"]).
  { unfold runCommand, IsRemote, runSSHCommand, runLocalCommand, sshCommand,
      localCommand, buildSSHArgs, getBinary. now rewrite Hb, Hs. }
  unfold GetFullStatus. rewrite Hrun.
  destruct (runCommand out c _) as [output|e]; [|reflexivity].
  destruct (status_unmarshal output); reflexivity.
Qed.

Lemma poll_config (calls : list ((Command -> ExecResult) * Time))
    (c : CLIAdapter OpenClawStatus) :
  BinaryPath (poll status_unmarshal calls c) = BinaryPath c
  /\ SSHConfig_ (poll status_unmarshal calls c) = SSHConfig_ c
  /\ InstanceName (poll status_unmarshal calls c) = InstanceName c.
Proof.
  revert c; induction calls as [|[out now] calls IH]; intros c; simpl; [auto|].
  destruct (IH (fst (GetFullStatus out status_unmarshal now c))) as (H1 & H2 & H3).
  destruct (GetFullStatus_config out status_unmarshal now c) as (G1 & G2 & G3 & _).
  rewrite H1, H2, H3. auto.
Qed.

Lemma poll_app (calls1 calls2 : list ((Command -> ExecResult) * Time))
    (c : CLIAdapter OpenClawStatus) :
  poll status_unmarshal (calls1 ++ calls2) c
  = poll status_unmarshal calls2 (poll status_unmarshal calls1 c).
Proof.
  revert c; induction calls1 as [|[out now] calls1 IH]; intros c; simpl;
    [reflexivity | apply IH].
Qed.

Lemma poll_keeps_snapshot (calls : list ((Command -> ExecResult) * Time))
    (c : CLIAdapter OpenClawStatus) :
  lastStatus c <> None -> lastStatus (poll status_unmarshal calls c) <> None.
Proof.
  revert c; induction calls as [|[out now] calls IH]; intros c H; simpl; [exact H|].
  apply IH. unfold GetFullStatus.
  destruct (runCommand out c _) as [output|e]; [|exact H].
  destruct (status_unmarshal output); [discriminate | exact H].
Qed.

(** X11: over any series of status calls on one adapter, the outcome of
    a call depends on the configuration of the adapter alone, not on
    what earlier calls left in it.  After the last call the snapshot is
    the payload of that call, stamped with its time, and the cached
    error is cleared, when it succeeded; when it failed its error is
    the cached error and the snapshot and its time stamp are those left
    by the calls before.  A snapshot, once taken, is never lost. *)
Theorem poll_last_call (calls : list ((Command -> ExecResult) * Time))
    (out : Command -> ExecResult) (now : Time) (c : CLIAdapter OpenClawStatus) :
  let before := poll status_unmarshal calls c in
  let after := poll status_unmarshal (calls ++ [(out, now)]) c in
  match snd (GetFullStatus out status_unmarshal now c) with
  | Ok status =>
      GetCachedStatus after = Some status /\ lastFetched after = now
      /\ GetLastError after = None
  | Err e =>
      GetCachedStatus after = GetCachedStatus before
      /\ lastFetched after = lastFetched before
      /\ GetLastError after = Some e
  end
  /\ (GetCachedStatus c <> None -> GetCachedStatus after <> None).
Proof.
  intros before after. split.
  - subst after. rewrite poll_app. fold before. simpl.
    destruct (poll_config calls c) as (Hb & Hs & _). fold before in Hb, Hs.
    rewrite <- (GetFullStatus_result_config out now now c before Hb Hs).
    unfold GetFullStatus.
    destruct (runCommand out before _) as [output|e]; [|simpl; auto].
    destruct (status_unmarshal output); simpl; auto.
  - apply poll_keeps_snapshot.
Qed.

End Commands.

Lemma runCommand_outcome_witness :
  let down (cmd : Command) := ExitError "ssh: connect to host gw.example.org: timed out" 255 in
  (TrimSpace Scenario.statusDocument = Scenario.statusDocument
   /\ exists stdout,
        Scenario.cmd_Output (commandOf Scenario.remoteAdapter ["status"; "--json"])
        = Output stdout
        /\ Scenario.statusDocument = TrimSpace stdout)
  /\ (forall stdout,
        down (commandOf Scenario.remoteAdapter ["status"; "--json"]) <> Output stdout)
  /\ exists rest,
       "SSH command failed: ssh: connect to host gw.example.org: timed out"
       = "SSH " ++ rest.
Proof.
  intros down. split; [|split].
  - exact (proj1 (runCommand_outcome Scenario.cmd_Output Scenario.remoteAdapter
                    ["status"; "--json"]) Scenario.statusDocument eq_refl).
  - exact (proj1 (proj2 (runCommand_outcome down Scenario.remoteAdapter
                           ["status"; "--json"])
                    "SSH command failed: ssh: connect to host gw.example.org: timed out"
                    eq_refl)).
  - exact (proj2 (proj2 (runCommand_outcome down Scenario.remoteAdapter
                           ["status"; "--json"])
                    "SSH command failed: ssh: connect to host gw.example.org: timed out"
                    eq_refl) eq_refl).
Defined.

Lemma poll_last_call_witness :
  let down (cmd : Command) := ExitError "ssh: connect to host gw.example.org: timed out" 255 in
  let stale := set_cache "{}" 5%Z Scenario.remoteAdapter in
  GetCachedStatus
    (poll Scenario.status_unmarshal [(Scenario.cmd_Output, 7%Z); (down, 9%Z)] stale)
  <> None.
Proof.
  intros down stale.
  refine (proj2 (poll_last_call Scenario.status_unmarshal
                   [(Scenario.cmd_Output, 7%Z)] down 9%Z stale) _).
  discriminate.
Defined.

(** ** The configuration and the adapters *)

Lemma GetInstance_loop_app (l1 l2 : list InstanceProfile) (name : string) (i : nat) :
  GetInstance_loop (l1 ++ l2) name i
  = match GetInstance_loop l1 name i with
    | Some j => Some j
    | None => GetInstance_loop l2 name (i + List.length l1)
    end.
Proof.
  revert i; induction l1 as [|inst l1 IH]; intros i; simpl.
  - now rewrite Nat.add_0_r.
  - destruct (Name inst =? name); [reflexivity|].
    rewrite IH. now rewrite Nat.add_succ_comm.
Qed.

Lemma GetInstance_loop_first (l : list InstanceProfile) (name : string) (i : nat) :
  match GetInstance_loop l name i with
  | Some k =>
      exists j inst, k = (i + j)%nat /\ nth_error l j = Some inst /\ Name inst = name
        /\ forall j' inst', (j' < j)%nat -> nth_error l j' = Some inst' ->
                            Name inst' <> name
  | None => forall inst, In inst l -> Name inst <> name
  end.
Proof.
  revert i; induction l as [|inst l IH]; intros i; simpl.
  - intros inst [].
  - destruct (Name inst =? name) eqn:E.
    + apply String.eqb_eq in E. exists 0%nat, inst. repeat split; auto; lia.
    + apply String.eqb_neq in E. specialize (IH (S i)).
      destruct (GetInstance_loop l name (S i)) as [k|].
      * destruct IH as (j & inst0 & Hk & Hn & Hname & Hfirst).
        exists (S j), inst0. repeat split; auto; [lia|].
        intros j' inst' Hlt Hn'. destruct j' as [|j']; simpl in Hn'.
        -- inversion Hn'; subst. exact E.
        -- apply (Hfirst j'); [lia | exact Hn'].
      * intros inst0 [H|H]; [subst; exact E | now apply IH].
Qed.

(** X12: [GetInstance] finds the first instance of a name, and an
    instance added by [AddInstance] is found under its name exactly when
    no earlier instance has that name: the instances of every other name
    are found as before, and a second instance of a name stays hidden
    behind the first. *)
Theorem GetInstance_AddInstance (c : Config) (instance : InstanceProfile)
    (name : string) :
  GetInstance (AddInstance instance c) name
  = match GetInstance c name with
    | Some i => Some i
    | None => if Name instance =? name
              then Some (List.length (Instances c)) else None
    end
  /\ match GetInstance c name with
     | Some i =>
         exists inst, nth_error (Instances c) i = Some inst /\ Name inst = name
           /\ forall j inst', (j < i)%nat -> nth_error (Instances c) j = Some inst' ->
                              Name inst' <> name
     | None => forall inst, In inst (Instances c) -> Name inst <> name
     end.
Proof.
  unfold GetInstance, AddInstance. simpl. split.
  - rewrite GetInstance_loop_app.
    destruct (GetInstance_loop (Instances c) name 0); [reflexivity|].
    simpl. destruct (Name instance =? name); reflexivity.
  - pose proof (GetInstance_loop_first (Instances c) name 0) as H.
    destruct (GetInstance_loop (Instances c) name 0) as [k|]; [|exact H].
    destruct H as (j & inst & Hk & Hn & Hname & Hfirst).
    simpl in Hk. subst k. exists inst. auto.
Qed.

Lemma GetInstance_AddInstance_witness :
  let prod := mkInstanceProfile "prod" [] ConnectionModeLocal None "" in
  GetInstance (AddInstance prod twoInstances) "prod" = Some 1%nat
  /\ exists inst, nth_error (Instances twoInstances) 1 = Some inst
                  /\ Name inst = "prod"
                  /\ forall j inst', (j < 1)%nat ->
                       nth_error (Instances twoInstances) j = Some inst' ->
                       Name inst' <> "prod".
Proof.
  exact (GetInstance_AddInstance twoInstances
           (mkInstanceProfile "prod" [] ConnectionModeLocal None "") "prod").
Defined.

Section AdapterFacts.

Context {OpenClawStatus : Type}.

Local Abbreviation Adapter := (CLIAdapter OpenClawStatus).

Lemma initCLIAdapters_loop_spec (cfg : Config) (instances : list InstanceProfile)
    (acc : list Adapter) :
  initCLIAdapters_loop cfg instances acc = (acc ++ @adaptersOf OpenClawStatus cfg instances)%list.
Proof.
  revert acc; induction instances as [|inst l IH]; intros acc; simpl.
  - now rewrite app_nil_r.
  - destruct (@adapterOf OpenClawStatus cfg inst) as [a|]; rewrite IH; simpl;
      [now rewrite <- app_assoc | reflexivity].
Qed.

Lemma adapterOf_name (cfg : Config) (inst : InstanceProfile) :
  match @adapterOf OpenClawStatus cfg inst with
  | Some a => has_adapter inst = true /\ InstanceName a = Name inst
  | None => has_adapter inst = false
  end.
Proof.
  unfold adapterOf, has_adapter.
  destruct (Mode inst =? ConnectionModeSSH); simpl.
  - destruct (SSH inst); auto.
  - split; [reflexivity|].
    destruct (negb (instOpenClawCLI inst =? "")); [reflexivity|].
    destruct (negb (cfgOpenClawCLI cfg =? "")); reflexivity.
Qed.

Lemma adaptersOf_names (cfg : Config) (instances : list InstanceProfile) :
  map InstanceName (@adaptersOf OpenClawStatus cfg instances)
  = map Name (filter has_adapter instances).
Proof.
  induction instances as [|inst l IH]; simpl; [reflexivity|].
  pose proof (adapterOf_name cfg inst) as H.
  destruct (@adapterOf OpenClawStatus cfg inst) as [a|].
  - destruct H as [H1 H2]. rewrite H1. simpl. now rewrite H2, IH.
  - rewrite H. exact IH.
Qed.

(** X13: [initCLIAdapters] always leaves at least one adapter, so
    [getCurrentAdapter] has one to return.  The adapters are those of
    the instances that are not in SSH mode without SSH settings, in the
    order of the configuration and under the names of their instances;
    when there is none, one local adapter named "Local". *)
Theorem initCLIAdapters_names (cfg : Config) :
  @initCLIAdapters OpenClawStatus cfg <> []
  /\ map InstanceName (@initCLIAdapters OpenClawStatus cfg)
     = match filter has_adapter (Instances cfg) with
       | [] => ["Local"]
       | kept => map Name kept
       end.
Proof.
  unfold initCLIAdapters.
  destruct (Instances cfg) as [|inst l] eqn:E.
  - split; [discriminate|]. simpl.
    destruct (negb (cfgOpenClawCLI cfg =? "")); reflexivity.
  - rewrite initCLIAdapters_loop_spec, app_nil_l.
    pose proof (adaptersOf_names cfg (inst :: l)) as H.
    destruct (@adaptersOf OpenClawStatus cfg (inst :: l)) as [|a r] eqn:Ea.
    + split; [discriminate|].
      destruct (filter has_adapter (inst :: l)); [reflexivity | discriminate H].
    + split; [discriminate|]. rewrite H.
      destruct (filter has_adapter (inst :: l)); [discriminate H | reflexivity].
Qed.

Lemma adaptersOf_nth (cfg : Config) (instances : list InstanceProfile) (i : nat) :
  forallb has_adapter instances = true ->
  nth_error (@adaptersOf OpenClawStatus cfg instances) i
  = match nth_error instances i with
    | Some inst => @adapterOf OpenClawStatus cfg inst
    | None => None
    end.
Proof.
  revert i; induction instances as [|inst l IH]; intros i H; simpl.
  - destruct i; reflexivity.
  - simpl in H. apply andb_prop in H as [H1 H2].
    pose proof (adapterOf_name cfg inst) as Hn.
    destruct i as [|i]; simpl;
      (destruct (@adapterOf OpenClawStatus cfg inst) as [a|]; [|congruence]);
      simpl; [reflexivity | now apply IH].
Qed.

(** X14: when every instance in SSH mode carries its SSH settings, the
    adapters line up with the instances: the adapter at a selection has
    the name that [GetState] saves for it, it is remote exactly when the
    instance is in SSH mode with a host, and the binary it runs is the
    path of the instance, else that of its SSH settings for an SSH
    instance and that of the configuration for a local one, else
    "openclaw". *)
Theorem initCLIAdapters_aligned (cfg : Config) (selectedInstance : Z) :
  ssh_configured cfg = true ->
  (0 <= selectedInstance < Z.of_nat (List.length (Instances cfg)))%Z ->
  exists inst adapter,
    nth_error (Instances cfg) (Z.to_nat selectedInstance) = Some inst
    /\ nth_error (@initCLIAdapters OpenClawStatus cfg) (Z.to_nat selectedInstance) = Some adapter
    /\ List.length (@initCLIAdapters OpenClawStatus cfg) = List.length (Instances cfg)
    /\ InstanceName adapter = GetState_SelectedInstance cfg selectedInstance
    /\ IsRemote adapter
       = (Mode inst =? ConnectionModeSSH)
         && match SSH inst with Some ssh => negb (Host ssh =? "") | None => false end
    /\ getBinary adapter
       = (let path :=
            if negb (instOpenClawCLI inst =? "") then instOpenClawCLI inst
            else if Mode inst =? ConnectionModeSSH
                 then match SSH inst with Some ssh => OpenClawCLI ssh | None => "" end
                 else cfgOpenClawCLI cfg in
          if path =? "" then "openclaw" else path).
Proof.
  intros Hc Hsel.
  assert (Hi : (Z.to_nat selectedInstance < List.length (Instances cfg))%nat) by lia.
  destruct (nth_error (Instances cfg) (Z.to_nat selectedInstance)) as [inst|] eqn:En.
  2:{ apply nth_error_None in En. lia. }
  assert (Hall : forallb has_adapter (Instances cfg) = true) by exact Hc.
  assert (Hlen : List.length (@adaptersOf OpenClawStatus cfg (Instances cfg))
                 = List.length (Instances cfg)).
  { rewrite <- (length_map InstanceName), adaptersOf_names, length_map.
    f_equal. clear -Hall. induction (Instances cfg) as [|x l IH]; [reflexivity|].
    simpl in *. apply andb_prop in Hall as [H1 H2]. rewrite H1. f_equal. now apply IH. }
  assert (Hinit : @initCLIAdapters OpenClawStatus cfg = @adaptersOf OpenClawStatus cfg (Instances cfg)).
  { unfold initCLIAdapters.
    destruct (Instances cfg) as [|x l] eqn:E; [simpl in Hi; lia|].
    rewrite initCLIAdapters_loop_spec, app_nil_l.
    destruct (@adaptersOf OpenClawStatus cfg (x :: l)) eqn:Ea; [discriminate Hlen | reflexivity]. }
  pose proof (adaptersOf_nth cfg (Instances cfg) (Z.to_nat selectedInstance) Hall) as Hn.
  rewrite En in Hn.
  assert (Hin : has_adapter inst = true).
  { rewrite forallb_forall in Hall. apply Hall. eapply nth_error_In; eauto. }
  destruct (@adapterOf OpenClawStatus cfg inst) as [adapter|] eqn:Ea.
  2:{ pose proof (adapterOf_name cfg inst) as H. rewrite Ea in H. congruence. }
  exists inst, adapter. rewrite Hinit.
  split; [reflexivity|]. split; [exact Hn|]. split; [exact Hlen|].
  split; [|split].
  - unfold GetState_SelectedInstance.
    replace (0 <=? selectedInstance)%Z with true by (symmetry; apply Z.leb_le; lia).
    replace (selectedInstance <? _)%Z with true by (symmetry; apply Z.ltb_lt; lia).
    simpl. rewrite En.
    pose proof (adapterOf_name cfg inst) as H. rewrite Ea in H. apply H.
  - unfold adapterOf in Ea. unfold has_adapter in Hin.
    destruct (Mode inst =? ConnectionModeSSH); simpl in *.
    + destruct (SSH inst) as [ssh|]; [|discriminate].
      inversion Ea; subst. reflexivity.
    + inversion Ea; subst.
      destruct (negb (instOpenClawCLI inst =? "")); [reflexivity|].
      destruct (negb (cfgOpenClawCLI cfg =? "")); reflexivity.
  - unfold adapterOf in Ea. unfold has_adapter in Hin. unfold getBinary.
    destruct (Mode inst =? ConnectionModeSSH); simpl in *.
    + destruct (SSH inst) as [ssh|]; [|discriminate].
      inversion Ea; subst. simpl.
      destruct (instOpenClawCLI inst =? "") eqn:E1; simpl.
      * destruct (OpenClawCLI ssh =? "") eqn:E2; simpl.
        -- apply String.eqb_eq in E1. rewrite E1. reflexivity.
        -- rewrite E2. reflexivity.
      * rewrite E1. reflexivity.
    + inversion Ea; subst.
      destruct (instOpenClawCLI inst =? "") eqn:E1; simpl.
      * destruct (cfgOpenClawCLI cfg =? "") eqn:E2; simpl.
        -- reflexivity.
        -- rewrite E2. reflexivity.
      * rewrite E1. reflexivity.
Qed.

End AdapterFacts.

Lemma initCLIAdapters_aligned_witness :
  ssh_configured twoInstances = true
  /\ exists inst (adapter : CLIAdapter unit),
       nth_error (Instances twoInstances) 1 = Some inst
       /\ nth_error (initCLIAdapters twoInstances) 1 = Some adapter
       /\ List.length (@initCLIAdapters unit twoInstances) = 2%nat
       /\ InstanceName adapter = GetState_SelectedInstance twoInstances 1
       /\ IsRemote adapter
          = (Mode inst =? ConnectionModeSSH)
            && match SSH inst with Some ssh => negb (Host ssh =? "") | None => false end
       /\ getBinary adapter
          = (let path :=
               if negb (instOpenClawCLI inst =? "") then instOpenClawCLI inst
               else if Mode inst =? ConnectionModeSSH
                    then match SSH inst with Some ssh => OpenClawCLI ssh | None => "" end
                    else cfgOpenClawCLI twoInstances in
             if path =? "" then "openclaw" else path).
Proof.
  split; [reflexivity|].
  exact (initCLIAdapters_aligned twoInstances 1%Z eq_refl
           (conj (proj1 (Z.leb_le 0 1) eq_refl) (proj1 (Z.ltb_lt 1 2) eq_refl))).
Defined.

(** ** The application, one message after the other *)

Lemma lastn_suffix {A : Type} (d t : list A) :
  lastn (List.length t) (d ++ t) = t.
Proof.
  unfold lastn. rewrite length_app.
  replace (List.length d + List.length t - List.length t)%nat
    with (List.length d + 0)%nat by lia.
  rewrite skipn_app, Nat.add_0_r.
  replace (List.length d - List.length d)%nat with 0%nat by lia.
  rewrite skipn_all. reflexivity.
Qed.

Section InTurnFacts.

Context {OpenClawStatus : Type}.
Context {HealthCheckResult : Type}.
Variable Gateway : OpenClawStatus -> option GatewayStatus.
Variable cmd_Output : Command -> ExecResult.
Variable status_unmarshal : string -> result OpenClawStatus.
Variable GetHealthSnapshot :
  CLIAdapter OpenClawStatus ->
  CLIAdapter OpenClawStatus * result HealthCheckResult.
Variable cmd_Start : Command -> LaunchResult.

Local Abbreviation App := (App OpenClawStatus HealthCheckResult).
Local Abbreviation exec :=
  (@run OpenClawStatus HealthCheckResult cmd_Output status_unmarshal
     GetHealthSnapshot cmd_Start).
Local Abbreviation execAll :=
  (@run_all OpenClawStatus HealthCheckResult cmd_Output status_unmarshal
     GetHealthSnapshot cmd_Start).

(** *** The log buffer *)

Lemma appendLog_tail (event : LogEvent) (a : App) (dropped : list LogEvent)
    (all : list LogEvent) :
  all = (dropped ++ logs a)%list ->
  exists dropped',
    (all ++ [event] = dropped' ++ logs (appendLog event a))%list
    /\ List.length (logs (appendLog event a))
       = Nat.min (Nat.max (Z.to_nat (LogTailLines a)) (List.length (logs a)))
           (List.length (logs a) + 1).
Proof.
  intros Hall. unfold appendLog. simpl.
  rewrite length_app. simpl List.length.
  destruct (LogTailLines a <? Z.of_nat (List.length (logs a) + 1))%Z eqn:E.
  - apply Z.ltb_lt in E.
    destruct (logs a) as [|x l] eqn:El; simpl in *.
    + exists (all ++ [event])%list. rewrite app_nil_r. split; [reflexivity|lia].
    + exists (dropped ++ [x])%list. subst all.
      rewrite <- !app_assoc. simpl. split; [reflexivity|].
      rewrite length_app. simpl. lia.
  - apply Z.ltb_ge in E. exists dropped. subst all.
    rewrite <- app_assoc. split; [reflexivity|].
    rewrite length_app. simpl. lia.
Qed.

Lemma receive_tail (events : list LogEvent) :
  forall (a : App) (dropped all : list LogEvent),
  all = (dropped ++ logs a)%list ->
  LogTailLines (receive Gateway events a) = LogTailLines a
  /\ exists dropped',
       (all ++ events = dropped' ++ logs (receive Gateway events a))%list
       /\ List.length (logs (receive Gateway events a))
          = Nat.min (Nat.max (Z.to_nat (LogTailLines a)) (List.length (logs a)))
              (List.length (logs a) + List.length events).
Proof.
  induction events as [|event events IH]; intros a dropped all Hall.
  - simpl. split; [reflexivity|]. exists dropped. rewrite !app_nil_r.
    split; [exact Hall | lia].
  - change (receive Gateway (event :: events) a)
      with (receive Gateway events (fst (Update Gateway (CLILogMsg event) a))).
    assert (Hu : fst (Update Gateway (CLILogMsg event) a) = appendLog event a)
      by (simpl; destruct (logFollowing a); reflexivity).
    rewrite Hu.
    destruct (appendLog_tail event a dropped all Hall) as (d' & Hd & Hl').
    assert (HLa : LogTailLines (appendLog event a) = LogTailLines a) by reflexivity.
    destruct (IH (appendLog event a) d' (all ++ [event])%list Hd)
      as (H1 & d'' & H2 & H3).
    rewrite HLa in H1, H3. split; [exact H1|].
    exists d''. rewrite <- app_assoc in H2. split; [exact H2|].
    rewrite H3, Hl'. simpl List.length. lia.
Qed.

(** X15: the log buffer after any series of log messages.  The buffer
    is a tail of the earlier buffer followed by the events received, in
    the order of their arrival; its length is [LogTailLines], or that of
    the earlier buffer when that was longer, or all there is when there
    is less.  So a buffer that is within the limit holds the newest
    [LogTailLines] events, none with a limit of zero, and a buffer that
    is over the limit is never cut back to it. *)
Theorem receive_newest (events : list LogEvent) (a : App) :
  logs (receive Gateway events a)
  = lastn (Nat.max (Z.to_nat (LogTailLines a)) (List.length (logs a)))
      (logs a ++ events)
  /\ LogTailLines (receive Gateway events a) = LogTailLines a
  /\ ((Z.of_nat (List.length (logs a)) <= LogTailLines a)%Z ->
      logs (receive Gateway events a)
      = lastn (Z.to_nat (LogTailLines a)) (logs a ++ events)).
Proof.
  destruct (receive_tail events a [] (logs a) eq_refl) as (H1 & d & H2 & H3).
  assert (Hmain : logs (receive Gateway events a)
                  = lastn (Nat.max (Z.to_nat (LogTailLines a)) (List.length (logs a)))
                      (logs a ++ events)).
  { rewrite H2.
    set (k := Nat.max (Z.to_nat (LogTailLines a)) (List.length (logs a))) in *.
    assert (Hall : List.length (logs a ++ events)
                   = (List.length (logs a) + List.length events)%nat)
      by apply length_app.
    assert (Hd : List.length (logs a ++ events)
                 = (List.length d + List.length (logs (receive Gateway events a)))%nat)
      by (rewrite H2; apply length_app).
    clear H2.
    destruct (Nat.le_gt_cases k (List.length (logs a) + List.length events))
      as [Hk|Hk].
    - replace k with (List.length (logs (receive Gateway events a))) by lia.
      symmetry. apply lastn_suffix.
    - assert (d = []) by (destruct d; [reflexivity | simpl in Hd; lia]).
      subst d. simpl. unfold lastn.
      replace (_ - _)%nat with 0%nat by lia. reflexivity. }
  split; [exact Hmain|]. split; [exact H1|].
  intros Hlen. rewrite Hmain. f_equal. lia.
Qed.

(** *** The selection *)

Lemma run_selection (now : Time) (c : Cmd) (a : App) :
  selectedInstance (fst (exec now c a)) = selectedInstance a
  /\ List.length (cliAdapters (fst (exec now c a))) = List.length (cliAdapters a).
Proof.
  destruct c; simpl.
  - unfold run_fetchCLIStatus.
    destruct (currentIndex a), (getCurrentAdapter a); try (split; reflexivity).
    destruct (GetFullStatus _ _ _ _) as [c0 r].
    destruct r; simpl; rewrite store_length; split; reflexivity.
  - unfold run_fetchCLIHealth.
    destruct (currentIndex a), (getCurrentAdapter a); try (split; reflexivity).
    destruct (GetHealthSnapshot _) as [c0 r].
    destruct r; simpl; rewrite store_length; split; reflexivity.
  - unfold run_startLogFollowing.
    destruct (currentIndex a), (getCurrentAdapter a); try (split; reflexivity).
    unfold FollowLogs.
    destruct (cmd_Start _); simpl; rewrite store_length; split; reflexivity.
  - unfold run_waitForCLILog. destruct (logChan a); split; reflexivity.
  - split; reflexivity.
Qed.

Lemma run_all_step (now : Time) (c : Cmd) (cmds : list Cmd) (a : App) :
  fst (execAll now (c :: cmds) a) = fst (execAll now cmds (fst (exec now c a))).
Proof.
  simpl. destruct (run _ _ _ _ now c a) as [a1 o]. simpl.
  destruct (run_all _ _ _ _ now cmds a1) as [a2 os]. reflexivity.
Qed.

Lemma run_all_done (now : Time) (a : App) : fst (execAll now [] a) = a.
Proof. reflexivity. Qed.

Lemma run_all_selection (now : Time) (cmds : list Cmd) (a : App) :
  selectedInstance (fst (execAll now cmds a)) = selectedInstance a
  /\ List.length (cliAdapters (fst (execAll now cmds a)))
     = List.length (cliAdapters a).
Proof.
  revert a; induction cmds as [|c cmds IH]; intros a; [split; reflexivity|].
  rewrite run_all_step.
  destruct (IH (fst (exec now c a))) as [H1 H2].
  destruct (run_selection now c a) as [G1 G2].
  rewrite H1, H2. auto.
Qed.

Lemma stopLogFollowing_selection (a : App) :
  selectedInstance (stopLogFollowing a) = selectedInstance a
  /\ cliAdapters (stopLogFollowing a) = cliAdapters a.
Proof. split; reflexivity. Qed.

Lemma Update_selection (msg : Msg OpenClawStatus HealthCheckResult) (a : App) :
  selection_ok a ->
  selection_ok (fst (Update Gateway msg a))
  /\ List.length (cliAdapters (fst (Update Gateway msg a))) = List.length (cliAdapters a).
Proof.
  unfold selection_ok. intros Hs.
  destruct msg as [[| | |] | status err | res err | event |]; simpl.
  - destruct (focusedPane a); [|auto].
    destruct (_ && _) eqn:E; [|auto]. simpl.
    apply andb_prop in E as [_ E]. apply Z.ltb_lt in E. split; [lia | reflexivity].
  - destruct (focusedPane a); [|auto].
    destruct (_ && _) eqn:E; [|auto]. simpl.
    apply andb_prop in E as [_ E]. apply Z.ltb_lt in E. split; [lia | reflexivity].
  - destruct (focusedPane a); auto.
  - destruct (getCurrentAdapter a); auto.
  - destruct err as [e|]; [auto|].
    destruct status as [st|]; [|auto].
    simpl. destruct (Gateway st); auto.
  - destruct err; auto.
  - destruct (logFollowing a); simpl; auto.
  - destruct (getCurrentAdapter a); auto.
Qed.

(** X16: the selection stays an index of the adapters.  Whatever the
    message, once it is handled the adapters are as many as before and
    the selection is still one of them, so that [getCurrentAdapter]
    returns the adapter at the selection and never nil. *)
Theorem handle_selection (now : Time) (msg : Msg OpenClawStatus HealthCheckResult)
    (a : App) :
  selection_ok a ->
  let a' := handle Gateway cmd_Output status_unmarshal GetHealthSnapshot
              cmd_Start now msg a in
  selection_ok a'
  /\ List.length (cliAdapters a') = List.length (cliAdapters a)
  /\ getCurrentAdapter a' = nth_error (cliAdapters a') (Z.to_nat (selectedInstance a'))
  /\ getCurrentAdapter a' <> None.
Proof.
  intros Hs a'.
  destruct (Update_selection msg a Hs) as [H1 H2].
  assert (Ha : selection_ok a'
               /\ List.length (cliAdapters a') = List.length (cliAdapters a)).
  { subst a'. unfold handle.
    destruct (Update Gateway msg a) as [a1 cmds]. simpl in H1, H2.
    destruct (run_all_selection now cmds a1) as [G1 G2].
    unfold selection_ok in *. simpl. rewrite G1, G2, H2.
    split; [lia | reflexivity]. }
  destruct Ha as [Ha Hl]. split; [exact Ha|]. split; [exact Hl|].
  unfold selection_ok in Ha.
  assert (Hg : getCurrentAdapter a'
               = nth_error (cliAdapters a') (Z.to_nat (selectedInstance a'))).
  { unfold getCurrentAdapter, currentIndex.
    replace (Z.of_nat (List.length (cliAdapters a')) =? 0)%Z with false
      by (symmetry; apply Z.eqb_neq; lia).
    replace (selectedInstance a' <? 0)%Z with false
      by (symmetry; apply Z.ltb_ge; lia).
    replace (Z.of_nat (List.length (cliAdapters a')) <=? selectedInstance a')%Z
      with false by (symmetry; apply Z.leb_gt; lia).
    reflexivity. }
  split; [exact Hg|]. rewrite Hg.
  intros Hn. apply nth_error_None in Hn. lia.
Qed.

(** *** One session, that of the selected instance *)

Lemma currentIndex_ext (a b : App) :
  selectedInstance b = selectedInstance a ->
  List.length (cliAdapters b) = List.length (cliAdapters a) ->
  currentIndex b = currentIndex a.
Proof. unfold currentIndex. intros -> ->. reflexivity. Qed.

Lemma follows_selection_ext (a b : App) :
  runtime b = runtime a ->
  selectedInstance b = selectedInstance a ->
  List.length (cliAdapters b) = List.length (cliAdapters a) ->
  follows_selection a -> follows_selection b.
Proof.
  intros Hr Hs Hl H s. rewrite Hr, (currentIndex_ext a b Hs Hl). apply H.
Qed.

Lemma quiet_follows_selection (a : App) : quiet a -> follows_selection a.
Proof. intros Hq s Hs Hr. rewrite (Hq s Hs) in Hr. discriminate. Qed.

Lemma run_follows_selection (now : Time) (c : Cmd) (a : App) :
  c <> startLogFollowing ->
  follows_selection a -> follows_selection (fst (exec now c a)).
Proof.
  intros Hc. destruct (run_frame cmd_Output status_unmarshal GetHealthSnapshot
                         cmd_Start now c a Hc) as [Hr _].
  destruct (run_selection now c a) as [Hs Hl].
  now apply follows_selection_ext.
Qed.

Lemma run_all_follows_selection (now : Time) (cmds : list Cmd) (a : App) :
  Forall (fun c => c <> startLogFollowing) cmds ->
  follows_selection a -> follows_selection (fst (execAll now cmds a)).
Proof.
  intros Hc. revert a. induction Hc as [|c cmds Hc _ IH]; intros a Hf.
  - exact Hf.
  - rewrite run_all_step. apply IH. now apply run_follows_selection.
Qed.

Lemma start_follows_selection (now : Time) (a : App) :
  quiet a -> follows_selection (fst (exec now startLogFollowing a)).
Proof.
  intros Hq.
  destruct (run_selection now startLogFollowing a) as [Hsel Hlen].
  pose proof (currentIndex_ext a _ Hsel Hlen) as Hcur.
  intros s Hs Hr. rewrite Hcur. clear Hsel Hlen Hcur.
  simpl in Hs, Hr. unfold run_startLogFollowing in Hs, Hr.
  destruct (currentIndex a) as [i|] eqn:Ei.
  2:{ simpl in Hs, Hr. rewrite (Hq s Hs) in Hr. discriminate. }
  destruct (getCurrentAdapter a) as [adapter|].
  2:{ simpl in Hs, Hr. rewrite (Hq s Hs) in Hr. discriminate. }
  unfold FollowLogs in Hs, Hr.
  destruct (cmd_Start (followCommand adapter)); simpl in Hs, Hr.
  - apply in_app_or in Hs. destruct Hs as [Hs|[<-|[]]].
    + specialize (Hq s Hs). unfold running, is_cancelled in *.
      simpl in Hr. congruence.
    + reflexivity.
  - specialize (Hq s Hs). unfold running, is_cancelled in *. simpl in Hr. congruence.
  - specialize (Hq s Hs). unfold running, is_cancelled in *. simpl in Hr. congruence.
  - specialize (Hq s Hs). unfold running, is_cancelled in *. simpl in Hr. congruence.
Qed.

Lemma switch_commands_follow (now : Time) (a : App) :
  quiet a ->
  follows_selection
    (fst (execAll now [fetchCLIStatus; fetchCLIHealth; startLogFollowing] a)).
Proof.
  intros Hq. rewrite !run_all_step, run_all_done.
  apply start_follows_selection.
  apply (run_frame_quiet cmd_Output status_unmarshal GetHealthSnapshot cmd_Start);
    [discriminate|].
  apply (run_frame_quiet cmd_Output status_unmarshal GetHealthSnapshot cmd_Start);
    [discriminate | exact Hq].
Qed.

Lemma handle_follows_selection (now : Time)
    (msg : Msg OpenClawStatus HealthCheckResult) (a : App) :
  session_invariant a -> follows_selection a ->
  follows_selection
    (handle Gateway cmd_Output status_unmarshal GetHealthSnapshot cmd_Start
       now msg a).
Proof.
  intros Hi Hf. unfold handle.
  destruct msg as [[| | |] | status err | res err | event |]; simpl.
  - destruct (focusedPane a); [|exact Hf].
    destruct (_ && _); [|exact Hf].
    unfold switchInstance. cbn [fst snd].
    match goal with
    | |- context [stopLogFollowing ?b] =>
        destruct (stopLogFollowing_quiet b) as [_ Hq];
          [now apply (session_invariant_ext a) |]
    end.
    now apply switch_commands_follow.
  - destruct (focusedPane a); [|exact Hf].
    destruct (_ && _); [|exact Hf].
    unfold switchInstance. cbn [fst snd].
    match goal with
    | |- context [stopLogFollowing ?b] =>
        destruct (stopLogFollowing_quiet b) as [_ Hq];
          [now apply (session_invariant_ext a) |]
    end.
    now apply switch_commands_follow.
  - destruct (focusedPane a); [|exact Hf].
    apply (run_all_follows_selection now [fetchCLIStatus; fetchCLIHealth]).
    + repeat constructor; discriminate.
    + now apply (follows_selection_ext a).
  - destruct (getCurrentAdapter a); [|exact Hf].
    destruct (stopLogFollowing_quiet a Hi) as [_ Hq].
    now apply switch_commands_follow.
  - destruct err as [e|]; [now apply (follows_selection_ext a)|].
    destruct status as [st|]; [|exact Hf].
    destruct (Gateway st); now apply (follows_selection_ext a).
  - destruct err; [exact Hf | now apply (follows_selection_ext a)].
  - assert (He : follows_selection (appendLog event a))
      by (now apply (follows_selection_ext a)).
    change (logFollowing (appendLog event a)) with (logFollowing a).
    destruct (logFollowing a).
    + apply (run_all_follows_selection now [waitForCLILog]); [|exact He].
      repeat constructor; discriminate.
    + exact He.
  - destruct (getCurrentAdapter a).
    + apply (run_all_follows_selection now [fetchCLIStatus; scheduleRefresh]);
        [|exact Hf]. repeat constructor; discriminate.
    + apply (run_all_follows_selection now [scheduleRefresh]); [|exact Hf].
      repeat constructor; discriminate.
Qed.

Lemma Init_follows_selection (now : Time) (a : App) :
  sessions (runtime a) = [] ->
  follows_selection (fst (execAll now (snd (Init a)) (fst (Init a)))).
Proof.
  intros Hs. unfold Init. cbn [fst snd].
  assert (Hq : quiet a) by (unfold quiet; rewrite Hs; intros s []).
  rewrite !run_all_step, run_all_done.
  apply run_follows_selection; [discriminate|].
  apply start_follows_selection.
  apply (run_frame_quiet cmd_Output status_unmarshal GetHealthSnapshot cmd_Start);
    [discriminate|].
  apply (run_frame_quiet cmd_Output status_unmarshal GetHealthSnapshot cmd_Start);
    [discriminate | exact Hq].
Qed.

Lemma in_turn_invariant (now : Time)
    (msgs : list (Time * Msg OpenClawStatus HealthCheckResult)) (a : App) :
  sessions (runtime a) = [] ->
  let a' := in_turn Gateway cmd_Output status_unmarshal GetHealthSnapshot
              cmd_Start now msgs a in
  session_invariant a' /\ follows_selection a'.
Proof.
  intros Hs. unfold in_turn.
  pose proof (Init_invariant cmd_Output status_unmarshal GetHealthSnapshot
                cmd_Start now a Hs) as Hi.
  pose proof (Init_follows_selection now a Hs) as Hf.
  revert Hi Hf. generalize (fst (execAll now (snd (Init a)) (fst (Init a)))).
  induction msgs as [|[t m] msgs IH]; intros b Hi Hf; simpl; [auto|].
  apply IH.
  - now apply handle_invariant.
  - now apply handle_follows_selection.
Qed.

(** X17: when every message is handled with its commands before the
    next one, at most one follow session runs, whatever the messages
    and however the commands turn out, and it is the session of the
    selected instance. *)
Theorem in_turn_one_session (now : Time)
    (msgs : list (Time * Msg OpenClawStatus HealthCheckResult)) (a : App) :
  sessions (runtime a) = [] ->
  let a' := in_turn Gateway cmd_Output status_unmarshal GetHealthSnapshot
              cmd_Start now msgs a in
  (List.length (filter (running (runtime a')) (sessions (runtime a'))) <= 1)%nat
  /\ forall s, In s (sessions (runtime a')) -> running (runtime a') s = true ->
               currentIndex a' = Some (sessAdapter s).
Proof.
  intros Hs a'. destruct (in_turn_invariant now msgs a Hs) as [Hi Hf].
  fold a' in Hi, Hf. split; [|exact Hf].
  destruct Hi as (H1 & H2 & _).
  destruct (logCancel a') as [p|] eqn:E.
  - apply (filter_same_key sessParent _ p); [exact H2|].
    intros s Hin Hr. specialize (H1 s Hin Hr). congruence.
  - apply (filter_same_key sessParent _ 0%nat); [exact H2|].
    intros s Hin Hr. specialize (H1 s Hin Hr). discriminate.
Qed.

End InTurnFacts.

Lemma receive_newest_witness :
  let e1 := mkLogEvent 1%Z "info" "" "gateway started" "gateway started" in
  let e2 := mkLogEvent 2%Z "warn" "" "disk low" "[WARN] disk low" in
  let e3 := mkLogEvent 3%Z "error" "" "disk full" "[ERR] disk full" in
  logs (receive Scenario.gatewayOf [e1; e2; e3] shortTail) = [e2; e3].
Proof.
  intros e1 e2 e3.
  exact (proj2 (proj2 (receive_newest Scenario.gatewayOf [e1; e2; e3] shortTail))
           (proj1 (Z.leb_le 0 2) eq_refl)).
Defined.

Lemma handle_selection_witness :
  let a' := handle Scenario.gatewayOf Scenario.cmd_Output Scenario.status_unmarshal
              Scenario.GetHealthSnapshot Scenario.cmd_Start 1%Z (KeyMsg KeyDown)
              Scenario.app0 in
  selection_ok a'
  /\ List.length (cliAdapters a') = 2%nat
  /\ getCurrentAdapter a' = nth_error (cliAdapters a') (Z.to_nat (selectedInstance a'))
  /\ getCurrentAdapter a' <> None.
Proof.
  exact (handle_selection Scenario.gatewayOf Scenario.cmd_Output
           Scenario.status_unmarshal Scenario.GetHealthSnapshot Scenario.cmd_Start
           1%Z (KeyMsg KeyDown) Scenario.app0
           (conj (proj1 (Z.leb_le 0 0) eq_refl) (proj1 (Z.ltb_lt 0 2) eq_refl))).
Defined.

Lemma in_turn_one_session_witness :
  let a' := in_turn Scenario.gatewayOf Scenario.cmd_Output Scenario.status_unmarshal
              Scenario.GetHealthSnapshot Scenario.cmd_Start 1%Z
              [(2%Z, KeyMsg KeyDown); (3%Z, KeyMsg KeyReconnect); (4%Z, KeyMsg KeyUp)]
              Scenario.app0 in
  (List.length (filter (running (runtime a')) (sessions (runtime a'))) <= 1)%nat
  /\ forall s, In s (sessions (runtime a')) -> running (runtime a') s = true ->
               currentIndex a' = Some (sessAdapter s).
Proof.
  exact (in_turn_one_session Scenario.gatewayOf Scenario.cmd_Output
           Scenario.status_unmarshal Scenario.GetHealthSnapshot Scenario.cmd_Start
           1%Z [(2%Z, KeyMsg KeyDown); (3%Z, KeyMsg KeyReconnect); (4%Z, KeyMsg KeyUp)]
           Scenario.app0 eq_refl).
Defined.

(** ** Joined hints, the progress bar and the readers *)

Lemma joinWithSeparator_loop_spec (items : list string) (sep : string)
    (result : list string) :
  joinWithSeparator_loop items sep false result
  = (result ++ flat_map (fun item => [sep; item]) items)%list.
Proof.
  revert result; induction items as [|item items IH]; intros result; simpl.
  - now rewrite app_nil_r.
  - rewrite IH, <- !app_assoc. reflexivity.
Qed.

Lemma evens_interleave (sep item : string) (items : list string) :
  evens (item :: flat_map (fun x => [sep; x]) items) = item :: items.
Proof.
  revert item; induction items as [|x items IH]; intros item; [reflexivity|].
  simpl. f_equal. apply IH.
Qed.

Lemma odd_interleave (sep : string) (items : list string) :
  forall (item : string) (i : nat),
  Nat.odd i = true ->
  (i < List.length (item :: flat_map (fun x => [sep; x]) items))%nat ->
  nth_error (item :: flat_map (fun x => [sep; x]) items) i = Some sep.
Proof.
  induction items as [|x items IH]; intros item i Ho Hi.
  - simpl in Hi. assert (i = 0%nat) by lia. subst. discriminate.
  - destruct i as [|[|i]]; [discriminate | reflexivity |].
    simpl. apply IH; [exact Ho | simpl in Hi; simpl; lia].
Qed.

(** X18: [joinWithSeparator] puts the separator between the items: of
    [n] items it makes [2n - 1] elements, the items at the even
    positions, in their order, and the separator at every odd one.  On
    an empty list it panics. *)
Theorem joinWithSeparator_between (items : list string) (sep : string) :
  match items with
  | [] => joinWithSeparator items sep = None
  | _ =>
      exists result,
        joinWithSeparator items sep = Some result
        /\ List.length result = (2 * List.length items - 1)%nat
        /\ evens result = items
        /\ forall i, Nat.odd i = true -> (i < List.length result)%nat ->
                     nth_error result i = Some sep
  end.
Proof.
  destruct items as [|item items]; [reflexivity|].
  unfold joinWithSeparator. cbn [joinWithSeparator_loop].
  rewrite joinWithSeparator_loop_spec. simpl app.
  eexists. split; [reflexivity|]. split; [|split].
  - simpl. clear. induction items as [|x items IH]; [reflexivity|].
    simpl in *. lia.
  - apply evens_interleave.
  - intros i. apply odd_interleave.
Qed.

Lemma joinWithSeparator_between_witness :
  exists result,
    joinWithSeparator ["q quit"; "r reconnect"] "  " = Some result
    /\ List.length result = 3%nat
    /\ evens result = ["q quit"; "r reconnect"]
    /\ forall i, Nat.odd i = true -> (i < List.length result)%nat ->
                 nth_error result i = Some "  ".
Proof.
  exact (joinWithSeparator_between ["q quit"; "r reconnect"] "  ").
Defined.

(** *** The progress bar *)

Lemma wrap64_small (z : Z) :
  (- 2 ^ 63 <= z < 2 ^ 63)%Z -> wrap64 z = z.
Proof.
  intros H. unfold wrap64. rewrite Z.mod_small; lia.
Qed.

(** X19: the bar of [renderProgressBar] is [max 5 (max 10 width - 7)]
    cells wide.  For a percentage that is not negative the filled and
    the empty cells add up to that width, the filled ones being the
    percentage of it, rounded down and at most all of them; a
    percentage of -20 or less makes the function panic. *)
Theorem renderProgressBar_cells (percent width : Z) :
  (- 2 ^ 31 <= percent <= 2 ^ 31)%Z -> (width <= 2 ^ 31)%Z ->
  let barWidth := Z.max 5 (Z.max 10 width - 7) in
  (0 <= percent ->
   exists filled empty,
     renderProgressBar percent width = Some (filled, empty, percent)
     /\ filled = Z.min barWidth (percent * barWidth / 100)
     /\ 0 <= filled /\ 0 <= empty /\ filled + empty = barWidth)%Z
  /\ (percent <= -20 -> renderProgressBar percent width = None)%Z.
Proof.
  intros Hp Hw barWidth.
  assert (Hbw : (let width := if (width <? 10)%Z then 10%Z else width in
                 let bw := wrap64 (width - 7) in
                 (if (bw <? 5)%Z then 5%Z else bw) = barWidth)).
  { simpl. subst barWidth.
    destruct (width <? 10)%Z eqn:E.
    - apply Z.ltb_lt in E. rewrite wrap64_small by lia. simpl. lia.
    - apply Z.ltb_ge in E. rewrite wrap64_small by lia.
      destruct (width - 7 <? 5)%Z eqn:E2;
        [apply Z.ltb_lt in E2 | apply Z.ltb_ge in E2]; lia. }
  simpl in Hbw.
  assert (Hb : (5 <= barWidth <= 2 ^ 31)%Z) by (subst barWidth; lia).
  assert (Hprod : (- 2 ^ 63 <= percent * barWidth < 2 ^ 63)%Z).
  { change (2 ^ 63)%Z with (2 ^ 31 * 2 ^ 32)%Z. nia. }
  unfold renderProgressBar. rewrite Hbw, (wrap64_small _ Hprod).
  clearbody barWidth. clear Hbw.
  split.
  - intros H0.
    rewrite Z.quot_div_nonneg by nia.
    pose proof (Z.div_pos (percent * barWidth) 100 ltac:(nia) ltac:(lia)) as Hq.
    set (q := (percent * barWidth / 100)%Z) in *.
    destruct (barWidth <? q)%Z eqn:E;
      [apply Z.ltb_lt in E | apply Z.ltb_ge in E].
    + rewrite Z.sub_diag. change (wrap64 0) with 0%Z.
      unfold repeat_ok.
      replace (0 <=? barWidth)%Z with true by (symmetry; apply Z.leb_le; lia).
      replace (3 * barWidth <? 2 ^ 63)%Z with true by (symmetry; apply Z.ltb_lt; lia).
      simpl. exists barWidth, 0%Z. repeat split; lia.
    + rewrite (wrap64_small (barWidth - q)) by lia.
      unfold repeat_ok.
      replace (0 <=? q)%Z with true by (symmetry; apply Z.leb_le; lia).
      replace (3 * q <? 2 ^ 63)%Z with true by (symmetry; apply Z.ltb_lt; lia).
      replace (0 <=? barWidth - q)%Z with true by (symmetry; apply Z.leb_le; lia).
      replace (3 * (barWidth - q) <? 2 ^ 63)%Z with true
        by (symmetry; apply Z.ltb_lt; lia).
      simpl. exists q, (barWidth - q)%Z. repeat split; lia.
  - intros Hn.
    assert (Hq : (Z.quot (percent * barWidth) 100 <= -1)%Z).
    { rewrite <- (Z.opp_involutive (percent * barWidth)), Z.quot_opp_l by lia.
      rewrite Z.quot_div_nonneg by nia.
      assert (1 <= - (percent * barWidth) / 100)%Z; [|lia].
      apply Z.div_le_lower_bound; nia. }
    set (q := Z.quot (percent * barWidth) 100) in *.
    replace (barWidth <? q)%Z with false by (symmetry; apply Z.ltb_ge; lia).
    unfold repeat_ok.
    replace (0 <=? q)%Z with false by (symmetry; apply Z.leb_gt; lia).
    reflexivity.
Qed.

Lemma renderProgressBar_cells_witness :
  (exists filled empty,
     renderProgressBar 42 40 = Some (filled, empty, 42)
     /\ filled = Z.min 33 (42 * 33 / 100)
     /\ 0 <= filled /\ 0 <= empty /\ filled + empty = 33)%Z
  /\ renderProgressBar (-20) 40 = None.
Proof.
  split.
  - refine (proj1 (renderProgressBar_cells 42 40 _ _) _); lia.
  - refine (proj2 (renderProgressBar_cells (-20) 40 _ _) _); lia.
Defined.

(** *** The readers of a follow session *)

Section ReaderFacts.

Variable json_unmarshal : string -> option JsonLog.
Variable time_parse_rfc3339 : string -> option Time.

Local Abbreviation step := (follow_step json_unmarshal time_parse_rfc3339).
Local Abbreviation steps := (follow_steps json_unmarshal time_parse_rfc3339).

Lemma follow_step_ok (s s' : FollowState) :
  step s s' -> session_ok s -> session_ok s'.
Proof.
  intros Hstep (H1 & H2 & H3).
  destruct Hstep; unfold session_ok; simpl;
    try (split; [exact H1 | split; [exact H2 | exact H3]]).
  - (* stdout_send *)
    split; [|split].
    + intros e He. apply in_app_or in He. destruct He as [He|[<-|[]]]; [auto|].
      subst event. rewrite parseLogLine_Raw. assumption.
    + rewrite length_app. simpl. lia.
    + intros Hd. rewrite (H3 Hd), app_assoc. reflexivity.
  - (* stderr_send *)
    split; [|split].
    + intros e He. apply in_app_or in He. destruct He as [He|[<-|[]]]; [auto|].
      subst event. simpl. assumption.
    + rewrite length_app. simpl. lia.
    + intros Hd. rewrite (H3 Hd), app_assoc. reflexivity.
  - (* wait_receive *)
    split; [exact H1|]. split.
    + rewrite H0 in H2. simpl in H2. lia.
    + intros Hd. rewrite (H3 Hd), H0, <- app_assoc. reflexivity.
  - (* drain_receive *)
    split; [exact H1|]. split.
    + rewrite H0 in H2. simpl in H2. lia.
    + intros Hd. congruence.
Qed.

(** X20: in a follow session an empty line never becomes an event, the
    channel never holds more than a hundred events, and until the
    channel is drained the events sent are those delivered followed by
    those still in the channel: none is lost, repeated or out of
    order. *)
Theorem follow_steps_sent (s s' : FollowState) :
  steps s s' ->
  (forall e, In e (sent s) -> Raw e <> "") ->
  (List.length (chanBuf s) <= logChanCap)%nat ->
  (drainer s = false -> sent s = (delivered s ++ chanBuf s)%list) ->
  (forall e, In e (sent s') -> Raw e <> "")
  /\ (List.length (chanBuf s') <= logChanCap)%nat
  /\ (drainer s = false -> sent s' = (delivered s' ++ chanBuf s')%list).
Proof.
  intros Hsteps H1 H2 H3.
  assert (Hd : drainer s' = drainer s).
  { clear H1 H2 H3. induction Hsteps as [|s1 s2 s3 Hs _ IH]; [reflexivity|].
    rewrite IH. destruct Hs; reflexivity. }
  assert (Hok : session_ok s').
  { assert (H0 : session_ok s) by (split; [|split]; assumption).
    clear H1 H2 H3 Hd. induction Hsteps as [|s1 s2 s3 Hs _ IH]; [exact H0|].
    apply IH. now apply (follow_step_ok s1 s2). }
  destruct Hok as (G1 & G2 & G3). rewrite Hd in G3. auto.
Qed.

End ReaderFacts.

Lemma follow_steps_sent_witness :
  let line := "[WARN] disk low" in
  let event := Samples.parse 7%Z line in
  let s' := mkFollowState false true [] [] true true [event] true false [event] [] in
  (forall e, In e (sent s') -> Raw e <> "")
  /\ (List.length (chanBuf s') <= logChanCap)%nat
  /\ (drainer startedSession = false -> sent s' = (delivered s' ++ chanBuf s')%list).
Proof.
  intros line event s'.
  refine (follow_steps_sent Samples.json_unmarshal Samples.time_parse_rfc3339
            startedSession s' _ _ _ _).
  - eapply steps_cons.
    + apply (proc_stdout _ _ startedSession line). reflexivity.
    + eapply steps_cons; [|apply steps_refl].
      apply (stdout_send Samples.json_unmarshal Samples.time_parse_rfc3339
               (mkFollowState false true [line] [] true true [] true false [] [])
               7%Z line []).
      * reflexivity.
      * reflexivity.
      * discriminate.
      * apply Nat.ltb_lt. reflexivity.
  - intros e [].
  - apply Nat.leb_le. reflexivity.
  - reflexivity.
Defined.
